(** * Q-Transformer: a shallow embedding of [q_robotic_transformer.py]

    The development follows the Python module top to bottom: tensor helpers,
    the relative-position table of the windowed [Attention], the temporal
    [Transformer], [TokenLearner], the Q heads and [QRoboticTransformer].

    Conventions.
    - A tensor is a nested list, outermost axis first.  Scalars are the real
      numbers of the Standard Library: the floating-point tensors of the
      source are idealised as exact reals, integer tensors are [Z] or [nat].
    - [einsum], [reduce] and the matrix products are written as indexed sums,
      the way einops and torch define them.
    - A Python exception is a value of [exn]; code that can raise returns
      [result].
    - The values of the learned parameters are arguments of the
      constructors; well-formedness predicates record the shapes torch
      gives them.
    - [q_transformer.attend.Attend] and the body of [encode_state] outside
      its attention mask are not embedded from the source: the first is
      modelled from the specification, the second is a field of the model. *)

From Stdlib Require Import String.
From Stdlib Require Import List ZArith Arith Lia Bool Permutation.
From Stdlib Require Import Reals Lra.
Import ListNotations.

(* ================================================================= *)
(** * Part I: definitions *)
(* ================================================================= *)

(** ** Exceptions *)

Inductive exn : Type :=
| AssertionError
| AttributeError
| TypeError
| RuntimeError.

Inductive result (A : Type) : Type :=
| Ok (a : A)
| Raise (e : exn).

Arguments Ok {A} a.
Arguments Raise {A} e.

Definition bind {A B} (r : result A) (k : A -> result B) : result B :=
  match r with
  | Ok a => k a
  | Raise e => Raise e
  end.

Notation "x <- r ;; k" := (bind r (fun x => k))
  (at level 61, r at next level, right associativity).

(** ** Python helpers (lines 22-26) *)

Definition exists_ {A} (val : option A) : bool :=
  match val with Some _ => true | None => false end.

Definition default {A} (val : option A) (d : A) : A :=
  match val with Some v => v | None => d end.

(** ** List helpers shared by the tensor code *)

Fixpoint zip_with {A B C} (f : A -> B -> C) (l1 : list A) (l2 : list B) : list C :=
  match l1, l2 with
  | a :: t1, b :: t2 => f a b :: zip_with f t1 t2
  | _, _ => []
  end.

(** [imap f l] is [f 0 x0; f 1 x1; ...]. *)
Fixpoint imap_from {A B} (s : nat) (f : nat -> A -> B) (l : list A) : list B :=
  match l with
  | [] => []
  | x :: t => f s x :: imap_from (S s) f t
  end.

Definition imap {A B} (f : nat -> A -> B) (l : list A) : list B := imap_from 0 f l.

Definition zsum (l : list Z) : Z := fold_right Z.add 0%Z l.

(** ** Windowed [Attention]: the relative-position index table (lines 220-231) *)

(** [torch.arange(n)] *)
Definition arange (n : nat) : list Z := map Z.of_nat (seq 0 n).

(** [torch.meshgrid(a, b, indexing = 'ij')] followed by [torch.stack]:
    axis order [c i j], with [c] ranging over the two coordinate planes. *)
Definition meshgrid_stack (a b : list Z) : list (list (list Z)) :=
  [ map (fun x => map (fun _ => x) b) a ;
    map (fun _ => b) a ].

(** [rearrange(grid, 'c i j -> (i j) c')] *)
Definition rearrange_cij_ijc (g : list (list (list Z))) : list (list Z) :=
  let ni := length (hd [] g) in
  let nj := length (hd [] (hd [] g)) in
  flat_map (fun i =>
    map (fun j => map (fun plane => nth j (nth i plane []) 0%Z) g) (seq 0 nj))
    (seq 0 ni).

Definition grid (window_size : nat) : list (list Z) :=
  let pos := arange window_size in
  rearrange_cij_ijc (meshgrid_stack pos pos).

(** [rearrange(grid, 'i ... -> i 1 ...') - rearrange(grid, 'j ... -> 1 j ...')],
    then [rel_pos += window_size - 1]. *)
Definition rel_pos (window_size : nat) : list (list (list Z)) :=
  let g := grid window_size in
  let diff := map (fun gi => map (fun gj => zip_with Z.sub gi gj) g) g in
  map (map (map (fun x => (x + (Z.of_nat window_size - 1))%Z))) diff.

(** [(rel_pos * torch.tensor([2 * window_size - 1, 1])).sum(dim = -1)].
    The tensors are [int64]; every value that occurs lies between
    [- window_size] and [(2 * window_size - 1)^2], so for a table that fits
    in memory nothing wraps and [Z] is exact. *)
Definition rel_pos_indices (window_size : nat) : list (list Z) :=
  let strides := [(2 * Z.of_nat window_size - 1)%Z; 1%Z] in
  map (map (fun v => zsum (zip_with Z.mul v strides))) (rel_pos window_size).

(** The index the table assigns to a coordinate offset [(dx, dy)]: both
    coordinates shifted by [window_size - 1], read in base [2 * window_size - 1]. *)
Definition offset_index (window_size : nat) (dx dy : Z) : Z :=
  ((dx + (Z.of_nat window_size - 1)) * (2 * Z.of_nat window_size - 1)
   + (dy + (Z.of_nat window_size - 1)))%Z.

(** ** [encode_state]: the attention mask over learned tokens (lines 961-964) *)

(** [torch.ones((r, c), dtype = torch.bool)] *)
Definition ones_bool (r c : nat) : list (list bool) := repeat (repeat true c) r.

(** [m.triu(k)]: entries below the [k]-th diagonal are zeroed. *)
Definition triu (k : nat) (m : list (list bool)) : list (list bool) :=
  imap (fun i row => imap (fun j x => if (i + k <=? j)%nat then x else false) row) m.

(** [~m] *)
Definition invert (m : list (list bool)) : list (list bool) := map (map negb) m.

(** [repeat(m, 'i j -> (i r1) (j r2)', r1 = r1, r2 = r2)] *)
Definition repeat_ij (r1 r2 : nat) (m : list (list bool)) : list (list bool) :=
  flat_map (fun row => repeat (flat_map (fun x => repeat x r2) row) r1) m.

Definition frame_mask (frames : nat) : list (list bool) :=
  invert (triu 1 (ones_bool frames frames)).

Definition encode_state_attn_mask (frames num_learned_tokens : nat) : list (list bool) :=
  repeat_ij num_learned_tokens num_learned_tokens (frame_mask frames).

(** ** Real tensors *)

Local Open Scope R_scope.

Abbreviation vec := (list R) (only parsing).

Definition rsum (l : list R) : R := fold_right Rplus 0 l.

(** [sum_n n f] is the finite sum of [f j] over [j < n]; it is how
    [einsum] contracts an axis of size [n]. *)
Definition sum_n (n : nat) (f : nat -> R) : R := rsum (map f (seq 0 n)).

Definition mean (l : list R) : R := rsum l / INR (length l).

Definition dot (u v : vec) : R :=
  sum_n (length u) (fun j => nth j u 0 * nth j v 0).

(** Elementwise binary operation on the last axis with torch broadcasting:
    an operand whose last axis has size one is repeated along it. *)
Definition broadcast (op : R -> R -> R) (u w : vec) : vec :=
  match u, w with
  | _, [y] => map (fun x => op x y) u
  | [x], _ => map (fun y => op x y) w
  | _, _ => zip_with op u w
  end.

(** [reduce(t, '... a -> ... 1', 'mean')] on one row. *)
Definition reduce_mean_keepdim (row : vec) : vec := [mean row].

(** [reduce(x, 'b ... d -> b d', 'mean')] on one batch element whose middle
    axes are flattened into a list of [d]-vectors. *)
Definition reduce_mean_tokens (s : list vec) : vec :=
  map (fun c => mean (map (fun tok => nth c tok 0) s)) (seq 0 (length (hd [] s))).

Definition sigmoid (x : R) : R := 1 / (1 + exp (- x)).

Definition SiLU (x : R) : R := x * sigmoid x.

(** [torch.argmax] over a row: the index of the first maximal entry. *)
Fixpoint argmax_from (best : nat) (bestv : R) (i : nat) (l : list R) : nat :=
  match l with
  | [] => best
  | x :: t => if Rlt_dec bestv x then argmax_from i x (S i) t
              else argmax_from best bestv (S i) t
  end.

Definition argmax (l : list R) : nat :=
  match l with
  | [] => O
  | x :: t => argmax_from O x 1%nat t
  end.

(** ** [nn.Linear] and [nn.LayerNorm] *)

Record Linear := mkLinear {
  weight : list vec;          (* out_features x in_features *)
  bias : option vec           (* [None] for [bias = False] *)
}.

Definition Linear_forward (l : Linear) (x : vec) : vec :=
  imap (fun o row =>
          dot row x + match bias l with Some b => nth o b 0 | None => 0 end)
       (weight l).

Record LayerNorm := mkLayerNorm {
  ln_affine : option (vec * vec)   (* [None] for [elementwise_affine = False] *)
}.

Definition ln_eps : R := 1 / 100000.

Definition variance (x : vec) : R :=
  mean (map (fun xi => (xi - mean x) * (xi - mean x)) x).

Definition LayerNorm_forward (ln : LayerNorm) (x : vec) : vec :=
  let mu := mean x in
  let sd := sqrt (variance x + ln_eps) in
  imap (fun i xi =>
          let y := (xi - mu) / sd in
          match ln_affine ln with
          | Some (g, b) => y * nth i g 0 + nth i b 0
          | None => y
          end) x.

(** Addition of two tensors of the same shape, [b n d]. *)
Definition vadd (u w : vec) : vec := zip_with Rplus u w.

Definition add_tokens (x y : list vec) : list vec := zip_with vadd x y.

Definition add3 (x y : list (list vec)) : list (list vec) := zip_with add_tokens x y.

(** A tensor whose leading axes were flattened by [pack_one(x, '* ...')]:
    the packed shape and the items in row-major order. *)
Record packed (A : Type) := mkPacked {
  lead : list nat;
  items : list A
}.

Arguments mkPacked {A} lead items.
Arguments lead {A} p.
Arguments items {A} p.

Section Model.

(** [nn.GELU()], the exact (erf-based) activation of torch. *)
Variable GELU : R -> R.

(** A conditioning function maps a [b n d] tensor to a tensor of the same
    kind; the functions come from the external text conditioner. *)
Definition cond_fn := list (list vec) -> list (list vec).

(** [next(it, None)] on an iterator over a tuple. *)
Definition next {A} (it : list A) : option A * list A :=
  match it with
  | [] => (None, [])
  | x :: t => (Some x, t)
  end.

Definition apply_cond (c : option cond_fn) (x : list (list vec)) : list (list vec) :=
  match c with
  | Some f => f x
  | None => x
  end.

(** ** [FeedForward] (lines 83-104); [nn.Dropout] is the identity (the
    transformers of this file are built with dropout probability 0). *)

Record FeedForward := mkFeedForward {
  ff_norm : LayerNorm;
  ff_lin1 : Linear;
  ff_lin2 : Linear
}.

Definition FeedForward_net (ff : FeedForward) (x : vec) : vec :=
  Linear_forward (ff_lin2 ff) (map GELU (Linear_forward (ff_lin1 ff) x)).

Definition FeedForward_forward (ff : FeedForward) (x : list (list vec))
    (c : option cond_fn) : list (list vec) :=
  let x := map (map (LayerNorm_forward (ff_norm ff))) x in
  let x := apply_cond c x in
  map (map (FeedForward_net ff)) x.

(** ** [Attend] *)

(** Modelled from the spec: [q_transformer.attend.Attend] is imported by the
    source but its file is not part of it.  The spec describes it as standard
    multi-head attention with an optional causal mask under which slot [i]
    attends only to slots [<= i]; memory keys, which [TransformerAttention]
    puts in front of the sequence, are visible to every query.  This is one
    head of one batch element: [q] is [i d], [k] and [v] are [j d], and
    [attn_mask] is [i j] with [true] meaning that the query may attend. *)
Definition Attend_allowed (causal : bool) (attn_mask : option (list (list bool)))
    (i_len j_len i j : nat) : bool :=
  (match attn_mask with
   | Some m => nth j (nth i m []) false
   | None => true
   end)
  && (if causal then (j <=? i + (j_len - i_len))%nat else true).

Definition Attend_weight (causal : bool) (attn_mask : option (list (list bool)))
    (q k : list vec) (i j : nat) : R :=
  let qi := nth i q [] in
  let scale := / sqrt (INR (length qi)) in
  if Attend_allowed causal attn_mask (length q) (length k) i j
  then exp (dot qi (nth j k []) * scale)
  else 0.

Definition Attend (causal : bool) (q k v : list vec)
    (attn_mask : option (list (list bool))) : list vec :=
  imap (fun i qi =>
          let e := Attend_weight causal attn_mask q k i in
          let z := sum_n (length k) e in
          map (fun c => sum_n (length k) (fun j => e j * nth c (nth j v []) 0) / z)
              (seq 0 (length qi)))
       q.

(** ** [TransformerAttention] (lines 407-490), as [Transformer] calls it:
    [context] and the key-padding [mask] are [None]. *)

Record TransformerAttention := mkTransformerAttention {
  ta_heads : nat;
  ta_dim_head : nat;
  ta_num_mem_kv : nat;
  ta_norm : LayerNorm;
  ta_to_q : Linear;
  ta_to_kv : Linear;
  (* [mem_kv], [2 h n d], split into its key and value halves; [None] when
     [num_mem_kv = 0] *)
  ta_mem_kv : option (list (list vec) * list (list vec));
  ta_causal : bool;
  ta_to_out : Linear
}.

(** [t.chunk(2, dim = -1)] *)
Definition chunk2 (t : vec) : vec * vec :=
  let c := ((length t + 1) / 2)%nat in (firstn c t, skipn c t).

(** [rearrange(t, 'b n (h d) -> b h n d', h = h)] on one batch element. *)
Definition split_heads (h : nat) (t : list vec) : list (list vec) :=
  map (fun hi => map (fun tok =>
                        let d := (length tok / h)%nat in
                        firstn d (skipn (hi * d) tok)) t)
      (seq 0 h).

(** [rearrange(out, 'b h n d -> b n (h d)')] on one batch element with [n]
    tokens. *)
Definition merge_heads (n : nat) (out : list (list vec)) : list vec :=
  map (fun i => concat (map (fun oh => nth i oh []) out)) (seq 0 n).

(** [torch.cat((m, t), dim = -2)] per head. *)
Definition cat_mem (m t : list (list vec)) : list (list vec) :=
  zip_with (fun mh th => mh ++ th) m t.

(** [F.pad(attn_mask, (num_mem_kv, 0), value = True)] *)
Definition pad_mask (num_mem_kv : nat) (m : list (list bool)) : list (list bool) :=
  map (fun row => repeat true num_mem_kv ++ row) m.

Definition TransformerAttention_sample (a : TransformerAttention)
    (attn_mask : option (list (list bool))) (x kv_input : list vec) : list vec :=
  let q := map (Linear_forward (ta_to_q a)) x in
  let kv := map (fun t => chunk2 (Linear_forward (ta_to_kv a) t)) kv_input in
  let k := map fst kv in
  let v := map snd kv in
  let q := split_heads (ta_heads a) q in
  let k := split_heads (ta_heads a) k in
  let v := split_heads (ta_heads a) v in
  let '(k, v, attn_mask) :=
    match ta_mem_kv a with
    | Some (mk, mv) =>
        (cat_mem mk k, cat_mem mv v, option_map (pad_mask (ta_num_mem_kv a)) attn_mask)
    | None => (k, v, attn_mask)
    end in
  let out :=
    map (fun hi => Attend (ta_causal a) (nth hi q []) (nth hi k []) (nth hi v []) attn_mask)
        (seq 0 (ta_heads a)) in
  let out := merge_heads (length x) out in
  map (Linear_forward (ta_to_out a)) out.

Definition TransformerAttention_forward (a : TransformerAttention)
    (x : list (list vec)) (attn_mask : option (list (list bool)))
    (c : option cond_fn) : list (list vec) :=
  let kv_input := x in
  let x := map (map (LayerNorm_forward (ta_norm a))) x in
  let x := apply_cond c x in
  zip_with (TransformerAttention_sample a attn_mask) x kv_input.

(** [mem_kv] is one [2 h n d] parameter: its key and value halves have one
    entry per head, with the same number of memory tokens. *)
Definition TransformerAttention_wf (a : TransformerAttention) : Prop :=
  match ta_mem_kv a with
  | Some (mk, mv) =>
      length mk = ta_heads a /\ length mv = ta_heads a
      /\ (forall hi, length (nth hi mk []) = length (nth hi mv []))
  | None => True
  end.

(** ** [Transformer] (lines 492-525) *)

Record Transformer := mkTransformer {
  layers : list (TransformerAttention * FeedForward)
}.

Fixpoint Transformer_layers (ls : list (TransformerAttention * FeedForward))
    (x : list (list vec)) (cond_fns : list cond_fn)
    (attn_mask : option (list (list bool))) : list (list vec) :=
  match ls with
  | [] => x
  | (attn, ff) :: rest =>
      let (c1, cond_fns) := next cond_fns in
      let x := add3 (TransformerAttention_forward attn x attn_mask c1) x in
      let (c2, cond_fns) := next cond_fns in
      let x := add3 (FeedForward_forward ff x c2) x in
      Transformer_layers rest x cond_fns attn_mask
  end.

(** The constructor (lines 493-510) hands its [causal] flag to the [Attend]
    of every layer; the values of the other parameters of the layers are
    given. *)
Definition set_causal (causal : bool) (a : TransformerAttention) : TransformerAttention :=
  mkTransformerAttention (ta_heads a) (ta_dim_head a) (ta_num_mem_kv a) (ta_norm a)
    (ta_to_q a) (ta_to_kv a) (ta_mem_kv a) causal (ta_to_out a).

Definition Transformer_init (causal : bool)
    (params : list (TransformerAttention * FeedForward)) : Transformer :=
  mkTransformer (map (fun l => (set_causal causal (fst l), snd l)) params).

(** Every attention layer of the stack is causal and has a well-formed
    memory. *)
Definition causal_layers (ls : list (TransformerAttention * FeedForward)) : Prop :=
  Forall (fun l => ta_causal (fst l) = true /\ TransformerAttention_wf (fst l)) ls.

Definition Transformer_forward (t : Transformer) (x : list (list vec))
    (cond_fns : option (list cond_fn)) (attn_mask : option (list (list bool)))
    : list (list vec) :=
  Transformer_layers (layers t) x (default cond_fns []) attn_mask.

(** ** [DuelingHead] (lines 567-599) *)

Record DuelingHead := mkDuelingHead {
  dh_stem : Linear;
  dh_to_values : Linear;       (* [nn.Linear(dim_hidden, 1)] *)
  dh_to_advantages : Linear    (* [nn.Linear(dim_hidden, action_bins)] *)
}.

Definition DuelingHead_forward (h : DuelingHead) (x : list vec) : list vec :=
  map (fun xb =>
         let x := map SiLU (Linear_forward (dh_stem h) xb) in
         let advantages := Linear_forward (dh_to_advantages h) x in
         let advantages := broadcast Rminus advantages (reduce_mean_keepdim advantages) in
         let values := Linear_forward (dh_to_values h) x in
         let q_values := broadcast Rplus values advantages in
         map sigmoid q_values)
      x.

(** ** Attribute lookup on a module object

    [self.name] succeeds when the name is bound on the instance, on its class
    or on [torch.nn.Module]; otherwise [nn.Module.__getattr__] raises
    [AttributeError].  The names [torch.nn.Module] provides are a parameter. *)

Variable Module_attrs : list string.

Inductive device := cpu | cuda.

Inductive pyval :=
| PInt (n : nat)
| PBool (b : bool)
| PTensor2 (t : list vec)
| PTensor3 (t : list (list vec))
| PModule
| PMethod
| PDevice (d : device).

Fixpoint assoc (name : string) (d : list (string * pyval)) : option pyval :=
  match d with
  | [] => None
  | (k, v) :: t => if String.eqb k name then Some v else assoc name t
  end.

Definition mem_string (name : string) (l : list string) : bool :=
  existsb (String.eqb name) l.

(** Lookup of a name that is not a property of the class. *)
Definition getattr_plain (instance : list (string * pyval)) (methods : list string)
    (name : string) : result pyval :=
  match assoc name instance with
  | Some v => Ok v
  | None =>
      if mem_string name methods || mem_string name Module_attrs
      then Ok PMethod
      else Raise AttributeError
  end.

(** [t.device] of a tensor attribute; tensors of this model live on the CPU. *)
Definition device_of (v : pyval) : result device :=
  match v with
  | PTensor2 _ | PTensor3 _ => Ok cpu
  | _ => Raise AttributeError
  end.

(** [torch.randint(low, high, shape, device = device)]: the drawn integers
    in row-major order. *)
Variable randint : Z -> Z -> list nat -> device -> list Z.

(** ** [QHeadSingleAction] (lines 603-650) *)

Inductive to_q_values_net :=
| NetDueling (h : DuelingHead)                 (* [Reduce], [DuelingHead] *)
| NetPlain (ln : LayerNorm) (lin : Linear).    (* [Reduce], [LayerNorm], [Linear], [Sigmoid] *)

Record QHeadSingleAction := mkQHeadSingleAction {
  sa_action_bins : nat;
  sa_num_learned_tokens : nat;
  sa_to_q_values : to_q_values_net
}.

(** [Reduce('b (f n) d -> b d', 'mean', n = n)]; einops raises when the
    token axis is not a multiple of [n]. *)
Definition Reduce_tokens (n : nat) (x : list (list vec)) : result (list vec) :=
  if forallb (fun s => (0 <? n)%nat && (length s mod n =? 0)%nat) x
  then Ok (map reduce_mean_tokens x)
  else Raise RuntimeError.

Definition QHeadSingleAction_forward (h : QHeadSingleAction)
    (encoded_state : list (list vec)) : result (list vec) :=
  x <- Reduce_tokens (sa_num_learned_tokens h) encoded_state ;;
  match sa_to_q_values h with
  | NetDueling dh => Ok (DuelingHead_forward dh x)
  | NetPlain ln lin =>
      Ok (map (fun xb => map sigmoid (Linear_forward lin (LayerNorm_forward ln xb))) x)
  end.

Definition QHeadSingleAction_dict (h : QHeadSingleAction) : list (string * pyval) :=
  [("action_bins", PInt (sa_action_bins h)); ("to_q_values", PModule)]%string.

Definition QHeadSingleAction_methods : list string :=
  ["get_random_actions"; "get_optimal_actions"; "forward"]%string.

Definition QHeadSingleAction_getattr (h : QHeadSingleAction) (name : string)
    : result pyval :=
  getattr_plain (QHeadSingleAction_dict h) QHeadSingleAction_methods name.

Definition as_device (v : pyval) : result device :=
  match v with
  | PDevice d => Ok d
  | _ => Raise TypeError
  end.

Definition as_int (v : pyval) : result nat :=
  match v with
  | PInt n => Ok n
  | _ => Raise TypeError
  end.

Definition QHeadSingleAction_get_random_actions (h : QHeadSingleAction)
    (batch_size : nat) : result (list Z) :=
  bins <- bind (QHeadSingleAction_getattr h "action_bins") as_int ;;
  dev <- bind (QHeadSingleAction_getattr h "device") as_device ;;
  Ok (randint 0 (Z.of_nat bins) [batch_size] dev).

(** [q_values.max(dim = -1)]: the maxima and the indices of the maxima. *)
Definition max_last (q : list vec) : list R * list nat :=
  (map (fun row => nth (argmax row) row 0) q, map argmax q).

Definition QHeadSingleAction_get_optimal_actions (h : QHeadSingleAction)
    (encoded_state : list (list vec)) (return_q_values : bool)
    : result (list nat * option (list R)) :=
  q_values <- QHeadSingleAction_forward h encoded_state ;;
  let '(max_q, action_indices) := max_last q_values in
  if negb return_q_values then Ok (action_indices, None)
  else Ok (action_indices, Some max_q).

(** ** [QHeadMultipleActions] (lines 652-779) *)

Record QHeadMultipleActions := mkQHeadMultipleActions {
  ma_num_actions : nat;
  ma_action_bins : nat;
  action_bin_embeddings : list (list vec);    (* [num_actions action_bins dim] *)
  ma_transformer : Transformer;
  final_norm : LayerNorm;
  dueling : bool;
  to_values : list vec                        (* [num_actions dim], bound only when [dueling] *)
}.

Definition QHeadMultipleActions_dict (h : QHeadMultipleActions) : list (string * pyval) :=
  app [("num_actions", PInt (ma_num_actions h));
       ("action_bins", PInt (ma_action_bins h));
       ("action_bin_embeddings", PTensor3 (action_bin_embeddings h));
       ("transformer", PModule);
       ("final_norm", PModule);
       ("dueling", PBool (dueling h))]%string
      (if dueling h then [("to_values", PTensor2 (to_values h))]%string else []).

Definition QHeadMultipleActions_methods : list string :=
  ["get_q_values"; "get_random_actions"; "get_optimal_actions"; "forward"]%string.

(** The [device] property (lines 685-687). *)
Definition QHeadMultipleActions_device (h : QHeadMultipleActions) : result device :=
  bind (getattr_plain (QHeadMultipleActions_dict h) QHeadMultipleActions_methods
          "action_embeddings")
       device_of.

(** [device] is a property of the class, so it is tried first; when its
    getter raises [AttributeError], Python falls back on
    [nn.Module.__getattr__], which looks the name up among the parameters
    and submodules of the instance. *)
Definition QHeadMultipleActions_getattr (h : QHeadMultipleActions) (name : string)
    : result pyval :=
  if String.eqb name "device"
  then
    match QHeadMultipleActions_device h with
    | Ok d => Ok (PDevice d)
    | Raise AttributeError =>
        match assoc name (QHeadMultipleActions_dict h) with
        | Some v => Ok v
        | None => Raise AttributeError
        end
    | Raise e => Raise e
    end
  else getattr_plain (QHeadMultipleActions_dict h) QHeadMultipleActions_methods name.

Definition QHeadMultipleActions_get_random_actions (h : QHeadMultipleActions)
    (batch_size : nat) : result (list Z) :=
  bins <- bind (QHeadMultipleActions_getattr h "action_bins") as_int ;;
  n <- bind (QHeadMultipleActions_getattr h "num_actions") as_int ;;
  dev <- bind (QHeadMultipleActions_getattr h "device") as_device ;;
  Ok (randint 0 (Z.of_nat bins) [batch_size; n] dev).

(** [einsum('b n d, n a d -> b n a', embed, table)] *)
Definition einsum_bnd_nad (embed : list (list vec)) (table : list (list vec))
    : list (list vec) :=
  map (fun s => zip_with (fun e bins => map (fun ea => dot e ea) bins) s table) embed.

(** [einsum('b n d, n d -> b n', embed, w)] *)
Definition einsum_bnd_nd (embed : list (list vec)) (w : list vec) : list vec :=
  map (fun s => zip_with dot s w) embed.

Definition get_q_values (h : QHeadMultipleActions) (embed : list (list vec))
    : result (list (list vec)) :=
  let num_actions := length (hd [] embed) in
  let table := firstn num_actions (action_bin_embeddings h) in
  if negb (length table =? num_actions)%nat then Raise RuntimeError
  else
    if dueling h then
      let advantages := einsum_bnd_nad embed table in
      let w := firstn num_actions (to_values h) in
      if negb (length w =? num_actions)%nat then Raise RuntimeError
      else
        let values := einsum_bnd_nd embed w in
        let values := map (map (fun x => [x])) values in   (* 'b n -> b n 1' *)
        let q_values :=
          zip_with (zip_with (fun vrow arow =>
                      broadcast Rplus vrow
                        (broadcast Rminus arow (reduce_mean_keepdim arow))))
                   values advantages in
        Ok (map (map (map sigmoid)) q_values)
    else
      let q_values := einsum_bnd_nad embed table in
      Ok (map (map (map sigmoid)) q_values).

(** [reduce(encoded_state, 'b ... d -> b 1 d', 'mean')] *)
Definition sos_token (encoded_state : list (list vec)) : list (list vec) :=
  map (fun s => [reduce_mean_tokens s]) encoded_state.

(** [action_embeddings.gather(-2, past_action_bins)] on one batch element,
    followed by ['b n 1 d -> b n d']: row [n] of the result is the embedding
    of bin [idx[n]] of slot [n].  torch raises when the index has more slots
    than the table or a bin lies outside it. *)
Definition gather_bins (table : list (list vec)) (idx : list Z) : result (list vec) :=
  if (length idx <=? length table)%nat
     && forallb (fun p => (0 <=? snd p)%Z && (snd p <? Z.of_nat (length (fst p)))%Z)
                (combine table idx)
  then Ok (zip_with (fun bins a => nth (Z.to_nat a) bins []) table idx)
  else Raise RuntimeError.

Fixpoint sequence {A} (l : list (result A)) : result (list A) :=
  match l with
  | [] => Ok []
  | r :: t => x <- r ;; xs <- sequence t ;; Ok (x :: xs)
  end.

(** The tokens given to the transformer by [forward] (lines 759-774). *)
Definition forward_tokens (h : QHeadMultipleActions) (encoded_state : list (list vec))
    (actions : option (list (list Z))) : result (list (list vec)) :=
  let sos := sos_token encoded_state in
  match actions with
  | Some actions =>
      let num_actions := length (hd [] actions) in
      let action_embeddings := firstn num_actions (action_bin_embeddings h) in
      bin_embeddings <- sequence (map (gather_bins action_embeddings) actions) ;;
      if negb (length sos =? length bin_embeddings)%nat then Raise RuntimeError
      else
        let tokens := zip_with (fun s e => s ++ e) sos bin_embeddings in
        Ok (map (firstn (ma_num_actions h)) tokens)
  | None => Ok sos
  end.

Definition head_embed (h : QHeadMultipleActions) (tokens : list (list vec))
    : list (list vec) :=
  let embed := Transformer_forward (ma_transformer h) tokens None None in
  map (map (LayerNorm_forward (final_norm h))) embed.

Definition QHeadMultipleActions_forward (h : QHeadMultipleActions)
    (encoded_state : list (list vec)) (actions : option (list (list Z)))
    : result (list (list vec)) :=
  tokens <- forward_tokens h encoded_state actions ;;
  get_q_values h (head_embed h tokens).

(** The state of the decoding loop of [get_optimal_actions]. *)
Record decode_state := mkDecodeState {
  ds_action_bins : list (list nat);   (* one entry per decoded slot, each over the batch *)
  ds_head_inputs : list (list vec);
  ds_embed : list (list vec)
}.

(** [einsum('b d, a d -> b a', last_embed, bin_embeddings)] *)
Definition einsum_bd_ad (last_embed : list vec) (bin_embeddings : list vec) : list vec :=
  map (fun e => map (fun ea => dot e ea) bin_embeddings) last_embed.

(** One iteration of the loop body (lines 721-734). *)
Definition decode_step (h : QHeadMultipleActions) (st : decode_state)
    (action_idx : nat) : decode_state :=
  let embed := head_embed h (ds_head_inputs st) in
  let last_embed := map (fun s => nth action_idx s []) embed in
  let bin_embeddings := nth action_idx (action_bin_embeddings h) [] in
  let q_values := einsum_bd_ad last_embed bin_embeddings in
  let selected_action_bins := map argmax q_values in
  let next_action_embed := map (fun a => nth a bin_embeddings []) selected_action_bins in
  let head_inputs :=
    zip_with (fun s e => s ++ [e]) (ds_head_inputs st) next_action_embed in
  mkDecodeState (ds_action_bins st ++ [selected_action_bins]) head_inputs embed.

(** [torch.stack(cols, dim = -1)] of [b]-vectors; torch refuses an empty
    list of tensors. *)
Definition stack_last (cols : list (list nat)) : result (list (list nat)) :=
  match cols with
  | [] => Raise RuntimeError
  | col :: _ => Ok (map (fun bi => map (fun c => nth bi c O) cols) (seq 0 (length col)))
  end.

Definition decode_loop (h : QHeadMultipleActions) (encoded_state : list (list vec))
    : decode_state :=
  fold_left (decode_step h) (seq 0 (ma_num_actions h))
            (mkDecodeState [] (sos_token encoded_state) []).

Definition QHeadMultipleActions_get_optimal_actions (h : QHeadMultipleActions)
    (encoded_state : list (list vec)) (return_q_values : bool)
    : result (list (list nat) * option (list (list vec))) :=
  let st := decode_loop h encoded_state in
  action_bins <- stack_last (ds_action_bins st) ;;
  if return_q_values then
    all_q_values <- get_q_values h (ds_embed st) ;;
    Ok (action_bins, Some all_q_values)
  else Ok (action_bins, None).

(** ** [TokenLearner] (lines 529-563) *)

(** A feature map [h w] and an image [c h w]. *)
Abbreviation fmap := (list (list R)) (only parsing).
Abbreviation image := (list (list (list R))) (only parsing).

Definition unpack_one {A} (x : list A) (ps : list nat) : packed A := mkPacked ps x.

(** [nn.Conv2d(in_channels, out_channels, 1, groups = groups)] *)
Record Conv2d := mkConv2d {
  cv_in_channels : nat;
  cv_out_channels : nat;
  cv_groups : nat;
  cv_weight : list vec;      (* [out_channels] rows of [in_channels / groups] *)
  cv_bias : vec
}.

Definition height (x : image) : nat := length (hd [] x).
Definition width (x : image) : nat := length (hd [] (hd [] x)).

Definition pixel (x : image) (c y z : nat) : R := nth z (nth y (nth c x []) []) 0.

(** [pack([x], '* c h w')]: einops reshapes the tensor to [(-1, c, h, w)],
    which torch refuses with a [RuntimeError] when [c * h * w = 0], the
    size of the first axis being then undetermined.  The shape [c h w] is
    read off the first image; a tensor without images does not record it
    and is taken to have positive [c], [h] and [w]. *)
Definition pack_one (x : packed image) : result (list image * list nat) :=
  match items x with
  | [] => Ok ([], lead x)
  | img :: _ =>
      if (length img =? 0)%nat || (height img =? 0)%nat || (width img =? 0)%nat
      then Raise RuntimeError
      else Ok (items x, lead x)
  end.

Definition Conv2d_forward (cv : Conv2d) (x : image) : result image :=
  if negb (length x =? cv_in_channels cv)%nat then Raise RuntimeError
  else
    let cin := (cv_in_channels cv / cv_groups cv)%nat in
    let cout := (cv_out_channels cv / cv_groups cv)%nat in
    Ok (imap (fun o wrow =>
                let g := (o / cout)%nat in
                map (fun y =>
                       map (fun z =>
                              nth o (cv_bias cv) 0
                              + sum_n cin (fun c => nth c wrow 0 * pixel x (g * cin + c) y z))
                           (seq 0 (width x)))
                    (seq 0 (height x)))
             (cv_weight cv)).

Record TokenLearner := mkTokenLearner {
  tl_num_output_tokens : nat;
  tl_conv1 : Conv2d;
  tl_conv2 : Conv2d
}.

(** The constructor (lines 535-551), given the values of the parameters of
    the two convolutions. *)
Definition TokenLearner_init (dim ff_mult num_output_tokens : nat)
    (w1 : list vec) (b1 : vec) (w2 : list vec) (b2 : vec) : TokenLearner :=
  let inner_dim := (dim * ff_mult * num_output_tokens)%nat in
  mkTokenLearner num_output_tokens
    (mkConv2d (dim * num_output_tokens) inner_dim num_output_tokens w1 b1)
    (mkConv2d inner_dim num_output_tokens num_output_tokens w2 b2).

(** [repeat(x, 'b c h w -> b (g c) h w', g = g)] on one image. *)
Definition repeat_channels (g : nat) (x : image) : image := concat (repeat x g).

Definition TokenLearner_image (tl : TokenLearner) (x0 : image) : result (list vec) :=
  let g := tl_num_output_tokens tl in
  let x := repeat_channels g x0 in
  a1 <- Conv2d_forward (tl_conv1 tl) x ;;
  attn <- Conv2d_forward (tl_conv2 tl) (map (map (map GELU)) a1) ;;
  (* 'b (g c) h w -> b c g h w' needs the channels to split into [g] groups;
     the product with 'b 1 g h w' needs the [g] axes to agree *)
  if (g =? 0)%nat || negb (length x mod g =? 0)%nat || negb (length attn =? g)%nat
  then Raise RuntimeError
  else
    let c := (length x / g)%nat in
    let h := height x in
    let w := width x in
    Ok (map (fun ci =>
               map (fun gi =>
                      sum_n h (fun y => sum_n w (fun z =>
                        pixel x (gi * c + ci) y z * pixel attn gi y z))
                      / INR (h * w))
                   (seq 0 g))
            (seq 0 c)).

Definition TokenLearner_forward (tl : TokenLearner) (x : packed image)
    : result (packed (list vec)) :=
  p <- pack_one x ;;
  let '(x, ps) := p in
  x <- sequence (map (TokenLearner_image tl) x) ;;
  Ok (unpack_one x ps).

(** [action_bin_embeddings] is [num_actions action_bins dim] and, in a
    dueling head, [to_values] is [num_actions dim]. *)
Definition QHeadMultipleActions_wf_shapes (num_actions action_bins : nat)
    (dueling : bool) (embeddings : list (list vec)) (to_values : list vec) : Prop :=
  length embeddings = num_actions
  /\ Forall (fun slot => length slot = action_bins) embeddings
  /\ (dueling = true -> length to_values = num_actions).

Definition QHeadMultipleActions_wf (h : QHeadMultipleActions) : Prop :=
  QHeadMultipleActions_wf_shapes (ma_num_actions h) (ma_action_bins h) (dueling h)
    (action_bin_embeddings h) (to_values h).

(** ** Constructors of the Q heads

    The values of the learned parameters are arguments of the constructors;
    [nn.Parameter], [nn.Linear] and [nn.LayerNorm] fix their shapes, which the
    well-formedness predicates below record. *)

Record SingleParams := mkSingleParams {
  sp_dueling_head : DuelingHead;
  sp_norm : LayerNorm;
  sp_linear : Linear
}.

Definition QHeadSingleAction_init (num_learned_tokens action_bins : nat)
    (dueling : bool) (p : SingleParams) : QHeadSingleAction :=
  mkQHeadSingleAction action_bins num_learned_tokens
    (if dueling then NetDueling (sp_dueling_head p)
     else NetPlain (sp_norm p) (sp_linear p)).

Record MultiParams := mkMultiParams {
  mp_action_bin_embeddings : list (list vec);
  mp_transformer : list (TransformerAttention * FeedForward);
  mp_final_norm : LayerNorm;
  mp_to_values : list vec
}.

(** [num_actions] defaults to 8 (line 657); the transformer of the head
    is built with [causal = True] (lines 671-677). *)
Definition QHeadMultipleActions_init (num_actions : option nat) (action_bins : nat)
    (dueling : bool) (p : MultiParams) : QHeadMultipleActions :=
  mkQHeadMultipleActions (default num_actions 8%nat) action_bins
    (mp_action_bin_embeddings p) (Transformer_init true (mp_transformer p))
    (mp_final_norm p) dueling (mp_to_values p).

(** The shapes the constructor gives to the parameters it creates. *)
Definition MultiParams_wf (num_actions : option nat) (action_bins : nat)
    (dueling : bool) (p : MultiParams) : Prop :=
  QHeadMultipleActions_wf_shapes (default num_actions 8%nat) action_bins dueling
    (mp_action_bin_embeddings p) (mp_to_values p)
  /\ Forall (fun l => TransformerAttention_wf (fst l)) (mp_transformer p).

(** A linear layer with [out] output features. *)
Definition Linear_wf (out : nat) (l : Linear) : Prop := length (weight l) = out.

Definition DuelingHead_wf (action_bins : nat) (h : DuelingHead) : Prop :=
  Linear_wf 1 (dh_to_values h) /\ Linear_wf action_bins (dh_to_advantages h).

Definition QHeadSingleAction_wf (h : QHeadSingleAction) : Prop :=
  match sa_to_q_values h with
  | NetDueling dh => DuelingHead_wf (sa_action_bins h) dh
  | NetPlain _ lin => Linear_wf (sa_action_bins h) lin
  end.


(** ** [QRoboticTransformer] (lines 783-1004) *)

Inductive QHead :=
| SingleHead (h : QHeadSingleAction)
| MultiHead (h : QHeadMultipleActions).

(** The Q-values returned by a head: [b a] from the single-action head,
    [b n a] from the multi-action head. *)
Inductive q_tensor :=
| Q2 (t : list vec)
| Q3 (t : list (list vec)).

(** [has_shape q dims]: the tensor has exactly the axes [dims]. *)
Definition has_shape (q : q_tensor) (dims : list nat) : Prop :=
  match q, dims with
  | Q2 t, [b; a] => length t = b /\ Forall (fun row => length row = a) t
  | Q3 t, [b; n; a] =>
      length t = b
      /\ Forall (fun s => length s = n /\ Forall (fun row => length row = a) s) t
  | _, _ => False
  end.

Definition entries (q : q_tensor) : list R :=
  match q with
  | Q2 t => concat t
  | Q3 t => concat (concat t)
  end.

(** [encode_state] (lines 911-976) runs the vision transformer, the external
    text conditioner, the token learner and the temporal transformer; it is
    kept as a field: its result is the [b (f n) d] tensor of attended tokens,
    or an exception.  The tensors of this file hold real numbers: [Ok st]
    stands for a call that returns the tensor [st] of finite entries.  A
    call that returns nan entries without raising, as happens when
    [posemb_sincos_1d] divides by [dim // 2 - 1 = 0], has no counterpart
    here, and no statement below speaks of such a call. *)
Record QRoboticTransformer (Video Texts : Type) := mkQRoboticTransformer {
  encode_state :
    Video -> option Texts -> option (list (list Z)) -> R -> result (list (list vec));
  num_actions : nat;
  is_single_action : bool;
  action_bins : nat;
  q_head : QHead
}.

#[global] Arguments mkQRoboticTransformer {Video Texts} encode_state num_actions
  is_single_action action_bins q_head.
#[global] Arguments encode_state {Video Texts} q.
#[global] Arguments num_actions {Video Texts} q.
#[global] Arguments is_single_action {Video Texts} q.
#[global] Arguments action_bins {Video Texts} q.
#[global] Arguments q_head {Video Texts} q.

(** The constructor (lines 786-877); [kw_num_actions] is the [num_actions]
    entry of [q_head_attn_kwargs], absent from its default value. *)
Definition QRoboticTransformer_init {Video Texts : Type}
    (enc : Video -> option Texts -> option (list (list Z)) -> R -> result (list (list vec)))
    (num_actions action_bins num_learned_tokens : nat) (dueling : bool)
    (kw_num_actions : option nat) (sp : SingleParams) (mp : MultiParams)
    : result (QRoboticTransformer Video Texts) :=
  if negb (1 <=? num_actions)%nat then Raise AssertionError
  else
    let is_single_action := (num_actions =? 1)%nat in
    Ok (mkQRoboticTransformer enc num_actions is_single_action action_bins
          (if is_single_action
           then SingleHead (QHeadSingleAction_init num_learned_tokens action_bins dueling sp)
           else MultiHead (QHeadMultipleActions_init kw_num_actions action_bins dueling mp))).

(** [self.q_head(encoded_state)] and [self.q_head(encoded_state, actions = actions)];
    [actions_kw] is [None] when the keyword is not passed. *)
Definition QHead_call (h : QHead) (encoded_state : list (list vec))
    (actions_kw : option (option (list (list Z)))) : result q_tensor :=
  match h with
  | SingleHead sh =>
      match actions_kw with
      | None => q <- QHeadSingleAction_forward sh encoded_state ;; Ok (Q2 q)
      | Some _ => Raise TypeError
      end
  | MultiHead mh =>
      q <- QHeadMultipleActions_forward mh encoded_state (default actions_kw None) ;;
      Ok (Q3 q)
  end.

(** [forward] (lines 978-1004); the [classifier_free_guidance] decorator calls
    it as it is when no guidance scale is given. *)
Definition QRoboticTransformer_forward {Video Texts : Type}
    (m : QRoboticTransformer Video Texts) (video : Video)
    (texts : option Texts) (actions : option (list (list Z))) (cond_drop_prob : R)
    : result q_tensor :=
  encoded_state <- encode_state m video texts actions cond_drop_prob ;;
  if is_single_action m then
    if exists_ actions then Raise AssertionError
    else QHead_call (q_head m) encoded_state None
  else QHead_call (q_head m) encoded_state (Some actions).

Inductive action_tensor :=
| ActRandom (t : list Z)
| ActSingle (t : list nat) (q : option (list R))
| ActMulti (t : list (list nat)) (q : option (list (list vec))).

Definition QHead_get_random_actions (h : QHead) (batch_size : nat) : result (list Z) :=
  match h with
  | SingleHead sh => QHeadSingleAction_get_random_actions sh batch_size
  | MultiHead mh => QHeadMultipleActions_get_random_actions mh batch_size
  end.

Definition QHead_get_optimal_actions (h : QHead) (encoded_state : list (list vec))
    (return_q_values : bool) : result action_tensor :=
  match h with
  | SingleHead sh =>
      r <- QHeadSingleAction_get_optimal_actions sh encoded_state return_q_values ;;
      Ok (ActSingle (fst r) (snd r))
  | MultiHead mh =>
      r <- QHeadMultipleActions_get_optimal_actions mh encoded_state return_q_values ;;
      Ok (ActMulti (fst r) (snd r))
  end.

Definition QRoboticTransformer_get_random_actions {Video Texts : Type}
    (m : QRoboticTransformer Video Texts)
    (batch_size : nat) : result action_tensor :=
  t <- QHead_get_random_actions (q_head m) batch_size ;; Ok (ActRandom t).

Definition QRoboticTransformer_get_optimal_actions {Video Texts : Type}
    (m : QRoboticTransformer Video Texts)
    (video : Video) (texts : option Texts) (actions : option (list (list Z)))
    (cond_drop_prob : R) (return_q_values : bool) : result action_tensor :=
  encoded_state <- encode_state m video texts actions cond_drop_prob ;;
  QHead_get_optimal_actions (q_head m) encoded_state return_q_values.

(** [get_actions] (lines 896-909); [u] is the value drawn by [random()] and
    [video_batch] reads [video.shape[0]].  The keyword arguments other than
    [prob_random_action] are handed on to [get_optimal_actions], which
    reads [return_q_values] ([False] when absent) from them and hands the
    rest to [encode_state]. *)
Definition get_actions {Video Texts : Type} (video_batch : Video -> nat)
    (m : QRoboticTransformer Video Texts) (u : R) (video : Video)
    (texts : option Texts) (actions : option (list (list Z))) (cond_drop_prob : R)
    (return_q_values : bool) (prob_random_action : R) : result action_tensor :=
  let batch_size := video_batch video in
  if Rle_dec 0 prob_random_action then
    if Rle_dec prob_random_action 1 then
      if Rlt_dec u prob_random_action
      then QRoboticTransformer_get_random_actions m batch_size
      else QRoboticTransformer_get_optimal_actions m video texts actions
             cond_drop_prob return_q_values
    else Raise AssertionError
  else Raise AssertionError.

(** ** Definitions that follow the wording of the specification *)

(** The dueling Q-values of one row: sigmoid of
    [value + (advantage - mean(advantage))], the mean taken over the
    action-bin axis. *)
Definition dueling_q (value : R) (advantage : vec) : vec :=
  map (fun a => sigmoid (value + (a - mean advantage))) advantage.

(** The bin embedding of the action chosen for slot [i]. *)
Definition action_embedding (h : QHeadMultipleActions) (i : nat) (a : Z) : vec :=
  nth (Z.to_nat a) (nth i (action_bin_embeddings h) []) [].

(** Teacher forcing: the pooled state token followed by the embeddings of
    the first [n] actions of a row. *)
Definition teacher_tokens (h : QHeadMultipleActions) (s : list vec) (row : list Z)
    (n : nat) : list vec :=
  reduce_mean_tokens s :: map (fun i => action_embedding h i (nth i row 0%Z)) (seq 0 n).

(** The running input of greedy decoding before slot [k], from the columns
    of bins selected so far: for batch element [bi], the pooled state token
    followed by the embeddings of the bins selected for the slots [< k]. *)
Definition inputs_of_cols (h : QHeadMultipleActions) (encoded_state : list (list vec))
    (cols : list (list nat)) (k : nat) : list (list vec) :=
  imap (fun bi s =>
          reduce_mean_tokens s
          :: map (fun j => nth (nth bi (nth j cols []) O)
                               (nth j (action_bin_embeddings h) []) [])
                 (seq 0 k))
       encoded_state.

(** The per-bin scores of slot [i]: the embedding the transformer produces
    at position [i] of the sequence, against the bin table of the slot. *)
Definition slot_scores (h : QHeadMultipleActions) (tokens : list (list vec)) (i : nat)
    : list vec :=
  einsum_bd_ad (map (fun s => nth i s []) (head_embed h tokens))
               (nth i (action_bin_embeddings h) []).

(** The Q-values of slot [i] from its embedding [e]: the sigmoid of the
    scores against the bin table of the slot, after the dueling combination
    when the head is dueling. *)
Definition q_row (h : QHeadMultipleActions) (i : nat) (e : vec) : vec :=
  let scores := map (fun ea => dot e ea) (nth i (action_bin_embeddings h) []) in
  if dueling h
  then dueling_q (dot e (nth i (to_values h) [])) scores
  else map sigmoid scores.

(** The supplied bins index the tables of their slots. *)
Definition actions_in_range (h : QHeadMultipleActions) (actions : list (list Z)) : Prop :=
  Forall (Forall (fun a => (0 <= a < Z.of_nat (ma_action_bins h))%Z)) actions.

(** ** Concrete instances, for the examples of Part III *)

(** A dueling head with two inputs and three bins. *)
Definition ex_dueling_head : DuelingHead :=
  mkDuelingHead
    (mkLinear [[1; 0]; [0; 1]] (Some [0; 0]))
    (mkLinear [[1; 1]] (Some [0]))
    (mkLinear [[1; 0]; [0; 1]; [1; 1]] (Some [0; 0; 0])).

(** The parameters of one attention layer with one head of dimension two
    and one memory token, and of its feed-forward block; the constructor of
    the transformer sets the causal flag. *)
Definition ex_attention : TransformerAttention :=
  mkTransformerAttention 1 2 1 (mkLayerNorm None)
    (mkLinear [[1; 0]; [0; 1]] None)
    (mkLinear [[1; 0]; [0; 1]; [1; 1]; [1; -1]] None)
    (Some ([[[0; 0]]], [[[1; 1]]]))
    false
    (mkLinear [[1; 0]; [0; 1]] None).

Definition ex_feed_forward : FeedForward :=
  mkFeedForward (mkLayerNorm None)
    (mkLinear [[1; 0]; [0; 1]] (Some [0; 0]))
    (mkLinear [[1; 0]; [0; 1]] (Some [0; 0])).

(** Parameters of a multi-action head with two slots, three bins and
    embedding dimension two. *)
Definition ex_multi_params : MultiParams :=
  mkMultiParams
    [[[1; 0]; [0; 1]; [1; 1]]; [[0; 1]; [1; 0]; [1; -1]]]
    [(ex_attention, ex_feed_forward)]
    (mkLayerNorm (Some ([1; 1], [0; 0])))
    [[1; 0]; [0; 1]].

Definition ex_single_params : SingleParams :=
  mkSingleParams ex_dueling_head (mkLayerNorm (Some ([1; 1], [0; 0])))
    (mkLinear [[1; 0]; [0; 1]; [1; 1]] (Some [0; 0; 0])).

Definition ex_head : QHeadMultipleActions :=
  QHeadMultipleActions_init (Some 2%nat) 3 true ex_multi_params.

(** An encoded state: one batch element, two tokens of dimension two. *)
Definition ex_state : list (list vec) := [[[1; 2]; [3; 4]]].

Definition ex_enc (_ : unit) (_ : option unit) (_ : option (list (list Z))) (_ : R)
    : result (list (list vec)) :=
  Ok ex_state.

(** A model for two actions, its head built for two slots, and a model for
    a single action. *)
Definition ex_model : QRoboticTransformer unit unit :=
  mkQRoboticTransformer ex_enc 2 false 3 (MultiHead ex_head).

Definition ex_single_model : QRoboticTransformer unit unit :=
  mkQRoboticTransformer ex_enc 1 true 3
    (SingleHead (QHeadSingleAction_init 1 3 false ex_single_params)).

(** An [encode_state] that raises, as the real one does on a video it
    cannot encode, and a single-action model built on it. *)
Definition ex_failing_enc (_ : unit) (_ : option unit) (_ : option (list (list Z)))
    (_ : R) : result (list (list vec)) :=
  Raise RuntimeError.

Definition ex_failing_single_model : QRoboticTransformer unit unit :=
  mkQRoboticTransformer ex_failing_enc 1 true 3
    (SingleHead (QHeadSingleAction_init 1 3 false ex_single_params)).

(** A token learner for one channel and two output tokens; a feature map
    with one channel, two rows and three columns, and one with two rows of
    width zero. *)
Definition ex_token_learner : TokenLearner :=
  TokenLearner_init 1 1 2 [[1]; [2]] [0; 0] [[1]; [1]] [0; 0].

Definition ex_frames : packed (list (list vec)) :=
  mkPacked [1; 1]%nat [[[[1; 2; 3]; [4; 5; 6]]]].

Definition ex_empty_frames : packed (list (list vec)) :=
  mkPacked [1; 1]%nat [[[[]; []]]].

(** Some of the names [torch.nn.Module] provides. *)
Definition ex_module_attrs : list string :=
  ["training"; "parameters"; "named_parameters"; "to"; "cpu"; "cuda";
   "eval"; "train"; "state_dict"]%string.

(* ================================================================= *)
(** * Part I, continued: the rest of the module *)
(* ================================================================= *)

(** ** Windowed [Attention]: [forward] (lines 233-289), in evaluation mode
    ([nn.Dropout] is the identity) *)

Record Attention := mkAttention {
  at_heads : nat;
  at_dim_head : nat;
  at_window_size : nat;
  at_norm : LayerNorm;
  at_to_qkv : Linear;                            (* [bias = False] *)
  at_mem_kv : list (list vec) * list (list vec); (* [2 h n d], keys and values *)
  at_to_out : Linear;                            (* [bias = False] *)
  at_rel_pos_bias : list vec                     (* [(2 w - 1)^2] rows of [heads] *)
}.

(** [self.rel_pos_bias(self.rel_pos_indices)], [i j h], followed by
    [F.pad(bias, (0, 0, num_mem, 0), value = 0.)]: [num_mem] zero entries in
    front of the [j] axis. *)
Definition Attention_bias (a : Attention) (num_mem : nat) : list (list vec) :=
  map (fun row =>
         repeat (repeat 0 (at_heads a)) num_mem
         ++ map (fun idx => nth (Z.to_nat idx) (at_rel_pos_bias a) []) row)
      (rel_pos_indices (at_window_size a)).

(** [t.chunk(3, dim = -1)] *)
Definition chunk3 (t : vec) : vec * vec * vec :=
  let c := ((length t + 2) / 3)%nat in
  (firstn c t, firstn c (skipn c t), skipn (2 * c) t).

(** [nn.Softmax(dim = -1)] on one row. *)
Definition softmax (row : vec) : vec :=
  map (fun s => exp s / rsum (map exp row)) row.

(** The size of an axis after torch broadcasting of the sizes [a] and [b]:
    they are equal, or one of them is 1. *)
Definition broadcast_size (a b : nat) : option nat :=
  if (a =? b)%nat then Some a
  else if (a =? 1)%nat then Some b
  else if (b =? 1)%nat then Some a
  else None.

(** The index read on an axis of size [len] that may have been broadcast. *)
Definition broadcast_index (len i : nat) : nat :=
  if (len =? 1)%nat then 0%nat else i.

(** The sizes of the [j] axis of [sim + bias] and of the axis contracted by
    the second [einsum], for windows of [n] tokens, [num_mem] memory tokens
    and a bias of [w2] rows: [sim] is [h n (num_mem + n)] and the bias
    [h w2 (num_mem + w2)]; [einsum] broadcasts axes of size 1 as well; the
    last [rearrange] needs [n] rows again.  Every failure is a
    [RuntimeError] ([EinopsError] is one). *)
Definition Attention_sizes (n num_mem w2 : nat) : option (nat * nat) :=
  match broadcast_size n w2, broadcast_size (num_mem + n) (num_mem + w2) with
  | Some ni, Some nj =>
      match broadcast_size nj (num_mem + n) with
      | Some nc => if (ni =? n)%nat then Some (nj, nc) else None
      | None => None
      end
  | _, _ => None
  end.

(** One window: [x] holds the [w1 w2] tokens of the window in row-major
    order. *)
Definition Attention_window (a : Attention) (x : list vec) : result (list vec) :=
  let h := at_heads a in
  let x := map (LayerNorm_forward (at_norm a)) x in
  let n := length x in
  let qkv := map (fun t => chunk3 (Linear_forward (at_to_qkv a) t)) x in
  let q := split_heads h (map (fun t => fst (fst t)) qkv) in
  let k := split_heads h (map (fun t => snd (fst t)) qkv) in
  let v := split_heads h (map snd qkv) in
  let scale := / sqrt (INR (at_dim_head a)) in
  let q := map (map (map (fun c => c * scale))) q in
  let num_mem := length (hd [] (fst (at_mem_kv a))) in
  let k := cat_mem (fst (at_mem_kv a)) k in
  let v := cat_mem (snd (at_mem_kv a)) v in
  let nk := (num_mem + n)%nat in
  let bias := Attention_bias a num_mem in
  let w2 := length bias in
  match Attention_sizes n num_mem w2 with
  | None => Raise RuntimeError
  | Some (nj, nc) =>
    let out :=
      map (fun hi =>
             let qh := nth hi q [] in
             let kh := nth hi k [] in
             let vh := nth hi v [] in
             imap (fun i qi =>
                     let sim :=
                       map (fun j =>
                              dot qi (nth (broadcast_index nk j) kh [])
                              + nth hi (nth (broadcast_index (num_mem + w2) j)
                                            (nth (broadcast_index w2 i) bias []) []) 0)
                           (seq 0 nj) in
                     let attn := softmax sim in
                     map (fun c => sum_n nc
                                     (fun j => nth (broadcast_index nj j) attn 0
                                               * nth c (nth (broadcast_index nk j) vh []) 0))
                         (seq 0 (length qi)))
                  qh)
          (seq 0 h) in
    let out := merge_heads n out in
    Ok (map (Linear_forward (at_to_out a)) out)
  end.

(** [forward] on the windows of a tensor [b x y w1 w2 d], flattened to
    ['(b x y) (w1 w2) d'] and back.  A list of windows does not record the
    window size of a tensor without windows. *)
Definition Attention_forward (a : Attention) (x : packed (list vec))
    : result (packed (list vec)) :=
  out <- sequence (map (Attention_window a) (items x)) ;;
  Ok (mkPacked (lead x) out).

(** ** [posemb_sincos_1d] (lines 63-70) *)

(** [temperature ** omega] is [Rpower temperature omega]; [dim // 2 - 1] is
    an integer, possibly [-1]. *)
Definition posemb_sincos_1d (seq_len dim : nat) (temperature : R) : list vec :=
  let n := map INR (seq 0 seq_len) in
  let half := (dim / 2)%nat in
  let omega := map (fun i => INR i / (INR half - 1)) (seq 0 half) in
  let omega := map (fun o => 1 / Rpower temperature o) omega in
  map (fun ni => map (fun o => sin (ni * o)) omega ++ map (fun o => cos (ni * o)) omega) n.

(** ** [ChanLayerNorm] (lines 49-59), on one image [c h w] *)

(** [eps] is [1e-5] unless the caller gives another value.  With a
    positive [eps] the clamped variance is never zero.  With [eps <= 0]
    torch returns inf or nan where the variance is zero, which the reals do
    not hold: the values of the output are then stated for a positive [eps]
    only. *)
Record ChanLayerNorm := mkChanLayerNorm {
  cln_eps : R;
  cln_gamma : vec;     (* [dim 1 1] *)
  cln_beta : vec       (* [dim 1 1] *)
}.

(** The image is [c h w] with every channel of height [h] and width [w]. *)
Definition image_shape (x : list (list vec)) (h w : nat) : Prop :=
  Forall (fun ch => length ch = h /\ Forall (fun row => length row = w) ch) x.

(** The values of all channels at one pixel. *)
Definition channel_vector (x : list (list vec)) (y z : nat) : vec :=
  map (fun ch => nth z (nth y ch []) 0) x.

(** One channel of the output: the channel [ix] of [x] normalised at
    every pixel with [var.clamp(min = eps).rsqrt()], the biased variance
    and the mean being taken over the channels, then scaled by the entry
    [ig] of [gamma] and shifted by the entry [ib] of [beta]. *)
Definition ChanLayerNorm_channel (n : ChanLayerNorm) (x : list (list vec))
    (ix ig ib : nat) : list vec :=
  imap (fun y row =>
          imap (fun z v =>
                  let col := channel_vector x y z in
                  let var := variance col in
                  let mu := mean col in
                  (v - mu) * / sqrt (Rmax var (cln_eps n)) * nth ig (cln_gamma n) 0
                  + nth ib (cln_beta n) 0)
               row)
       (nth ix x []).

(** The product with [gamma] and the sum with [beta], both [dim 1 1],
    broadcast over the channel axis. *)
Definition ChanLayerNorm_forward (n : ChanLayerNorm) (x : list (list vec))
    : result (list (list vec)) :=
  let c := length x in
  match broadcast_size c (length (cln_gamma n)) with
  | None => Raise RuntimeError
  | Some c1 =>
      match broadcast_size c1 (length (cln_beta n)) with
      | None => Raise RuntimeError
      | Some c2 =>
          Ok (map (fun o =>
                     let o1 := broadcast_index c1 o in
                     ChanLayerNorm_channel n x
                       (broadcast_index c o1)
                       (broadcast_index (length (cln_gamma n)) o1)
                       (broadcast_index (length (cln_beta n)) o))
                  (seq 0 c2))
      end
  end.

(** ** [SqueezeExcitation] (lines 108-123), on one image [c h w] *)





(** ** [MaxViT.__init__]: the stages (lines 319-369) and [MBConv] (lines 151-185) *)

(** The hyperparameters [MaxViT] passes to [MBConv] for one block. *)
Record block_cfg := mkBlock {
  blk_dim_in : nat;
  blk_dim_out : nat;
  blk_downsample : bool
}.

(** [dims = (dim_conv_stem, dim, 2 * dim, 4 * dim, ...)] *)
Definition MaxViT_dims (dim : nat) (dim_conv_stem : option nat) (depth : list nat)
    : list nat :=
  let dim_conv_stem := default dim_conv_stem dim in
  let num_stages := length depth in
  dim_conv_stem :: map (fun i => (2 ^ i * dim)%nat) (seq 0 num_stages).

(** [zip(dims[:-1], dims[1:])] *)
Definition dim_pairs (dims : list nat) : list (nat * nat) :=
  combine (removelast dims) (tl dims).

(** The blocks appended by the two nested loops. *)
Definition stage_blocks (stage : nat * nat * nat) : list block_cfg :=
  let '((layer_dim_in, layer_dim), layer_depth) := stage in
  map (fun stage_ind =>
         let is_first := (stage_ind =? 0)%nat in
         let stage_dim_in := if is_first then layer_dim_in else layer_dim in
         mkBlock stage_dim_in layer_dim is_first)
      (seq 0 layer_depth).

Definition MaxViT_blocks (dim : nat) (dim_conv_stem : option nat) (depth : list nat)
    : list block_cfg :=
  flat_map stage_blocks (combine (dim_pairs (MaxViT_dims dim dim_conv_stem depth)) depth).

Definition cond_hidden_dims (dim : nat) (dim_conv_stem : option nat) (depth : list nat)
    : list nat :=
  map blk_dim_in (MaxViT_blocks dim dim_conv_stem depth).

(** [embed_dim = dims[-1]] *)
Definition embed_dim (dim : nat) (dim_conv_stem : option nat) (depth : list nat) : nat :=
  last (MaxViT_dims dim dim_conv_stem depth) O.

(** [MBConv] wraps its network in [MBConvResidual] when
    [dim_in == dim_out and not downsample], and strides by 2 when
    [downsample]. *)
Definition MBConv_is_residual (b : block_cfg) : bool :=
  (blk_dim_in b =? blk_dim_out b)%nat && negb (blk_downsample b).

Definition MBConv_stride (b : block_cfg) : nat :=
  if blk_downsample b then 2%nat else 1%nat.

(** The channels of the feature map after a sequence of blocks fed with
    [c] channels; the first convolution of a block raises when its input
    does not have [dim_in] channels. *)
Fixpoint channels_through (c : nat) (blocks : list block_cfg) : result nat :=
  match blocks with
  | [] => Ok c
  | b :: rest =>
      if (blk_dim_in b =? c)%nat then channels_through (blk_dim_out b) rest
      else Raise RuntimeError
  end.

(** ** [MaxViT.forward] (lines 380-403), over its stem, stages and head *)

Fixpoint MaxViT_stages {T} (layers : list (T -> T)) (x : T) (cond_fns : list (T -> T)) : T :=
  match layers with
  | [] => x
  | stage :: rest =>
      let (c, cond_fns) := next cond_fns in
      let x := match c with Some f => f x | None => x end in
      MaxViT_stages rest (stage x) cond_fns
  end.

Definition MaxViT_forward {T U} (conv_stem : T -> T) (layers : list (T -> T))
    (mlp_head : T -> U) (x : T) (cond_fns : option (list (T -> T)))
    (return_embeddings : bool) : T + U :=
  let x := conv_stem x in
  let x := MaxViT_stages layers x (default cond_fns []) in
  if return_embeddings then inl x else inr (mlp_head x).

(** ** The conditioning functions, position by position *)

(** The conditioning function at position [k] of the tuple applied to [x];
    [x] itself when the tuple is shorter. *)
Definition cond_at {A} (cs : list (A -> A)) (k : nat) (x : A) : A :=
  match nth_error cs k with
  | Some f => f x
  | None => x
  end.

(** Layer [k] of a transformer with its conditioning written out: function
    [2 k] of the tuple acts on the normalised input of the attention,
    function [2 k + 1] on the normalised input of the feed-forward block,
    and both blocks are residual. *)
Definition conditioned_layer (cs : list cond_fn) (mask : option (list (list bool)))
    (k : nat) (l : TransformerAttention * FeedForward) (x : list (list vec))
    : list (list vec) :=
  let xa := cond_at cs (2 * k) (map (map (LayerNorm_forward (ta_norm (fst l)))) x) in
  let x := add3 (zip_with (TransformerAttention_sample (fst l) mask) xa x) x in
  let xf := cond_at cs (2 * k + 1) (map (map (LayerNorm_forward (ff_norm (snd l)))) x) in
  add3 (map (map (FeedForward_net (snd l))) xf) x.

(** Stage [k] of the vision transformer: function [k] of the tuple acts on
    the input of the stage. *)
Definition conditioned_stage {T} (cs : list (T -> T)) (k : nat) (stage : T -> T) (x : T) : T :=
  stage (cond_at cs k x).

(** [enumerate(layers)] *)
Definition enumerate {A} (l : list A) : list (nat * A) := combine (seq 0 (length l)) l.

(** ** The window partitions of the stages of [MaxViT] (lines 353-361), on
    one image [d h w] *)

(** [Rearrange('b d (x w1) (y w2) -> b x y w1 w2 d', w1 = w, w2 = w)], the
    block-like partition, for a positive [w]: window [(x, y)] holds the
    pixels of one [w] by [w] patch.  einops raises when the height or the
    width is not a multiple of [w]. *)
Definition block_windows (w : nat) (img : list (list vec))
    : result (list (list (list (list vec)))) :=
  let h := height img in
  let wd := width img in
  if negb ((h mod w =? 0)%nat && (wd mod w =? 0)%nat) then Raise RuntimeError
  else
    Ok (map (fun x =>
          map (fun y =>
            map (fun w1 =>
              map (fun w2 => channel_vector img (x * w + w1) (y * w + w2)) (seq 0 w))
              (seq 0 w))
            (seq 0 (wd / w)))
          (seq 0 (h / w))).

(** [Rearrange('b d (w1 x) (w2 y) -> b x y w1 w2 d', w1 = w, w2 = w)], the
    grid-like partition: window [(x, y)] holds the pixels whose row is [x]
    and whose column is [y] modulo the numbers of windows. *)
Definition grid_windows (w : nat) (img : list (list vec))
    : result (list (list (list (list vec)))) :=
  let h := height img in
  let wd := width img in
  if negb ((h mod w =? 0)%nat && (wd mod w =? 0)%nat) then Raise RuntimeError
  else
    let nx := (h / w)%nat in
    let ny := (wd / w)%nat in
    Ok (map (fun x =>
          map (fun y =>
            map (fun w1 =>
              map (fun w2 => channel_vector img (w1 * nx + x) (w2 * ny + y)) (seq 0 w))
              (seq 0 w))
            (seq 0 ny))
          (seq 0 nx)).

(** The axes [x y w1 w2 d] of a tensor of windows. *)
Definition windows_axes (t : list (list (list (list vec)))) : nat * nat * nat * nat * nat :=
  (length t, length (hd [] t), length (hd [] (hd [] t)),
   length (hd [] (hd [] (hd [] t))), length (hd [] (hd [] (hd [] (hd [] t))))).

(** [Rearrange('b x y w1 w2 d -> b d (x w1) (y w2)')] *)
Definition block_image (t : list (list (list (list vec)))) : list (list vec) :=
  let '(nx, ny, w1, w2, d) := windows_axes t in
  map (fun c =>
    map (fun r =>
      map (fun col =>
             nth c (nth (col mod w2) (nth (r mod w1)
                     (nth (col / w2) (nth (r / w1) t []) []) []) []) 0)
          (seq 0 (ny * w2)))
      (seq 0 (nx * w1)))
    (seq 0 d).

(** [Rearrange('b x y w1 w2 d -> b d (w1 x) (w2 y)')] *)
Definition grid_image (t : list (list (list (list vec)))) : list (list vec) :=
  let '(nx, ny, w1, w2, d) := windows_axes t in
  map (fun c =>
    map (fun r =>
      map (fun col =>
             nth c (nth (col / ny) (nth (r / nx)
                     (nth (col mod ny) (nth (r mod nx) t []) []) []) []) 0)
          (seq 0 (w2 * ny)))
      (seq 0 (w1 * nx)))
    (seq 0 d).

(** [rearrange(x, 'b x y w1 w2 d -> (b x y) (w1 w2) d')], the first step of
    [Attention.forward] (line 240), on the windows of one image. *)
Definition flatten_windows (t : list (list (list (list vec)))) : packed (list vec) :=
  mkPacked [length t; length (hd [] t)] (concat (map (map (@concat (list R))) t)).

(** ** [encode_state]: the split of the conditioning functions (line 942) *)

(** [l[:-k]] and [l[-k:]] for a count [k]; Python reads [-0] as [0], so for
    [k = 0] they are [l[:0]] and [l[0:]]. *)
Definition slice_upto_neg {A} (k : nat) (l : list A) : list A :=
  if (k =? 0)%nat then [] else firstn (length l - k) l.

Definition slice_from_neg {A} (k : nat) (l : list A) : list A :=
  if (k =? 0)%nat then l else skipn (length l - k) l.

(** [vit_cond_fns, transformer_cond_fns =
     cond_fns[:-(depth * 2)], cond_fns[-(depth * 2):]] *)
Definition split_cond_fns {A} (depth : nat) (cond_fns : list A) : list A * list A :=
  (slice_upto_neg (depth * 2) cond_fns, slice_from_neg (depth * 2) cond_fns).


(** ** [encode_state]: the positional embedding of the learned tokens
    (lines 968-970) *)

(** [repeat(pos_emb, 'n d -> (n r) d', r = r)] *)
Definition repeat_rows (r : nat) (t : list vec) : list vec :=
  flat_map (fun row => repeat row r) t.

(** [learned_tokens + repeat(pos_emb, ...)] on tokens [b t c], with
    [pos_emb = posemb_sincos_1d(frames, c)]: the embedding is
    [(frames r) (2 (c // 2))], and the sum broadcasts the token axis and the
    last axis. *)
Definition add_pos_emb (frames r c : nat) (learned_tokens : list (list vec))
    : result (list (list vec)) :=
  let pos_emb := repeat_rows r (posemb_sincos_1d frames c 10000) in
  let np := (frames * r)%nat in
  let cp := (2 * (c / 2))%nat in
  sequence
    (map (fun toks =>
            let nt := length toks in
            match broadcast_size nt np, broadcast_size c cp with
            | Some n, Some d =>
                Ok (map (fun p =>
                           map (fun k =>
                                  nth (broadcast_index c k)
                                      (nth (broadcast_index nt p) toks []) 0
                                  + nth (broadcast_index cp k)
                                        (nth (broadcast_index np p) pos_emb []) 0)
                               (seq 0 d))
                        (seq 0 n))
            | _, _ => Raise RuntimeError
            end)
         learned_tokens).

(** ** The embedding dimension of parameters and tokens

    The constructors build every layer for one embedding dimension, and a
    layer fed with vectors of another length raises in torch.  The
    predicates below record the shapes of the parameters that depend on
    it. *)

(** [nn.Linear(i, o)] *)
Definition Linear_dims (i o : nat) (l : Linear) : Prop :=
  length (weight l) = o
  /\ Forall (fun row => length row = i) (weight l)
  /\ match bias l with Some b => length b = o | None => True end.

(** [nn.LayerNorm(d)] *)
Definition LayerNorm_dims (d : nat) (ln : LayerNorm) : Prop :=
  match ln_affine ln with
  | Some (g, b) => length g = d /\ length b = d
  | None => True
  end.

(** A tensor [b n d]. *)
Definition tokens_dim (d : nat) (x : list (list vec)) : Prop :=
  Forall (Forall (fun tok => length tok = d)) x.

(** A tensor [a b c]. *)
Definition tensor3_shape (a b c : nat) (t : list (list vec)) : Prop :=
  length t = a
  /\ Forall (fun m => length m = b /\ Forall (fun row => length row = c) m) t.

(** [FeedForward(dim)] (lines 84-96); [inner_dim] is read off the first
    layer. *)
Definition FeedForward_dims (d : nat) (ff : FeedForward) : Prop :=
  let inner := length (weight (ff_lin1 ff)) in
  ln_affine (ff_norm ff) = None
  /\ Linear_dims d inner (ff_lin1 ff)
  /\ Linear_dims inner d (ff_lin2 ff).

(** [TransformerAttention(dim, heads, dim_head, num_mem_kv)] (lines
    408-445) *)
Definition TransformerAttention_dims (d : nat) (a : TransformerAttention) : Prop :=
  let inner := (ta_dim_head a * ta_heads a)%nat in
  ln_affine (ta_norm a) = None
  /\ Linear_dims d inner (ta_to_q a) /\ bias (ta_to_q a) = None
  /\ Linear_dims d (inner * 2) (ta_to_kv a) /\ bias (ta_to_kv a) = None
  /\ Linear_dims inner d (ta_to_out a) /\ bias (ta_to_out a) = None
  /\ match ta_mem_kv a with
     | Some (mk, mv) =>
         (0 < ta_num_mem_kv a)%nat
         /\ tensor3_shape (ta_heads a) (ta_num_mem_kv a) (ta_dim_head a) mk
         /\ tensor3_shape (ta_heads a) (ta_num_mem_kv a) (ta_dim_head a) mv
     | None => ta_num_mem_kv a = 0%nat
     end.

(** [Transformer(dim, ...)] (lines 493-510) *)
Definition Transformer_dims (d : nat) (t : Transformer) : Prop :=
  Forall (fun l => TransformerAttention_dims d (fst l) /\ FeedForward_dims d (snd l))
         (layers t).



(** [QHeadMultipleActions(dim, ...)] (lines 653-683) *)
Definition QHeadMultipleActions_dims (d : nat) (h : QHeadMultipleActions) : Prop :=
  Forall (Forall (fun e => length e = d)) (action_bin_embeddings h)
  /\ Transformer_dims d (ma_transformer h)
  /\ LayerNorm_dims d (final_norm h) /\ ln_affine (final_norm h) <> None
  /\ (dueling h = true -> Forall (fun v => length v = d) (to_values h)).

(** [Attention(dim, dim_head, window_size, num_mem_kv)] (lines 190-231),
    with [heads = dim // dim_head] and [dim % dim_head == 0]. *)
Definition Attention_dims (d : nat) (a : Attention) : Prop :=
  let num_mem := length (hd [] (fst (at_mem_kv a))) in
  d = (at_heads a * at_dim_head a)%nat
  /\ LayerNorm_dims d (at_norm a) /\ ln_affine (at_norm a) <> None
  /\ Linear_dims d (d * 3) (at_to_qkv a) /\ bias (at_to_qkv a) = None
  /\ tensor3_shape (at_heads a) num_mem (at_dim_head a) (fst (at_mem_kv a))
  /\ tensor3_shape (at_heads a) num_mem (at_dim_head a) (snd (at_mem_kv a))
  /\ Linear_dims d d (at_to_out a) /\ bias (at_to_out a) = None
  /\ length (at_rel_pos_bias a)
     = Z.to_nat ((2 * Z.of_nat (at_window_size a) - 1)
                 * (2 * Z.of_nat (at_window_size a) - 1))
  /\ Forall (fun row => length row = at_heads a) (at_rel_pos_bias a).


(** ** Concrete instances for the rest of the module *)

(** A windowed attention with one head of dimension two on 2 x 2 windows,
    one memory token, and a bias table of [(2 * 2 - 1)^2 = 9] rows. *)
Definition ex_window_attention : Attention :=
  mkAttention 1 2 2 (mkLayerNorm (Some ([1; 1], [0; 0])))
    (mkLinear [[1; 0]; [0; 1]; [1; 1]; [1; -1]; [0; 1]; [1; 0]] None)
    ([[[0; 0]]], [[[1; 1]]])
    (mkLinear [[1; 0]; [0; 1]] None)
    [[0]; [1]; [2]; [3]; [4]; [5]; [6]; [7]; [8]].

(** A windowed attention on 1 x 1 windows without memory tokens; its bias
    table has one row. *)
Definition ex_point_attention : Attention :=
  mkAttention 1 2 1 (mkLayerNorm (Some ([1; 1], [0; 0])))
    (mkLinear [[1; 0]; [0; 1]; [1; 1]; [1; -1]; [0; 1]; [1; 0]] None)
    ([[]], [[]])
    (mkLinear [[1; 0]; [0; 1]] None)
    [[5]].

(** One window of four tokens, and one of three. *)
Definition ex_window : list vec := [[1; 2]; [3; 4]; [5; 6]; [7; 8]].

Definition ex_short_window : list vec := [[1; 2]; [3; 4]; [5; 6]].

(** Parameters of a multi-action head with the default eight slots, three
    bins and embedding dimension two. *)
Definition ex_default_params : MultiParams :=
  mkMultiParams
    (repeat [[1; 0]; [0; 1]; [1; 1]] 8)
    [(ex_attention, ex_feed_forward)]
    (mkLayerNorm (Some ([1; 1], [0; 0])))
    (repeat [1; 0] 8).

(** Models asked for two and for nine actions whose head keeps the default
    eight slots. *)
Definition ex_default_model (n_actions : nat) : QRoboticTransformer unit unit :=
  mkQRoboticTransformer ex_enc n_actions false 3
    (MultiHead (QHeadMultipleActions_init None 3 true ex_default_params)).

(** A single-action head over frames of two learned tokens. *)
Definition ex_single_head : QHeadSingleAction :=
  QHeadSingleAction_init 2 3 false ex_single_params.

Definition ex_chan_norm : ChanLayerNorm :=
  mkChanLayerNorm (1 / 100000) [1; 2] [3; 4].

(** An image with two channels, one row and two columns; its first pixel
    has the same value in both channels. *)
Definition ex_image : list (list vec) := [[[1; 2]]; [[1; 4]]].


(** A feature map with two channels, two rows and four columns. *)
Definition ex_feature_map : list (list vec) :=
  [[[1; 2; 3; 4]; [5; 6; 7; 8]]; [[11; 12; 13; 14]; [15; 16; 17; 18]]].

(** The learned tokens of two frames of two tokens, of dimension four. *)
Definition ex_learned_tokens : list (list vec) :=
  [[[1; 2; 3; 4]; [5; 6; 7; 8]; [9; 10; 11; 12]; [13; 14; 15; 16]]].
(* ================================================================= *)
(** * Part II: properties *)
(* ================================================================= *)

Local Close Scope R_scope.

(** ** List helper lemmas *)

Lemma zip_with_length {A B C} (f : A -> B -> C) l1 l2 :
  length (zip_with f l1 l2) = Nat.min (length l1) (length l2).
Proof.
  revert l2; induction l1 as [|a t IH]; intros [|b t2]; simpl; auto.
Qed.

Lemma imap_from_length {A B} (f : nat -> A -> B) l s :
  length (imap_from s f l) = length l.
Proof.
  revert s; induction l as [|x t IH]; intros s; simpl; auto.
Qed.

Lemma imap_from_nth {A B} (f : nat -> A -> B) l s i da db :
  (i < length l)%nat ->
  nth i (imap_from s f l) db = f (s + i)%nat (nth i l da).
Proof.
  revert s i; induction l as [|x t IH]; intros s i Hi; simpl in *; [lia|].
  destruct i as [|i].
  - now rewrite Nat.add_0_r.
  - rewrite (IH (S s) i) by lia. f_equal. lia.
Qed.

Lemma imap_nth {A B} (f : nat -> A -> B) l i da db :
  (i < length l)%nat -> nth i (imap f l) db = f i (nth i l da).
Proof.
  intros Hi. unfold imap. now rewrite (imap_from_nth f l 0 i da db Hi).
Qed.

Lemma nth_repeat_lt {A} (x d : A) n i : (i < n)%nat -> nth i (repeat x n) d = x.
Proof.
  revert i; induction n as [|n IH]; intros i Hi; [lia|].
  destruct i; simpl; auto. apply IH; lia.
Qed.

(** Row-major indexing of a table built block by block. *)
Lemma nth_flat_map_blocks {A B} (f : A -> list B) (m : nat) (l : list A) i da db :
  (forall a, length (f a) = m) ->
  (i < length l * m)%nat ->
  nth i (flat_map f l) db = nth (i mod m) (f (nth (i / m) l da)) db.
Proof.
  intros Hlen. revert i. induction l as [|a t IH]; intros i Hi; simpl in *; [lia|].
  assert (Hm : (0 < m)%nat) by (destruct m; lia).
  destruct (Nat.lt_ge_cases i m) as [Hlt|Hge].
  - rewrite app_nth1 by (rewrite Hlen; exact Hlt).
    rewrite Nat.div_small, Nat.mod_small by exact Hlt. reflexivity.
  - rewrite app_nth2 by (rewrite Hlen; exact Hge). rewrite Hlen.
    rewrite IH by lia.
    replace i with ((i - m) + 1 * m)%nat at 3 4 by lia.
    rewrite Nat.div_add, Nat.Div0.mod_add by lia.
    replace (((i - m) / m + 1))%nat with (S ((i - m) / m)) by lia.
    reflexivity.
Qed.

Lemma flat_map_length_const {A B} (f : A -> list B) (m : nat) (l : list A) :
  (forall a, length (f a) = m) -> length (flat_map f l) = (length l * m)%nat.
Proof.
  intros Hlen. induction l as [|a t IH]; simpl; auto.
  rewrite length_app, Hlen, IH. lia.
Qed.

(** ** The relative-position table *)

Lemma arange_length n : length (arange n) = n.
Proof. unfold arange. now rewrite length_map, length_seq. Qed.

Lemma arange_nth n i : (i < n)%nat -> nth i (arange n) 0%Z = Z.of_nat i.
Proof.
  intros Hi. unfold arange.
  rewrite (nth_indep _ 0%Z (Z.of_nat 0)) by (now rewrite length_map, length_seq).
  rewrite map_nth, seq_nth by exact Hi. reflexivity.
Qed.

Lemma nth_map_seq {A} (f : nat -> A) n i d :
  (i < n)%nat -> nth i (map f (seq 0 n)) d = f i.
Proof.
  intros Hi. rewrite (nth_indep _ d (f 0%nat)) by (now rewrite length_map, length_seq).
  rewrite map_nth, seq_nth by exact Hi. reflexivity.
Qed.

Lemma nth_map_in {A B} (f : A -> B) l i da db :
  (i < length l)%nat -> nth i (map f l) db = f (nth i l da).
Proof.
  intros Hi. rewrite (nth_indep _ db (f da)) by (now rewrite length_map).
  apply map_nth.
Qed.

Lemma grid_length w : length (grid w) = (w * w)%nat.
Proof.
  unfold grid, rearrange_cij_ijc, meshgrid_stack. cbn [hd].
  rewrite length_map, arange_length.
  rewrite (flat_map_length_const _ (length (hd [] (map (fun x => map (fun _ : Z => x) (arange w)) (arange w))))).
  - rewrite length_seq. f_equal.
    destruct w as [|w]; [reflexivity|].
    unfold arange at 2. cbn [seq map hd]. now rewrite length_map, arange_length.
  - intros a. now rewrite length_map, length_seq.
Qed.

Lemma grid_nth w i :
  (i < w * w)%nat ->
  nth i (grid w) [] = [Z.of_nat (i / w); Z.of_nat (i mod w)].
Proof.
  intros Hi.
  assert (Hw : (0 < w)%nat) by (destruct w; lia).
  assert (Hq : (i / w < w)%nat) by (apply Nat.Div0.div_lt_upper_bound; lia).
  assert (Hr : (i mod w < w)%nat) by (apply Nat.mod_upper_bound; lia).
  unfold grid, rearrange_cij_ijc, meshgrid_stack. cbn [hd].
  rewrite length_map, arange_length.
  assert (Hnj : length (hd [] (map (fun x => map (fun _ : Z => x) (arange w)) (arange w))) = w).
  { destruct w as [|w]; [lia|].
    unfold arange at 2. cbn [seq map hd]. now rewrite length_map, arange_length. }
  rewrite Hnj.
  rewrite (nth_flat_map_blocks _ w (seq 0 w) i 0%nat [])
    by (rewrite ?length_seq; try exact Hi; intros a; now rewrite length_map, length_seq).
  rewrite seq_nth by exact Hq. cbn [Nat.add].
  rewrite nth_map_seq by exact Hr.
  cbn [map]. f_equal; [|f_equal].
  - rewrite (nth_map_in _ (arange w) _ 0%Z []) by (now rewrite arange_length).
    rewrite (nth_map_in _ (arange w) _ 0%Z 0%Z) by (now rewrite arange_length).
    now apply arange_nth.
  - rewrite (nth_map_in _ (arange w) _ 0%Z []) by (now rewrite arange_length).
    now apply arange_nth.
Qed.

Lemma rel_pos_indices_length w : length (rel_pos_indices w) = (w * w)%nat.
Proof.
  unfold rel_pos_indices, rel_pos. now rewrite !length_map, grid_length.
Qed.

Lemma rel_pos_indices_row_length w i :
  (i < w * w)%nat -> length (nth i (rel_pos_indices w) []) = (w * w)%nat.
Proof.
  intros Hi. unfold rel_pos_indices, rel_pos.
  rewrite (nth_map_in _ _ _ [] []) by (now rewrite !length_map, grid_length).
  rewrite length_map.
  rewrite (nth_map_in _ _ _ [] []) by (now rewrite length_map, grid_length).
  rewrite length_map.
  rewrite (nth_map_in _ _ _ [] []) by (now rewrite grid_length).
  now rewrite length_map, grid_length.
Qed.

(** Closed form of one entry: the row and column offsets between window
    positions [i] and [j], each shifted by [window_size - 1], in base
    [2 * window_size - 1]. *)
Lemma rel_pos_indices_nth w i j :
  (i < w * w)%nat -> (j < w * w)%nat ->
  nth j (nth i (rel_pos_indices w) []) 0%Z =
  ((Z.of_nat (i / w) - Z.of_nat (j / w) + (Z.of_nat w - 1)) * (2 * Z.of_nat w - 1)
   + (Z.of_nat (i mod w) - Z.of_nat (j mod w) + (Z.of_nat w - 1)))%Z.
Proof.
  intros Hi Hj. unfold rel_pos_indices, rel_pos.
  rewrite (nth_map_in _ _ _ [] []) by (now rewrite !length_map, grid_length).
  rewrite (nth_map_in _ _ _ [] []) by (now rewrite length_map, grid_length).
  rewrite (nth_map_in _ _ _ [] []) by (now rewrite grid_length).
  rewrite (nth_map_in _ _ _ [] 0%Z) by (now rewrite !length_map, grid_length).
  rewrite (nth_map_in _ _ _ [] []) by (now rewrite length_map, grid_length).
  rewrite (nth_map_in _ _ _ [] []) by (now rewrite grid_length).
  rewrite !grid_nth by assumption.
  cbn [zip_with map zsum fold_right]. lia.
Qed.

Example rel_pos_indices_2 :
  rel_pos_indices 2 = [[4; 3; 1; 0]; [5; 4; 2; 1]; [7; 6; 4; 3]; [8; 7; 5; 4]]%Z.
Proof. reflexivity. Qed.

(** C8. For every pair of window positions [i], [j] the table entry
    [rel_pos_indices[i][j]] is the index of the coordinate offset
    [grid[i] - grid[j]] shifted by [window_size - 1]; the transposed entry is
    the index of the negated offset, and the two entries add up to the same
    constant [(2 * window_size - 1)^2 - 1] for all pairs. *)
Theorem rel_pos_indices_transpose (w i j : nat) :
  (i < w * w)%nat -> (j < w * w)%nat ->
  let gi := nth i (grid w) [] in
  let gj := nth j (grid w) [] in
  let dx := (nth 0 gi 0 - nth 0 gj 0)%Z in
  let dy := (nth 1 gi 0 - nth 1 gj 0)%Z in
  let ij := nth j (nth i (rel_pos_indices w) []) 0%Z in
  let ji := nth i (nth j (rel_pos_indices w) []) 0%Z in
  ij = offset_index w dx dy /\
  ji = offset_index w (- dx) (- dy) /\
  (ij + ji = (2 * Z.of_nat w - 1) * (2 * Z.of_nat w - 1) - 1)%Z.
Proof.
  intros Hi Hj. cbv zeta.
  rewrite !rel_pos_indices_nth by assumption.
  rewrite !grid_nth by assumption.
  cbn [nth]. unfold offset_index. repeat split; lia.
Qed.

Lemma rel_pos_indices_transpose_witness :
  (1 < 3 * 3)%nat /\ (5 < 3 * 3)%nat /\
  nth 5 (nth 1 (rel_pos_indices 3) []) 0%Z = 6%Z /\
  nth 1 (nth 5 (rel_pos_indices 3) []) 0%Z = 18%Z.
Proof.
  destruct (rel_pos_indices_transpose 3 1 5) as (H1 & H2 & _); [lia | lia |].
  split; [lia|]. split; [lia|].
  split; [rewrite H1 | rewrite H2]; reflexivity.
Defined.

(** ** The attention mask of [encode_state] *)

Lemma ones_bool_length r c : length (ones_bool r c) = r.
Proof. apply repeat_length. Qed.

Lemma frame_mask_length f : length (frame_mask f) = f.
Proof.
  unfold frame_mask, invert, triu, imap.
  now rewrite length_map, imap_from_length, ones_bool_length.
Qed.

Lemma frame_mask_row f i :
  (i < f)%nat ->
  nth i (frame_mask f) [] = map (fun j => (j <=? i)%nat) (seq 0 f).
Proof.
  intros Hi. unfold frame_mask, invert, triu.
  rewrite (nth_map_in _ _ _ [] []) by (unfold imap; now rewrite imap_from_length, ones_bool_length).
  rewrite (imap_nth _ _ _ [] []) by (now rewrite ones_bool_length).
  unfold ones_bool. rewrite nth_repeat_lt by exact Hi.
  apply nth_ext with (d := false) (d' := false).
  - unfold imap. now rewrite !length_map, imap_from_length, repeat_length, length_seq.
  - intros j Hj. unfold imap in Hj.
    rewrite length_map, imap_from_length, repeat_length in Hj.
    rewrite (nth_map_in _ _ _ false false) by (unfold imap; now rewrite imap_from_length, repeat_length).
    rewrite (imap_nth _ _ _ false false) by (now rewrite repeat_length).
    rewrite nth_repeat_lt by exact Hj.
    rewrite nth_map_seq by exact Hj.
    destruct (Nat.leb_spec (i + 1) j), (Nat.leb_spec j i); simpl; try reflexivity; lia.
Qed.

Lemma frame_mask_nth f i j :
  (i < f)%nat -> (j < f)%nat ->
  nth j (nth i (frame_mask f) []) false = (j <=? i)%nat.
Proof.
  intros Hi Hj. rewrite frame_mask_row by exact Hi.
  now rewrite (nth_map_seq (fun j => (j <=? i)%nat)) by exact Hj.
Qed.

Lemma repeat_ij_nth r1 r2 m c p q :
  (forall row, In row m -> length row = c) ->
  (p < length m * r1)%nat -> (q < c * r2)%nat ->
  nth q (nth p (repeat_ij r1 r2 m) []) false =
  nth (q / r2) (nth (p / r1) m []) false.
Proof.
  intros Hrow Hp Hq. unfold repeat_ij.
  assert (Hr1 : (0 < r1)%nat) by (destruct r1; lia).
  assert (Hr2 : (0 < r2)%nat) by (destruct r2; lia).
  rewrite (nth_flat_map_blocks _ r1 m p [] []) by (try exact Hp; intros a; apply repeat_length).
  rewrite nth_repeat_lt by (apply Nat.mod_upper_bound; lia).
  assert (Hin : In (nth (p / r1) m []) m).
  { apply nth_In. apply Nat.Div0.div_lt_upper_bound. lia. }
  rewrite (nth_flat_map_blocks _ r2 _ q false false)
    by (try (rewrite (Hrow _ Hin); exact Hq); intros a; apply repeat_length).
  apply nth_repeat_lt. apply Nat.mod_upper_bound. lia.
Qed.

Lemma repeat_ij_length r1 r2 m : length (repeat_ij r1 r2 m) = (length m * r1)%nat.
Proof.
  unfold repeat_ij. apply flat_map_length_const. intros a. apply repeat_length.
Qed.

Lemma repeat_ij_row_length r1 r2 m c p :
  (forall row, In row m -> length row = c) ->
  (p < length m * r1)%nat ->
  length (nth p (repeat_ij r1 r2 m) []) = (c * r2)%nat.
Proof.
  intros Hrow Hp. unfold repeat_ij.
  assert (Hr1 : (0 < r1)%nat) by (destruct r1; lia).
  rewrite (nth_flat_map_blocks _ r1 m p [] []) by (try exact Hp; intros a; apply repeat_length).
  rewrite nth_repeat_lt by (apply Nat.mod_upper_bound; lia).
  assert (Hin : In (nth (p / r1) m []) m).
  { apply nth_In. apply Nat.Div0.div_lt_upper_bound. lia. }
  rewrite (flat_map_length_const _ r2) by (intros a; apply repeat_length).
  now rewrite (Hrow _ Hin).
Qed.

Lemma frame_mask_rows f row : In row (frame_mask f) -> length row = f.
Proof.
  intros Hin. destruct (In_nth _ _ [] Hin) as (i & Hi & <-).
  rewrite frame_mask_length in Hi.
  rewrite frame_mask_row by exact Hi. now rewrite length_map, length_seq.
Qed.

Example encode_state_attn_mask_2_2 :
  encode_state_attn_mask 2 2
  = [[true; true; false; false]; [true; true; false; false];
     [true; true; true; true]; [true; true; true; true]].
Proof. reflexivity. Qed.

(** C10. The mask built by [encode_state] is block-causal over frames: it
    is a square table over the [frames * num_learned_tokens] learned tokens,
    the entry for query token [p] and key token [q] is the entry of the
    lower-triangular [frames x frames] table at their frames
    [(p / n, q / n)], hence true exactly when the frame of [q] is not later
    than the frame of [p]; in particular all tokens of one frame see each
    other. *)
Theorem encode_state_attn_mask_block_causal (frames n p q : nat) :
  (p < frames * n)%nat -> (q < frames * n)%nat ->
  let mask := encode_state_attn_mask frames n in
  length mask = (frames * n)%nat /\
  length (nth p mask []) = (frames * n)%nat /\
  nth q (nth p mask []) false = nth (q / n) (nth (p / n) (frame_mask frames) []) false /\
  nth q (nth p mask []) false = (q / n <=? p / n)%nat /\
  ((p / n = q / n)%nat -> nth q (nth p mask []) false = true) /\
  ((p / n < q / n)%nat -> nth q (nth p mask []) false = false).
Proof.
  intros Hp Hq. cbv zeta. unfold encode_state_attn_mask.
  assert (Hn : (0 < n)%nat) by (destruct n; lia).
  assert (Hpf : (p / n < frames)%nat) by (apply Nat.Div0.div_lt_upper_bound; lia).
  assert (Hqf : (q / n < frames)%nat) by (apply Nat.Div0.div_lt_upper_bound; lia).
  assert (Hent : nth q (nth p (repeat_ij n n (frame_mask frames)) []) false
                 = (q / n <=? p / n)%nat).
  { rewrite (repeat_ij_nth n n (frame_mask frames) frames)
      by (try apply frame_mask_rows; rewrite ?frame_mask_length; assumption).
    now apply frame_mask_nth. }
  repeat split.
  - now rewrite repeat_ij_length, frame_mask_length.
  - rewrite (repeat_ij_row_length n n (frame_mask frames) frames)
      by (try apply frame_mask_rows; rewrite ?frame_mask_length; assumption).
    reflexivity.
  - rewrite Hent. symmetry. now apply frame_mask_nth.
  - exact Hent.
  - intros Heq. rewrite Hent. apply Nat.leb_le. lia.
  - intros Hlt. rewrite Hent. apply Nat.leb_gt. lia.
Qed.

Lemma encode_state_attn_mask_block_causal_witness :
  nth 2 (nth 3 (encode_state_attn_mask 3 2) []) false = true /\
  nth 4 (nth 3 (encode_state_attn_mask 3 2) []) false = false.
Proof.
  split.
  - destruct (encode_state_attn_mask_block_causal 3 2 3 2) as (_ & _ & _ & _ & H & _);
      [simpl; lia | simpl; lia |]. apply H. reflexivity.
  - destruct (encode_state_attn_mask_block_causal 3 2 3 4) as (_ & _ & _ & _ & _ & H);
      [simpl; lia | simpl; lia |]. apply H. simpl. lia.
Defined.

(** ** Real sums and the sigmoid *)

Local Open Scope R_scope.

Lemma sigmoid_range x : 0 < sigmoid x < 1.
Proof.
  unfold sigmoid. pose proof (exp_pos (- x)) as He.
  assert (H1 : 1 < 1 + exp (- x)) by lra.
  split.
  - apply Rdiv_lt_0_compat; lra.
  - apply Rmult_lt_reg_r with (1 + exp (- x)); [lra|].
    unfold Rdiv. rewrite Rmult_assoc, Rinv_l by lra. lra.
Qed.

Lemma zip_with_nth {A B C} (f : A -> B -> C) l1 l2 i da db dc :
  (i < length l1)%nat -> (i < length l2)%nat ->
  nth i (zip_with f l1 l2) dc = f (nth i l1 da) (nth i l2 db).
Proof.
  revert l2 i; induction l1 as [|a t IH]; intros [|b t2] i H1 H2; simpl in *; try lia.
  destruct i; [reflexivity|]. apply IH; lia.
Qed.

Lemma zip_with_map_seq {A B C} (f : A -> B -> C) l1 l2 da db :
  (length l1 <= length l2)%nat ->
  zip_with f l1 l2 = map (fun i => f (nth i l1 da) (nth i l2 db)) (seq 0 (length l1)).
Proof.
  revert l2; induction l1 as [|a t IH]; intros [|b t2] H; simpl in *; try lia; auto.
  f_equal. rewrite <- seq_shift, map_map. apply IH. lia.
Qed.

Lemma zip_with_firstn {A B C} (f : A -> B -> C) m l1 l2 :
  firstn m (zip_with f l1 l2) = zip_with f (firstn m l1) (firstn m l2).
Proof.
  revert l1 l2; induction m as [|m IH]; intros [|a t] [|b t2]; simpl; auto.
  now rewrite IH.
Qed.

Lemma imap_from_map_seq {A B} (f : nat -> A -> B) l s da :
  imap_from s f l = map (fun i => f (s + i)%nat (nth i l da)) (seq 0 (length l)).
Proof.
  revert s; induction l as [|x t IH]; intros s; simpl; auto.
  rewrite Nat.add_0_r. f_equal.
  rewrite <- seq_shift, map_map, IH.
  apply map_ext. intros i. f_equal. lia.
Qed.

Lemma imap_map_seq {A B} (f : nat -> A -> B) l da :
  imap f l = map (fun i => f i (nth i l da)) (seq 0 (length l)).
Proof. unfold imap. now rewrite (imap_from_map_seq f l 0 da). Qed.

Lemma imap_length {A B} (f : nat -> A -> B) l : length (imap f l) = length l.
Proof. apply imap_from_length. Qed.

Lemma Linear_forward_length l x : length (Linear_forward l x) = length (weight l).
Proof. apply imap_length. Qed.

Lemma LayerNorm_forward_length ln x : length (LayerNorm_forward ln x) = length x.
Proof. apply imap_length. Qed.

(** ** The dueling decomposition *)

Lemma broadcast_sub_mean adv :
  broadcast Rminus adv (reduce_mean_keepdim adv) = map (fun a => a - mean adv) adv.
Proof.
  unfold broadcast, reduce_mean_keepdim. destruct adv as [|a [|b t]]; reflexivity.
Qed.

Lemma broadcast_add_value v adv :
  broadcast Rplus [v] adv = map (fun a => v + a) adv.
Proof.
  unfold broadcast. destruct adv as [|a [|b t]]; try reflexivity.
Qed.

Lemma dueling_combine v adv :
  map sigmoid (broadcast Rplus [v] (broadcast Rminus adv (reduce_mean_keepdim adv)))
  = dueling_q v adv.
Proof.
  rewrite broadcast_sub_mean, broadcast_add_value, !map_map. reflexivity.
Qed.

Lemma singleton_of_length_1 {A} (l : list A) d : length l = 1%nat -> l = [nth 0 l d].
Proof. destruct l as [|a [|b t]]; simpl; intros H; try discriminate; reflexivity. Qed.

Lemma DuelingHead_forward_row (h : DuelingHead) (x : list vec) (b : nat) :
  Linear_wf 1 (dh_to_values h) ->
  (b < length x)%nat ->
  let hidden := map SiLU (Linear_forward (dh_stem h) (nth b x [])) in
  nth b (DuelingHead_forward h x) []
  = dueling_q (nth 0 (Linear_forward (dh_to_values h) hidden) 0)
              (Linear_forward (dh_to_advantages h) hidden).
Proof.
  intros Hwf Hb. cbv zeta. unfold DuelingHead_forward.
  rewrite (nth_map_in (B:=vec) _ x b [] []) by exact Hb.
  set (hidden := map SiLU (Linear_forward (dh_stem h) (nth b x []))).
  rewrite (singleton_of_length_1 (Linear_forward (dh_to_values h) hidden) 0)
    by (rewrite Linear_forward_length; exact Hwf).
  apply dueling_combine.
Qed.

Lemma zip_with_map_same {A B C D} (g : B -> C -> D) (f1 : A -> B) (f2 : A -> C) l :
  zip_with g (map f1 l) (map f2 l) = map (fun x => g (f1 x) (f2 x)) l.
Proof. induction l as [|a t IH]; simpl; auto. now rewrite IH. Qed.

Lemma nth_firstn_lt {A} (l : list A) n i d : (i < n)%nat -> nth i (firstn n l) d = nth i l d.
Proof.
  revert l i; induction n as [|n IH]; intros l i Hi; [lia|].
  destruct l as [|a t]; [destruct i; reflexivity|].
  destruct i; simpl; auto. apply IH. lia.
Qed.

Lemma firstn_length_le' {A} (l : list A) n : (n <= length l)%nat -> length (firstn n l) = n.
Proof. intros H. rewrite length_firstn. lia. Qed.

(** [einsum('b n d, n a d -> b n a')] against the first [n] slots of a table,
    written with indices. *)
Lemma einsum_bnd_nad_index (embed : list (list vec)) (tbl : list (list vec)) n :
  Forall (fun s => length s = n) embed ->
  (n <= length tbl)%nat ->
  einsum_bnd_nad embed (firstn n tbl)
  = map (fun s => map (fun i => map (fun ea => dot (nth i s []) ea) (nth i tbl []))
                      (seq 0 n)) embed.
Proof.
  intros Hrect Hn. unfold einsum_bnd_nad.
  apply map_ext_in. intros s Hs.
  rewrite Forall_forall in Hrect. specialize (Hrect s Hs).
  rewrite (zip_with_map_seq _ s (firstn n tbl) [] [])
    by (rewrite firstn_length_le' by exact Hn; lia).
  rewrite Hrect. apply map_ext_in. intros i Hi. apply in_seq in Hi.
  rewrite nth_firstn_lt by lia. reflexivity.
Qed.

Lemma einsum_bnd_nd_index (embed : list (list vec)) (w : list vec) n :
  Forall (fun s => length s = n) embed ->
  (n <= length w)%nat ->
  einsum_bnd_nd embed (firstn n w)
  = map (fun s => map (fun i => dot (nth i s []) (nth i w [])) (seq 0 n)) embed.
Proof.
  intros Hrect Hn. unfold einsum_bnd_nd.
  apply map_ext_in. intros s Hs.
  rewrite Forall_forall in Hrect. specialize (Hrect s Hs).
  rewrite (zip_with_map_seq _ s (firstn n w) [] [])
    by (rewrite firstn_length_le' by exact Hn; lia).
  rewrite Hrect. apply map_ext_in. intros i Hi. apply in_seq in Hi.
  rewrite nth_firstn_lt by lia. reflexivity.
Qed.

Lemma get_q_values_plain (h : QHeadMultipleActions) (embed : list (list vec)) :
  dueling h = false ->
  Forall (fun s => length s = length (hd [] embed)) embed ->
  (length (hd [] embed) <= length (action_bin_embeddings h))%nat ->
  get_q_values h embed
  = Ok (map (fun s =>
          map (fun i => map (fun ea => sigmoid (dot (nth i s []) ea))
                            (nth i (action_bin_embeddings h) []))
              (seq 0 (length (hd [] embed)))) embed).
Proof.
  intros Hd Hrect Hn. unfold get_q_values.
  rewrite firstn_length_le' by exact Hn. rewrite Nat.eqb_refl. cbn [negb].
  rewrite Hd. f_equal.
  rewrite einsum_bnd_nad_index by assumption.
  rewrite map_map. apply map_ext. intros s.
  rewrite map_map. apply map_ext. intros i.
  now rewrite map_map.
Qed.

Lemma get_q_values_dueling (h : QHeadMultipleActions) (embed : list (list vec)) :
  dueling h = true ->
  Forall (fun s => length s = length (hd [] embed)) embed ->
  (length (hd [] embed) <= length (action_bin_embeddings h))%nat ->
  (length (hd [] embed) <= length (to_values h))%nat ->
  get_q_values h embed
  = Ok (map (fun s =>
          map (fun i =>
                 dueling_q (dot (nth i s []) (nth i (to_values h) []))
                           (map (fun ea => dot (nth i s []) ea)
                                (nth i (action_bin_embeddings h) [])))
              (seq 0 (length (hd [] embed)))) embed).
Proof.
  intros Hd Hrect Hn Hv. unfold get_q_values.
  rewrite !firstn_length_le' by assumption. rewrite Nat.eqb_refl. cbn [negb].
  rewrite Hd. f_equal.
  rewrite einsum_bnd_nad_index, einsum_bnd_nd_index by assumption.
  rewrite !map_map, zip_with_map_same, map_map.
  apply map_ext. intros s.
  rewrite !map_map, zip_with_map_same, map_map.
  apply map_ext. intros i.
  apply dueling_combine.
Qed.

(** C2. Both dueling computations return the sigmoid of
    [value + (advantage - mean(advantage))], the mean being taken over the
    action-bin axis: [DuelingHead.forward] on every batch row, with the value
    and the advantages given by its two linear streams, and the dueling
    branch of [QHeadMultipleActions.get_q_values] on every batch element and
    action slot, with the value [embed . to_values[i]] and the advantages
    [embed . action_bin_embeddings[i][a]]. *)
Theorem dueling_q_values (dh : DuelingHead) (x : list vec)
    (h : QHeadMultipleActions) (embed : list (list vec)) :
  Linear_wf 1 (dh_to_values dh) ->
  dueling h = true ->
  Forall (fun s => length s = length (hd [] embed)) embed ->
  (length (hd [] embed) <= length (action_bin_embeddings h))%nat ->
  (length (hd [] embed) <= length (to_values h))%nat ->
  (forall b, (b < length x)%nat ->
     let hidden := map SiLU (Linear_forward (dh_stem dh) (nth b x [])) in
     nth b (DuelingHead_forward dh x) []
     = dueling_q (nth 0 (Linear_forward (dh_to_values dh) hidden) 0)
                 (Linear_forward (dh_to_advantages dh) hidden))
  /\ length (DuelingHead_forward dh x) = length x
  /\ get_q_values h embed
     = Ok (map (fun s =>
             map (fun i =>
                    dueling_q (dot (nth i s []) (nth i (to_values h) []))
                              (map (fun ea => dot (nth i s []) ea)
                                   (nth i (action_bin_embeddings h) [])))
                 (seq 0 (length (hd [] embed)))) embed).
Proof.
  intros Hwf Hd Hrect Hn Hv. split; [|split].
  - intros b Hb. now apply DuelingHead_forward_row.
  - unfold DuelingHead_forward. now rewrite length_map.
  - now apply get_q_values_dueling.
Qed.

(** ** Finite sums *)

Lemma rsum_app l1 l2 : rsum (l1 ++ l2) = rsum l1 + rsum l2.
Proof.
  unfold rsum. induction l1 as [|a t IH]; simpl; [lra|]. rewrite IH. lra.
Qed.

Lemma sum_n_S n f : sum_n (S n) f = sum_n n f + f n.
Proof.
  unfold sum_n. rewrite seq_S, map_app, rsum_app. simpl. lra.
Qed.

Lemma sum_n_ext n f g :
  (forall j, (j < n)%nat -> f j = g j) -> sum_n n f = sum_n n g.
Proof.
  intros H. unfold sum_n. f_equal. apply map_ext_in.
  intros j Hj. apply in_seq in Hj. apply H. lia.
Qed.

(** Terms that vanish beyond [n'] can be dropped from the sum. *)
Lemma sum_n_trunc n n' f :
  (n' <= n)%nat ->
  (forall j, (n' <= j < n)%nat -> f j = 0) ->
  sum_n n f = sum_n n' f.
Proof.
  intros Hle Hz. induction n as [|n IH].
  - now replace n' with 0%nat by lia.
  - destruct (Nat.eq_dec n' (S n)) as [->|Hne]; [reflexivity|].
    rewrite sum_n_S, IH by (try lia; intros j Hj; apply Hz; lia).
    rewrite Hz by lia. lra.
Qed.

(** ** Causality of [Attend] *)

Lemma firstn_seq_0 m n : firstn m (seq 0 n) = seq 0 (Nat.min m n).
Proof.
  generalize 0%nat as s. revert n.
  induction m as [|m IH]; intros [|n] s; simpl; auto. now rewrite IH.
Qed.

Lemma nth_app_firstn {A} (mk kx : list A) m j d :
  (j < length mk + Nat.min m (length kx))%nat ->
  nth j (mk ++ firstn m kx) d = nth j (mk ++ kx) d.
Proof.
  intros Hj. destruct (Nat.lt_ge_cases j (length mk)) as [Hlt|Hge].
  - now rewrite !app_nth1 by exact Hlt.
  - rewrite !app_nth2 by exact Hge. apply nth_firstn_lt. lia.
Qed.

Lemma Attend_allowed_causal i_len mem i j :
  Attend_allowed true None i_len (mem + i_len) i j = (j <=? i + mem)%nat.
Proof.
  unfold Attend_allowed. cbn [andb]. f_equal. lia.
Qed.

Lemma Attend_weight_beyond q mk kx i j :
  length kx = length q ->
  (i + length mk < j)%nat ->
  Attend_weight true None q (mk ++ kx) i j = 0.
Proof.
  intros Hk Hj. unfold Attend_weight.
  rewrite length_app, Hk, Attend_allowed_causal.
  destruct (Nat.leb_spec j (i + length mk)); [lia | reflexivity].
Qed.

Lemma Attend_weight_prefix q mk kx m i j :
  length kx = length q ->
  (i < m)%nat ->
  (j < length mk + Nat.min m (length q))%nat ->
  Attend_weight true None (firstn m q) (mk ++ firstn m kx) i j
  = Attend_weight true None q (mk ++ kx) i j.
Proof.
  intros Hk Hi Hj. unfold Attend_weight.
  rewrite !length_app, !length_firstn, Hk, !Attend_allowed_causal.
  rewrite nth_firstn_lt by exact Hi.
  rewrite nth_app_firstn by (rewrite Hk; exact Hj).
  reflexivity.
Qed.

(** Under the causal mask, the first [m] rows of the output are the output
    on the first [m] queries, keys and values. *)
Lemma Attend_prefix (q mk kx mv vx : list vec) (m : nat) :
  length kx = length q -> length vx = length q -> length mk = length mv ->
  firstn m (Attend true q (mk ++ kx) (mv ++ vx) None)
  = Attend true (firstn m q) (mk ++ firstn m kx) (mv ++ firstn m vx) None.
Proof.
  intros Hk Hv Hm. unfold Attend.
  rewrite (imap_map_seq _ q []), (imap_map_seq _ (firstn m q) []).
  rewrite firstn_map, firstn_seq_0, length_firstn.
  apply map_ext_in. intros i Hi. apply in_seq in Hi.
  assert (Him : (i < m)%nat) by lia.
  assert (Hiq : (i < length q)%nat) by lia.
  rewrite nth_firstn_lt by exact Him.
  set (n' := (length mk + Nat.min m (length q))%nat).
  assert (Hlen' : length (mk ++ firstn m kx) = n')
    by (rewrite length_app, length_firstn, Hk; reflexivity).
  assert (Hlen : (n' <= length (mk ++ kx))%nat)
    by (rewrite length_app, Hk; unfold n'; lia).
  rewrite Hlen'.
  assert (Hbeyond : forall j, (n' <= j < length (mk ++ kx))%nat ->
                     Attend_weight true None q (mk ++ kx) i j = 0).
  { intros j Hj. apply Attend_weight_beyond; [exact Hk|]. unfold n' in Hj. lia. }
  assert (Hz : sum_n (length (mk ++ kx)) (Attend_weight true None q (mk ++ kx) i)
               = sum_n n' (Attend_weight true None (firstn m q) (mk ++ firstn m kx) i)).
  { rewrite (sum_n_trunc (length (mk ++ kx)) n' _ Hlen Hbeyond).
    apply sum_n_ext. intros j Hj. symmetry. now apply Attend_weight_prefix. }
  rewrite Hz. apply map_ext. intros c. f_equal.
  rewrite (sum_n_trunc (length (mk ++ kx)) n' _ Hlen)
    by (intros j Hj; rewrite (Hbeyond j Hj); lra).
  apply sum_n_ext. intros j Hj.
  rewrite Attend_weight_prefix by assumption.
  f_equal. f_equal. symmetry. apply nth_app_firstn.
  rewrite <- Hm, Hv. exact Hj.
Qed.

Lemma Attend_length c q k v mask : length (Attend c q k v mask) = length q.
Proof. apply imap_length. Qed.

(** ** Causality of [TransformerAttention] and [Transformer] *)

Lemma split_heads_length h t : length (split_heads h t) = h.
Proof. unfold split_heads. now rewrite length_map, length_seq. Qed.

Lemma split_heads_nth_length h t hi :
  (hi < h)%nat -> length (nth hi (split_heads h t) []) = length t.
Proof.
  intros Hhi. unfold split_heads.
  rewrite (nth_map_seq _ h hi []) by exact Hhi. now rewrite length_map.
Qed.

Lemma split_heads_firstn h t m hi :
  (hi < h)%nat ->
  nth hi (split_heads h (firstn m t)) [] = firstn m (nth hi (split_heads h t) []).
Proof.
  intros Hhi. unfold split_heads.
  rewrite !(nth_map_seq _ h hi []) by exact Hhi. now rewrite firstn_map.
Qed.

Lemma cat_mem_nth mem t hi :
  (hi < length mem)%nat -> (hi < length t)%nat ->
  nth hi (cat_mem mem t) [] = nth hi mem [] ++ nth hi t [].
Proof. intros H1 H2. unfold cat_mem. now apply zip_with_nth. Qed.

Lemma merge_heads_firstn m n out :
  firstn m (merge_heads n out) = merge_heads (Nat.min m n) (map (firstn m) out).
Proof.
  unfold merge_heads. rewrite firstn_map, firstn_seq_0.
  apply map_ext_in. intros i Hi. apply in_seq in Hi.
  rewrite map_map. f_equal. apply map_ext. intros oh.
  symmetry. apply nth_firstn_lt. lia.
Qed.

Lemma merge_heads_length n out : length (merge_heads n out) = n.
Proof. unfold merge_heads. now rewrite length_map, length_seq. Qed.

Lemma TransformerAttention_sample_length a mask x kv_input :
  length (TransformerAttention_sample a mask x kv_input) = length x.
Proof.
  unfold TransformerAttention_sample.
  destruct (ta_mem_kv a) as [[mk mv]|]; now rewrite length_map, merge_heads_length.
Qed.

Lemma TransformerAttention_sample_prefix a x kv_input m :
  ta_causal a = true ->
  TransformerAttention_wf a ->
  length kv_input = length x ->
  firstn m (TransformerAttention_sample a None x kv_input)
  = TransformerAttention_sample a None (firstn m x) (firstn m kv_input).
Proof.
  intros Hc Hwf Hlen. unfold TransformerAttention_sample, TransformerAttention_wf in *.
  rewrite Hc.
  destruct (ta_mem_kv a) as [[mk mv]|]; cbn [option_map].
  - destruct Hwf as (Hmk & Hmv & Hmem).
    rewrite firstn_map, merge_heads_firstn, length_firstn, map_map.
    f_equal. f_equal. apply map_ext_in. intros hi Hhi. apply in_seq in Hhi.
    rewrite !cat_mem_nth by (rewrite ?split_heads_length; lia).
    rewrite <- !firstn_map, !split_heads_firstn by lia.
    apply Attend_prefix.
    + rewrite !split_heads_nth_length by lia. now rewrite !length_map.
    + rewrite !split_heads_nth_length by lia. now rewrite !length_map.
    + apply Hmem.
  - rewrite firstn_map, merge_heads_firstn, length_firstn, map_map.
    f_equal. f_equal. apply map_ext_in. intros hi Hhi. apply in_seq in Hhi.
    rewrite <- !firstn_map, !split_heads_firstn by lia.
    apply (Attend_prefix _ [] _ [] _ m).
    + rewrite !split_heads_nth_length by lia. now rewrite !length_map.
    + rewrite !split_heads_nth_length by lia. now rewrite !length_map.
    + reflexivity.
Qed.

Lemma TransformerAttention_forward_prefix a x m :
  ta_causal a = true ->
  TransformerAttention_wf a ->
  map (firstn m) (TransformerAttention_forward a x None None)
  = TransformerAttention_forward a (map (firstn m) x) None None.
Proof.
  intros Hc Hwf. unfold TransformerAttention_forward. cbn [apply_cond].
  rewrite !map_map.
  induction x as [|s t IH]; [reflexivity|].
  cbn [map zip_with]. f_equal.
  - rewrite TransformerAttention_sample_prefix by (try assumption; now rewrite length_map).
    now rewrite firstn_map.
  - exact IH.
Qed.

Lemma add_tokens_firstn m x y :
  firstn m (add_tokens x y) = add_tokens (firstn m x) (firstn m y).
Proof. apply zip_with_firstn. Qed.

Lemma add3_prefix m x y :
  map (firstn m) (add3 x y) = add3 (map (firstn m) x) (map (firstn m) y).
Proof.
  unfold add3. revert y. induction x as [|s t IH]; intros [|s' t']; simpl; auto.
  now rewrite IH, add_tokens_firstn.
Qed.

Lemma FeedForward_forward_prefix ff x m :
  map (firstn m) (FeedForward_forward ff x None)
  = FeedForward_forward ff (map (firstn m) x) None.
Proof.
  unfold FeedForward_forward. cbn [apply_cond]. rewrite !map_map.
  apply map_ext. intros s. now rewrite !firstn_map.
Qed.

(** A causal transformer commutes with truncation of the token sequence:
    the first [m] output tokens are the output on the first [m] input
    tokens. *)
Lemma Transformer_layers_prefix ls x m :
  causal_layers ls ->
  map (firstn m) (Transformer_layers ls x [] None)
  = Transformer_layers ls (map (firstn m) x) [] None.
Proof.
  intros Hls. revert x. induction Hls as [|[attn ff] rest [Hc Hwf] _ IH]; intros x.
  - reflexivity.
  - cbn [Transformer_layers next fst] in *.
    rewrite IH. f_equal.
    rewrite add3_prefix, FeedForward_forward_prefix. f_equal; [f_equal|];
      now rewrite add3_prefix, TransformerAttention_forward_prefix.
Qed.

Lemma Transformer_forward_prefix t x m :
  causal_layers (layers t) ->
  map (firstn m) (Transformer_forward t x None None)
  = Transformer_forward t (map (firstn m) x) None None.
Proof. intros H. unfold Transformer_forward. now apply Transformer_layers_prefix. Qed.

Lemma head_embed_prefix (h : QHeadMultipleActions) tokens m :
  causal_layers (layers (ma_transformer h)) ->
  map (firstn m) (head_embed h tokens) = head_embed h (map (firstn m) tokens).
Proof.
  intros Hc. unfold head_embed.
  rewrite <- Transformer_forward_prefix by exact Hc.
  rewrite !map_map. apply map_ext. intros s. now rewrite firstn_map.
Qed.

(** The embedding of slot [i] is determined by the tokens of the slots
    [<= i]. *)
Lemma head_embed_slot (h : QHeadMultipleActions) tokens tokens' i :
  causal_layers (layers (ma_transformer h)) ->
  map (firstn (S i)) tokens = map (firstn (S i)) tokens' ->
  map (fun s => nth i s []) (head_embed h tokens)
  = map (fun s => nth i s []) (head_embed h tokens').
Proof.
  intros Hc Heq.
  assert (H : forall e : list (list vec),
             map (fun s => nth i s []) e = map (fun s => nth i s []) (map (firstn (S i)) e)).
  { intros e. rewrite map_map. apply map_ext. intros s.
    symmetry. apply nth_firstn_lt. lia. }
  rewrite (H (head_embed h tokens)), (H (head_embed h tokens')).
  now rewrite !head_embed_prefix, Heq by exact Hc.
Qed.

(** ** Teacher forcing: the tokens of [forward] *)

Lemma sequence_map_ok {A B} (f : A -> result B) (g : A -> B) l :
  (forall x, In x l -> f x = Ok (g x)) ->
  sequence (map f l) = Ok (map g l).
Proof.
  induction l as [|a t IH]; intros H; [reflexivity|].
  cbn [map sequence]. rewrite (H a) by (now left). cbn [bind].
  rewrite IH by (intros x Hx; apply H; now right). reflexivity.
Qed.

Lemma In_firstn {A} (x : A) n l : In x (firstn n l) -> In x l.
Proof.
  intros H. rewrite <- (firstn_skipn n l). apply in_or_app. now left.
Qed.

Lemma forallb_combine_firstn (tbl : list (list vec)) (row : list Z) bins n :
  Forall (fun slot => length slot = bins) tbl ->
  Forall (fun a => (0 <= a < Z.of_nat bins)%Z) row ->
  forallb (fun p => (0 <=? snd p)%Z && (snd p <? Z.of_nat (length (fst p)))%Z)
          (combine (firstn n tbl) row) = true.
Proof.
  intros Htbl Hrow. apply forallb_forall. intros [slot a] Hin.
  pose proof (in_combine_l _ _ _ _ Hin) as Hl.
  pose proof (in_combine_r _ _ _ _ Hin) as Hr.
  apply In_firstn in Hl.
  rewrite Forall_forall in Htbl, Hrow.
  specialize (Htbl _ Hl). specialize (Hrow _ Hr). cbn [fst snd].
  rewrite Htbl. apply andb_true_iff. split; [apply Z.leb_le | apply Z.ltb_lt]; lia.
Qed.

Lemma gather_bins_ok (h : QHeadMultipleActions) (row : list Z) n :
  Forall (fun slot => length slot = ma_action_bins h) (action_bin_embeddings h) ->
  (n <= length (action_bin_embeddings h))%nat ->
  length row = n ->
  Forall (fun a => (0 <= a < Z.of_nat (ma_action_bins h))%Z) row ->
  gather_bins (firstn n (action_bin_embeddings h)) row
  = Ok (map (fun i => action_embedding h i (nth i row 0%Z)) (seq 0 n)).
Proof.
  intros Htbl Hn Hlen Hrow. unfold gather_bins.
  rewrite firstn_length_le' by exact Hn. rewrite Hlen, Nat.leb_refl.
  rewrite (forallb_combine_firstn _ _ (ma_action_bins h)) by assumption.
  cbn [andb]. f_equal.
  rewrite (zip_with_map_seq _ _ _ [] 0%Z) by (rewrite Hlen, firstn_length_le' by exact Hn; lia).
  rewrite firstn_length_le' by exact Hn.
  apply map_ext_in. intros i Hi. apply in_seq in Hi.
  unfold action_embedding. now rewrite nth_firstn_lt by lia.
Qed.

Lemma zip_with_map_r {A B B' C} (f : A -> B' -> C) (g : B -> B') l1 l2 :
  zip_with f l1 (map g l2) = zip_with (fun a b => f a (g b)) l1 l2.
Proof.
  revert l2; induction l1 as [|a t IH]; intros [|b t2]; simpl; auto. now rewrite IH.
Qed.

Lemma zip_with_map_l {A A' B C} (f : A' -> B -> C) (g : A -> A') l1 l2 :
  zip_with f (map g l1) l2 = zip_with (fun a b => f (g a) b) l1 l2.
Proof.
  revert l2; induction l1 as [|a t IH]; intros [|b t2]; simpl; auto. now rewrite IH.
Qed.

Lemma map_zip_with {A B C D} (g : C -> D) (f : A -> B -> C) l1 l2 :
  map g (zip_with f l1 l2) = zip_with (fun a b => g (f a b)) l1 l2.
Proof.
  revert l2; induction l1 as [|a t IH]; intros [|b t2]; simpl; auto. now rewrite IH.
Qed.

(** With [n] action columns supplied, the tokens are the first
    [num_actions] of the pooled token followed by the [n] embeddings. *)
Lemma forward_tokens_actions (h : QHeadMultipleActions) (encoded_state : list (list vec))
    (actions : list (list Z)) :
  Forall (fun slot => length slot = ma_action_bins h) (action_bin_embeddings h) ->
  (length (hd [] actions) <= length (action_bin_embeddings h))%nat ->
  length actions = length encoded_state ->
  Forall (fun row => length row = length (hd [] actions)) actions ->
  actions_in_range h actions ->
  forward_tokens h encoded_state (Some actions)
  = Ok (zip_with (fun s row =>
                    firstn (ma_num_actions h)
                           (teacher_tokens h s row (length (hd [] actions))))
                 encoded_state actions).
Proof.
  intros Htbl Hn Hb Hrect Hrange. unfold forward_tokens.
  rewrite (sequence_map_ok _
             (fun row => map (fun i => action_embedding h i (nth i row 0%Z))
                             (seq 0 (length (hd [] actions))))).
  - cbn [bind]. unfold sos_token. rewrite !length_map, Hb, Nat.eqb_refl. cbn [negb].
    f_equal. rewrite zip_with_map_l, zip_with_map_r, map_zip_with. reflexivity.
  - intros row Hrow. unfold actions_in_range in Hrange.
    rewrite Forall_forall in Hrect, Hrange.
    apply gather_bins_ok; auto.
Qed.

(** The tokens of teacher forcing, in closed form. *)
Lemma forward_tokens_shifted (h : QHeadMultipleActions)
    (encoded_state : list (list vec)) (actions : list (list Z)) :
  QHeadMultipleActions_wf h ->
  (1 <= ma_num_actions h)%nat ->
  length actions = length encoded_state ->
  Forall (fun row => length row = ma_num_actions h) actions ->
  actions_in_range h actions ->
  forward_tokens h encoded_state (Some actions)
  = Ok (zip_with (fun s row => teacher_tokens h s row (ma_num_actions h - 1))
                 encoded_state actions).
Proof.
  intros (Hlen & Htbl & _) HN Hb Hrect Hrange.
  destruct actions as [|row0 rest].
  - destruct encoded_state; [reflexivity | discriminate].
  - assert (Hn : length (hd [] (row0 :: rest)) = ma_num_actions h)
      by (inversion Hrect; assumption).
    rewrite forward_tokens_actions; try assumption.
    + rewrite Hn. f_equal.
      destruct (ma_num_actions h) as [|n]; [lia|].
      replace (S n - 1)%nat with n by lia.
      revert Hb. generalize (row0 :: rest). generalize encoded_state.
      intros es rows _.
      revert rows. induction es as [|s t IH]; intros [|r rs]; cbn [zip_with]; auto.
      f_equal; [|apply IH].
      unfold teacher_tokens. rewrite firstn_cons, firstn_map, firstn_seq_0.
      replace (Nat.min n (S n)) with n by lia. reflexivity.
    + rewrite Hn, Hlen. lia.
    + now rewrite Hn.
Qed.



(** ** Shapes through the transformer *)

Lemma zip_with_diag {A C} (f : A -> A -> C) l :
  zip_with f l l = map (fun x => f x x) l.
Proof. induction l as [|a t IH]; simpl; auto. now rewrite IH. Qed.

Lemma TransformerAttention_forward_lengths a x mask :
  map (@length (list R)) (TransformerAttention_forward a x mask None)
  = map (@length (list R)) x.
Proof.
  unfold TransformerAttention_forward. cbn [apply_cond].
  rewrite zip_with_map_l, zip_with_diag, map_map.
  apply map_ext. intros s.
  now rewrite TransformerAttention_sample_length, length_map.
Qed.

Lemma FeedForward_forward_lengths ff x :
  map (@length (list R)) (FeedForward_forward ff x None) = map (@length (list R)) x.
Proof.
  unfold FeedForward_forward. cbn [apply_cond]. rewrite !map_map.
  apply map_ext. intros s. now rewrite !length_map.
Qed.

Lemma add3_lengths x y :
  map (@length (list R)) x = map (@length (list R)) y ->
  map (@length (list R)) (add3 x y) = map (@length (list R)) y.
Proof.
  unfold add3. revert y. induction x as [|s t IH]; intros [|s' t'] H; simpl in *;
    try discriminate; auto.
  injection H as H1 H2. f_equal; [|now apply IH].
  unfold add_tokens. rewrite zip_with_length. lia.
Qed.

Lemma Transformer_layers_lengths ls x mask :
  map (@length (list R)) (Transformer_layers ls x [] mask) = map (@length (list R)) x.
Proof.
  revert x. induction ls as [|[attn ff] rest IH]; intros x; [reflexivity|].
  cbn [Transformer_layers next]. rewrite IH.
  rewrite add3_lengths; rewrite ?FeedForward_forward_lengths;
    now rewrite add3_lengths by apply TransformerAttention_forward_lengths.
Qed.

Lemma head_embed_lengths (h : QHeadMultipleActions) tokens :
  map (@length (list R)) (head_embed h tokens) = map (@length (list R)) tokens.
Proof.
  unfold head_embed, Transformer_forward. cbn [default].
  rewrite map_map.
  rewrite <- (Transformer_layers_lengths (layers (ma_transformer h)) tokens None).
  apply map_ext. intros s. now rewrite length_map.
Qed.

Lemma head_embed_length (h : QHeadMultipleActions) tokens :
  length (head_embed h tokens) = length tokens.
Proof.
  rewrite <- (length_map (@length (list R)) (head_embed h tokens)).
  now rewrite head_embed_lengths, length_map.
Qed.

(** ** Greedy decoding *)

Lemma fold_left_seq_invariant {S} (f : S -> nat -> S) (Inv : nat -> S -> Prop) n init :
  Inv 0%nat init ->
  (forall k s, (k < n)%nat -> Inv k s -> Inv (Datatypes.S k) (f s k)) ->
  Inv n (fold_left f (seq 0 n) init).
Proof.
  intros H0 Hstep. induction n as [|n IH]; [exact H0|].
  rewrite seq_S, fold_left_app. cbn [fold_left Nat.add].
  apply Hstep; [lia|]. apply IH. intros k s Hk. apply Hstep. lia.
Qed.

Lemma map_nth_seq {A} (l : list A) d :
  l = map (fun i => nth i l d) (seq 0 (length l)).
Proof.
  apply nth_ext with (d := d) (d' := d).
  - now rewrite length_map, length_seq.
  - intros i Hi. now rewrite (nth_map_seq _ (length l) i d).
Qed.

Lemma inputs_of_cols_length h st cols k : length (inputs_of_cols h st cols k) = length st.
Proof. apply imap_length. Qed.

(** The running input before slot [k] only reads the columns [< k]. *)
Lemma inputs_of_cols_ext h st cols cols' k :
  (forall j, (j < k)%nat -> nth j cols [] = nth j cols' []) ->
  inputs_of_cols h st cols k = inputs_of_cols h st cols' k.
Proof.
  intros H. unfold inputs_of_cols.
  rewrite !(imap_map_seq _ st []). apply map_ext. intros bi. f_equal.
  apply map_ext_in. intros j Hj. apply in_seq in Hj. now rewrite H by lia.
Qed.

Lemma slot_scores_length h tokens i : length (slot_scores h tokens i) = length tokens.
Proof.
  unfold slot_scores, einsum_bd_ad. now rewrite !length_map, head_embed_length.
Qed.

(** What holds after [k] iterations of the loop of [get_optimal_actions]. *)
Lemma decode_loop_invariant (h : QHeadMultipleActions) (st : list (list vec)) (n : nat) :
  let s := fold_left (decode_step h) (seq 0 n) (mkDecodeState [] (sos_token st) []) in
  let cols := ds_action_bins s in
  length cols = n
  /\ (forall j, (j < n)%nat -> length (nth j cols []) = length st)
  /\ ds_head_inputs s = inputs_of_cols h st cols n
  /\ (forall j, (j < n)%nat ->
        nth j cols [] = map argmax (slot_scores h (inputs_of_cols h st cols j) j))
  /\ ((0 < n)%nat -> ds_embed s = head_embed h (inputs_of_cols h st cols (n - 1))).
Proof.
  cbv zeta.
  apply (fold_left_seq_invariant (decode_step h)
    (fun k s =>
       length (ds_action_bins s) = k
       /\ (forall j, (j < k)%nat -> length (nth j (ds_action_bins s) []) = length st)
       /\ ds_head_inputs s = inputs_of_cols h st (ds_action_bins s) k
       /\ (forall j, (j < k)%nat ->
             nth j (ds_action_bins s) []
             = map argmax (slot_scores h (inputs_of_cols h st (ds_action_bins s) j) j))
       /\ ((0 < k)%nat ->
             ds_embed s = head_embed h (inputs_of_cols h st (ds_action_bins s) (k - 1))))).
  - cbn [ds_action_bins ds_head_inputs ds_embed length].
    repeat split; try (intros; lia).
    unfold sos_token, inputs_of_cols. rewrite (imap_map_seq _ st []).
    rewrite (map_nth_seq st []) at 1. rewrite map_map. reflexivity.
  - intros k s _ (Hlen & Hcols & Hin & Hsel & _).
    unfold decode_step. cbn [ds_action_bins ds_head_inputs ds_embed].
    fold (slot_scores h (ds_head_inputs s) k).
    set (cols := ds_action_bins s) in *.
    set (sel := map argmax (slot_scores h (ds_head_inputs s) k)).
    assert (Hsel_len : length sel = length st).
    { unfold sel. now rewrite length_map, slot_scores_length, Hin, inputs_of_cols_length. }
    assert (Hold : forall j, (j < k)%nat -> nth j (cols ++ [sel]) [] = nth j cols []).
    { intros j Hj. apply app_nth1. lia. }
    assert (Hnew : nth k (cols ++ [sel]) [] = sel).
    { rewrite app_nth2 by lia. rewrite Hlen, Nat.sub_diag. reflexivity. }
    split; [|split; [|split; [|split]]].
    + rewrite length_app, Hlen. simpl. lia.
    + intros j Hj. destruct (Nat.eq_dec j k) as [->|Hne].
      * now rewrite Hnew.
      * rewrite Hold by lia. apply Hcols. lia.
    + rewrite Hin. unfold inputs_of_cols.
      rewrite !(imap_map_seq _ st []).
      rewrite (map_nth_seq sel O) at 1. rewrite Hsel_len.
      rewrite map_map, zip_with_map_same.
      apply map_ext. intros bi. cbn [app]. f_equal.
      rewrite seq_S, map_app. cbn [map Nat.add]. rewrite Hnew. f_equal.
      apply map_ext_in. intros j Hj. apply in_seq in Hj. now rewrite Hold by lia.
    + intros j Hj.
      rewrite (inputs_of_cols_ext h st (cols ++ [sel]) cols j)
        by (intros j' Hj'; apply Hold; lia).
      destruct (Nat.eq_dec j k) as [->|Hne].
      * rewrite Hnew. unfold sel. now rewrite Hin.
      * rewrite Hold by lia. apply Hsel. lia.
    + intros _. replace (S k - 1)%nat with k by lia.
      rewrite (inputs_of_cols_ext h st (cols ++ [sel]) cols k)
        by (intros j' Hj'; apply Hold; lia).
      now rewrite Hin.
Qed.

Lemma argmax_from_spec (pre l : list R) (best : nat) :
  (best < length pre)%nat ->
  (forall j, (j < length pre)%nat -> nth j pre 0 <= nth best pre 0) ->
  (forall j, (j < best)%nat -> nth j pre 0 < nth best pre 0) ->
  let r := argmax_from best (nth best pre 0) (length pre) l in
  (r < length (pre ++ l))%nat
  /\ (forall j, (j < length (pre ++ l))%nat -> nth j (pre ++ l) 0 <= nth r (pre ++ l) 0)
  /\ (forall j, (j < r)%nat -> nth j (pre ++ l) 0 < nth r (pre ++ l) 0).
Proof.
  revert pre best. induction l as [|x t IH]; intros pre best Hb Hmax Hfirst; cbv zeta.
  - cbn [argmax_from]. rewrite app_nil_r. auto.
  - cbn [argmax_from].
    assert (Hpre : forall j, (j < length pre)%nat -> nth j (pre ++ [x]) 0 = nth j pre 0)
      by (intros j Hj; now apply app_nth1).
    assert (Hx : nth (length pre) (pre ++ [x]) 0 = x)
      by (rewrite app_nth2, Nat.sub_diag by lia; reflexivity).
    assert (Hlen : length (pre ++ [x]) = S (length pre))
      by (rewrite length_app; simpl; lia).
    replace (pre ++ x :: t) with ((pre ++ [x]) ++ t) by (now rewrite <- app_assoc).
    destruct (Rlt_dec (nth best pre 0) x) as [Hlt|Hge].
    + pose proof (IH (pre ++ [x]) (length pre)) as H.
      rewrite Hx, Hlen in H. apply H.
      * lia.
      * intros j Hj.
        destruct (Nat.eq_dec j (length pre)) as [->|Hne]; [rewrite Hx; lra|].
        rewrite Hpre by lia. specialize (Hmax j ltac:(lia)). lra.
      * intros j Hj. rewrite Hpre by lia. specialize (Hmax j Hj). lra.
    + pose proof (IH (pre ++ [x]) best) as H.
      rewrite (Hpre best Hb), Hlen in H. apply H.
      * lia.
      * intros j Hj.
        destruct (Nat.eq_dec j (length pre)) as [->|Hne]; [rewrite Hx; lra|].
        rewrite Hpre by lia. apply Hmax. lia.
      * intros j Hj. rewrite Hpre by lia. now apply Hfirst.
Qed.

(** [argmax] returns the first index at which the row is maximal. *)
Lemma argmax_spec (l : list R) :
  l <> [] ->
  (argmax l < length l)%nat
  /\ (forall j, (j < length l)%nat -> nth j l 0 <= nth (argmax l) l 0)
  /\ (forall j, (j < argmax l)%nat -> nth j l 0 < nth (argmax l) l 0).
Proof.
  destruct l as [|x t]; [congruence|]. intros _.
  unfold argmax.
  pose proof (argmax_from_spec [x] t 0) as H. cbn [length nth app] in H.
  apply H.
  - lia.
  - intros j Hj. replace j with 0%nat by lia. lra.
  - intros j Hj. lia.
Qed.





(** ** Q-values slot by slot *)

Lemma get_q_values_rows (h : QHeadMultipleActions) (embed : list (list vec)) :
  Forall (fun s => length s = length (hd [] embed)) embed ->
  (length (hd [] embed) <= length (action_bin_embeddings h))%nat ->
  (dueling h = true -> (length (hd [] embed) <= length (to_values h))%nat) ->
  get_q_values h embed
  = Ok (map (fun s => map (fun i => q_row h i (nth i s [])) (seq 0 (length (hd [] embed))))
            embed).
Proof.
  intros Hrect Hn Hv. unfold q_row. destruct (dueling h) eqn:Hd.
  - rewrite get_q_values_dueling by auto. reflexivity.
  - rewrite get_q_values_plain by auto. f_equal.
    apply map_ext. intros s. apply map_ext. intros i. now rewrite map_map.
Qed.

Lemma q_row_length (h : QHeadMultipleActions) i e :
  length (q_row h i e) = length (nth i (action_bin_embeddings h) []).
Proof.
  unfold q_row, dueling_q. destruct (dueling h); now rewrite !length_map.
Qed.

Lemma q_row_range (h : QHeadMultipleActions) i e x :
  In x (q_row h i e) -> 0 < x < 1.
Proof.
  unfold q_row, dueling_q. destruct (dueling h); intros Hin;
    apply in_map_iff in Hin; destruct Hin as (y & <- & _); apply sigmoid_range.
Qed.

(** The tokens of a rectangular batch stay rectangular through the head's
    transformer. *)
Lemma head_embed_rect (h : QHeadMultipleActions) tokens n :
  Forall (fun s => length s = n) tokens ->
  Forall (fun s => length s = n) (head_embed h tokens).
Proof.
  intros Hrect.
  pose proof (head_embed_lengths h tokens) as Hl.
  apply Forall_forall. intros s Hs.
  assert (Hin : In (length s) (map (@length (list R)) tokens))
    by (rewrite <- Hl; now apply in_map).
  apply in_map_iff in Hin. destruct Hin as (s' & Hs' & Hin').
  rewrite Forall_forall in Hrect. rewrite <- Hs'. now apply Hrect.
Qed.

Lemma hd_length_of_rect {A} (l : list (list A)) n :
  Forall (fun s => length s = n) l -> l <> [] -> length (hd [] l) = n.
Proof.
  intros H Hne. destruct l as [|a t]; [congruence|]. now inversion H.
Qed.

(** The Q-values the head computes from a rectangular batch of [n] tokens
    per element, [n] not exceeding the number of slots of the tables. *)
Lemma head_q_values (h : QHeadMultipleActions) (tokens : list (list vec)) (n : nat) :
  QHeadMultipleActions_wf h ->
  Forall (fun s => length s = n) tokens ->
  (n <= ma_num_actions h)%nat ->
  get_q_values h (head_embed h tokens)
  = Ok (map (fun s => map (fun i => q_row h i (nth i s [])) (seq 0 n))
            (head_embed h tokens)).
Proof.
  intros (Hlen & Htbl & Hval) Hrect Hn.
  destruct (head_embed h tokens) as [|e0 es] eqn:He.
  - unfold get_q_values. cbn. destruct (dueling h); reflexivity.
  - rewrite <- He.
    assert (Hne' : head_embed h tokens <> []) by (rewrite He; discriminate).
    pose proof (head_embed_rect h tokens n Hrect) as Hrect'.
    pose proof (hd_length_of_rect _ n Hrect' Hne') as Hhd.
    rewrite get_q_values_rows; rewrite ?Hhd; auto.
    + lia.
    + intros Hd. rewrite (Hval Hd). lia.
Qed.

Lemma head_q_values_slot (h : QHeadMultipleActions) (embed : list (list vec)) n i :
  (i < n)%nat ->
  map (fun s => nth i s [])
      (map (fun s => map (fun j => q_row h j (nth j s [])) (seq 0 n)) embed)
  = map (q_row h i) (map (fun s => nth i s []) embed).
Proof.
  intros Hi. rewrite !map_map. apply map_ext. intros s.
  now rewrite (nth_map_seq _ n i []) by exact Hi.
Qed.

(** ** Causality in the multi-action head *)

Lemma causal_layers_init params :
  Forall (fun l => TransformerAttention_wf (fst l)) params ->
  causal_layers (layers (Transformer_init true params)).
Proof.
  intros H. unfold causal_layers, Transformer_init. cbn [layers].
  induction H as [|l t Hl _ IH]; cbn [map]; constructor; auto.
Qed.

Lemma teacher_tokens_firstn (h : QHeadMultipleActions) s row n i :
  firstn (S i) (teacher_tokens h s row n)
  = firstn (S i) (teacher_tokens h s (firstn i row) n).
Proof.
  unfold teacher_tokens. rewrite !firstn_cons, !firstn_map, firstn_seq_0. f_equal.
  apply map_ext_in. intros j Hj. apply in_seq in Hj.
  now rewrite nth_firstn_lt by lia.
Qed.

Lemma inputs_of_cols_firstn (h : QHeadMultipleActions) st cols i k :
  (i <= k)%nat ->
  map (firstn (S i)) (inputs_of_cols h st cols k) = inputs_of_cols h st cols i.
Proof.
  intros Hik. unfold inputs_of_cols. rewrite !(imap_map_seq _ st []), map_map.
  apply map_ext. intros bi.
  rewrite firstn_cons, firstn_map, firstn_seq_0.
  now replace (Nat.min i k) with i by lia.
Qed.

Lemma zip_with_Forall {A B C} (f : A -> B -> C) (P : C -> Prop) l1 l2 :
  (forall a b, P (f a b)) -> Forall P (zip_with f l1 l2).
Proof.
  intros H. revert l2. induction l1 as [|a t IH]; intros [|b t2]; simpl; auto.
Qed.

Lemma teacher_tokens_length (h : QHeadMultipleActions) s row n :
  length (teacher_tokens h s row n) = S n.
Proof. unfold teacher_tokens. cbn [length]. now rewrite length_map, length_seq. Qed.

(** C5. With a [batch x num_actions] tensor of actions, the transformer
    input of the multi-action [forward] is, for every batch element, the
    pooled state token followed by the bin embeddings of the first
    [num_actions - 1] supplied actions: the embedding of action [i] sits at
    slot [i + 1], there are [num_actions] tokens, and the embedding of the
    final action is left out. *)
Theorem forward_tokens_teacher_forcing (h : QHeadMultipleActions)
    (encoded_state : list (list vec)) (actions : list (list Z)) :
  QHeadMultipleActions_wf h ->
  (1 <= ma_num_actions h)%nat ->
  length actions = length encoded_state ->
  Forall (fun row => length row = ma_num_actions h) actions ->
  actions_in_range h actions ->
  forward_tokens h encoded_state (Some actions)
  = Ok (zip_with (fun s row => teacher_tokens h s row (ma_num_actions h - 1))
                 encoded_state actions)
  /\ (forall b, (b < length encoded_state)%nat ->
        let tokens :=
          teacher_tokens h (nth b encoded_state []) (nth b actions [])
                         (ma_num_actions h - 1) in
        length tokens = ma_num_actions h
        /\ nth 0 tokens [] = reduce_mean_tokens (nth b encoded_state [])
        /\ forall i, (i < ma_num_actions h - 1)%nat ->
             nth (S i) tokens [] = action_embedding h i (nth i (nth b actions []) 0%Z)).
Proof.
  intros Hwf HN Hb Hrect Hrange. split.
  - now apply forward_tokens_shifted.
  - intros b Hlt. cbv zeta. split; [|split].
    + rewrite teacher_tokens_length. lia.
    + reflexivity.
    + intros i Hi. unfold teacher_tokens. cbn [nth].
      now rewrite (nth_map_seq _ (ma_num_actions h - 1) i []) by exact Hi.
Qed.

(** The teacher-forced forward pass, in closed form. *)
Lemma forward_actions_q (h : QHeadMultipleActions) (st : list (list vec))
    (actions : list (list Z)) :
  QHeadMultipleActions_wf h ->
  (1 <= ma_num_actions h)%nat ->
  length actions = length st ->
  Forall (fun row => length row = ma_num_actions h) actions ->
  actions_in_range h actions ->
  QHeadMultipleActions_forward h st (Some actions)
  = Ok (map (fun s => map (fun j => q_row h j (nth j s [])) (seq 0 (ma_num_actions h)))
            (head_embed h
               (zip_with (fun s row => teacher_tokens h s row (ma_num_actions h - 1))
                         st actions))).
Proof.
  intros Hwf HN Hb Hrect Hrange. unfold QHeadMultipleActions_forward.
  rewrite forward_tokens_shifted by assumption. cbn [bind].
  apply head_q_values; [exact Hwf | | lia].
  apply zip_with_Forall. intros s row. rewrite teacher_tokens_length. lia.
Qed.

(** The forward pass without actions, in closed form: one slot. *)
Lemma forward_no_actions_q (h : QHeadMultipleActions) (st : list (list vec)) :
  QHeadMultipleActions_wf h ->
  (1 <= ma_num_actions h)%nat ->
  QHeadMultipleActions_forward h st None
  = Ok (map (fun s => map (fun j => q_row h j (nth j s [])) (seq 0 1))
            (head_embed h (sos_token st))).
Proof.
  intros Hwf HN. unfold QHeadMultipleActions_forward, forward_tokens. cbn [bind].
  apply head_q_values; [exact Hwf | | lia].
  unfold sos_token. apply Forall_forall. intros s Hs.
  apply in_map_iff in Hs. destruct Hs as (x & <- & _). reflexivity.
Qed.

(** C3. In the multi-action head, whose transformer the constructor builds
    with [causal = True], slot [i] never attends to a later slot and its
    embedding depends only on the tokens of the slots [<= i]:
    - every attention layer is causal, and a causal [Attend] gives weight
      zero to every key that lies after the query (keys follow the memory
      tokens);
    - two token sequences that agree on the slots [<= i] have the same
      embedding at slot [i];
    - teacher forcing: two action tensors that agree on the actions before
      slot [i] give the same Q-values at slot [i];
    - decoding: the embedding at slot [i] in the last pass of
      [get_optimal_actions] is the embedding from which the bin of slot [i]
      was selected, whatever was appended afterwards. *)
Theorem multi_action_head_causal (na : option nat) (bins : nat) (d : bool)
    (p : MultiParams) :
  MultiParams_wf na bins d p ->
  let h := QHeadMultipleActions_init na bins d p in
  (forall l, In l (layers (ma_transformer h)) -> ta_causal (fst l) = true)
  /\ (forall q mk kx i j,
        length kx = length q -> (i + length mk < j)%nat ->
        Attend_weight true None q (mk ++ kx) i j = 0)
  /\ (forall tokens tokens' i,
        map (firstn (S i)) tokens = map (firstn (S i)) tokens' ->
        map (fun s => nth i s []) (head_embed h tokens)
        = map (fun s => nth i s []) (head_embed h tokens'))
  /\ (forall st actions actions' i,
        (i < ma_num_actions h)%nat ->
        length actions = length st -> length actions' = length st ->
        Forall (fun row => length row = ma_num_actions h) actions ->
        Forall (fun row => length row = ma_num_actions h) actions' ->
        actions_in_range h actions -> actions_in_range h actions' ->
        map (firstn i) actions = map (firstn i) actions' ->
        exists q q',
          QHeadMultipleActions_forward h st (Some actions) = Ok q
          /\ QHeadMultipleActions_forward h st (Some actions') = Ok q'
          /\ map (fun s => nth i s []) q = map (fun s => nth i s []) q')
  /\ (forall st i,
        (i < ma_num_actions h)%nat ->
        map (fun s => nth i s []) (ds_embed (decode_loop h st))
        = map (fun s => nth i s [])
              (head_embed h (inputs_of_cols h st (ds_action_bins (decode_loop h st)) i))).
Proof.
  intros (Hshapes & Hmem). cbv zeta.
  set (h := QHeadMultipleActions_init na bins d p).
  assert (Hwf : QHeadMultipleActions_wf h) by exact Hshapes.
  assert (Hc : causal_layers (layers (ma_transformer h)))
    by (apply causal_layers_init; exact Hmem).
  split; [|split; [|split; [|split]]].
  - intros l Hl. unfold causal_layers in Hc. rewrite Forall_forall in Hc.
    now apply Hc.
  - intros q mk kx i j Hk Hj. now apply Attend_weight_beyond.
  - intros tokens tokens' i Heq. now apply head_embed_slot.
  - intros st actions actions' i Hi Hb Hb' Hrect Hrect' Hrange Hrange' Hagree.
    eexists. eexists.
    split; [apply forward_actions_q; auto; lia|].
    split; [apply forward_actions_q; auto; lia|].
    rewrite !head_q_values_slot by exact Hi. f_equal.
    apply head_embed_slot; [exact Hc|].
    rewrite !map_zip_with.
    transitivity (zip_with (fun s row =>
                    firstn (S i) (teacher_tokens h s row (ma_num_actions h - 1)))
                    st (map (firstn i) actions)).
    + rewrite zip_with_map_r. revert actions Hb Hrect Hrange Hagree.
      clear. intros actions _ _ _ _. revert actions.
      induction st as [|s t IH]; intros [|r rs]; cbn [zip_with]; auto.
      f_equal; [apply teacher_tokens_firstn | apply IH].
    + rewrite Hagree, zip_with_map_r. clear.
      revert actions'. induction st as [|s t IH]; intros [|r rs]; cbn [zip_with]; auto.
      f_equal; [symmetry; apply teacher_tokens_firstn | apply IH].
  - intros st i Hi.
    pose proof (decode_loop_invariant h st (ma_num_actions h)) as Hinv.
    cbv zeta in Hinv. destruct Hinv as (_ & _ & _ & _ & Hemb).
    fold (decode_loop h st) in Hemb.
    rewrite Hemb by lia.
    apply head_embed_slot; [exact Hc|].
    rewrite !inputs_of_cols_firstn by lia. reflexivity.
Qed.

(** ** Range and shape of the Q-values *)

Lemma in_concat_map {A B} (f : A -> B) (l : list (list A)) x :
  In x (concat (map (map f) l)) -> exists y, x = f y.
Proof.
  intros H. apply in_concat in H. destruct H as (row & Hrow & Hx).
  apply in_map_iff in Hrow. destruct Hrow as (r & <- & _).
  apply in_map_iff in Hx. destruct Hx as (y & <- & _). now exists y.
Qed.

Lemma in_concat3_map {A B} (f : A -> B) (l : list (list (list A))) x :
  In x (concat (concat (map (map (map f)) l))) -> exists y, x = f y.
Proof.
  intros H. apply in_concat in H. destruct H as (row & Hrow & Hx).
  apply in_concat in Hrow. destruct Hrow as (s & Hs & Hrow).
  apply in_map_iff in Hs. destruct Hs as (s0 & <- & _).
  apply in_map_iff in Hrow. destruct Hrow as (r & <- & _).
  apply in_map_iff in Hx. destruct Hx as (y & <- & _). now exists y.
Qed.

Lemma get_q_values_range (h : QHeadMultipleActions) embed q x :
  get_q_values h embed = Ok q -> In x (concat (concat q)) -> 0 < x < 1.
Proof.
  unfold get_q_values. intros H Hx.
  destruct (negb _); [discriminate|].
  destruct (dueling h).
  - destruct (negb _); [discriminate|]. injection H as <-.
    apply in_concat3_map in Hx. destruct Hx as (y & ->). apply sigmoid_range.
  - injection H as <-.
    apply in_concat3_map in Hx. destruct Hx as (y & ->). apply sigmoid_range.
Qed.

Lemma QHeadMultipleActions_forward_range (h : QHeadMultipleActions) st actions q x :
  QHeadMultipleActions_forward h st actions = Ok q ->
  In x (concat (concat q)) -> 0 < x < 1.
Proof.
  unfold QHeadMultipleActions_forward. intros H.
  destruct (forward_tokens h st actions) as [tokens|e]; [|discriminate].
  cbn [bind] in H. intros Hx.
  exact (get_q_values_range h (head_embed h tokens) q x H Hx).
Qed.

Lemma QHeadSingleAction_forward_range (h : QHeadSingleAction) st q x :
  QHeadSingleAction_forward h st = Ok q -> In x (concat q) -> 0 < x < 1.
Proof.
  unfold QHeadSingleAction_forward. intros H Hx.
  destruct (Reduce_tokens _ st) as [pooled|e]; [|discriminate]. cbn [bind] in H.
  destruct (sa_to_q_values h) as [dh|ln lin]; injection H as <-.
  - unfold DuelingHead_forward in Hx.
    apply in_concat in Hx. destruct Hx as (row & Hrow & Hx).
    apply in_map_iff in Hrow. destruct Hrow as (xb & <- & _).
    apply in_map_iff in Hx. destruct Hx as (y & <- & _). apply sigmoid_range.
  - apply in_concat in Hx. destruct Hx as (row & Hrow & Hx).
    apply in_map_iff in Hrow. destruct Hrow as (xb & <- & _).
    apply in_map_iff in Hx. destruct Hx as (y & <- & _). apply sigmoid_range.
Qed.

Lemma dueling_q_length v adv : length (dueling_q v adv) = length adv.
Proof. unfold dueling_q. apply length_map. Qed.

Lemma Reduce_tokens_ok n st :
  (0 < n)%nat ->
  Forall (fun s => (length s mod n = 0)%nat) st ->
  Reduce_tokens n st = Ok (map reduce_mean_tokens st).
Proof.
  intros Hn Hdiv. unfold Reduce_tokens.
  replace (forallb _ st) with true; [reflexivity|].
  symmetry. apply forallb_forall. intros s Hs.
  rewrite Forall_forall in Hdiv. rewrite (Hdiv s Hs).
  apply andb_true_iff. split; [apply Nat.ltb_lt; lia | reflexivity].
Qed.

Lemma QHeadSingleAction_forward_shape (h : QHeadSingleAction) (st : list (list vec)) :
  QHeadSingleAction_wf h ->
  (0 < sa_num_learned_tokens h)%nat ->
  Forall (fun s => (length s mod sa_num_learned_tokens h = 0)%nat) st ->
  exists q,
    QHeadSingleAction_forward h st = Ok q
    /\ length q = length st
    /\ Forall (fun row => length row = sa_action_bins h) q.
Proof.
  intros Hwf Hn Hdiv. unfold QHeadSingleAction_forward, QHeadSingleAction_wf in *.
  rewrite Reduce_tokens_ok by assumption. cbn [bind].
  destruct (sa_to_q_values h) as [dh|ln lin]; eexists; (split; [reflexivity|]).
  - destruct Hwf as (Hv & Ha). split.
    + unfold DuelingHead_forward. now rewrite !length_map.
    + apply Forall_forall. intros row Hrow.
      destruct (In_nth _ _ [] Hrow) as (b & Hb & <-).
      assert (Hb' : (b < length (map reduce_mean_tokens st))%nat)
        by (unfold DuelingHead_forward in Hb; now rewrite length_map in Hb).
      rewrite DuelingHead_forward_row by assumption.
      now rewrite dueling_q_length, Linear_forward_length.
  - split; [now rewrite !length_map|].
    apply Forall_forall. intros row Hrow.
    apply in_map_iff in Hrow. destruct Hrow as (xb & <- & _).
    now rewrite length_map, Linear_forward_length.
Qed.

Lemma q_rows_shape (h : QHeadMultipleActions) (embed : list (list vec)) n :
  QHeadMultipleActions_wf h ->
  (n <= ma_num_actions h)%nat ->
  Forall (fun s => length s = n /\ Forall (fun row => length row = ma_action_bins h) s)
         (map (fun s => map (fun j => q_row h j (nth j s [])) (seq 0 n)) embed).
Proof.
  intros (Hlen & Htbl & _) Hn. apply Forall_forall. intros s Hs.
  apply in_map_iff in Hs. destruct Hs as (e & <- & _). split.
  - now rewrite length_map, length_seq.
  - apply Forall_forall. intros row Hrow.
    apply in_map_iff in Hrow. destruct Hrow as (j & <- & Hj). apply in_seq in Hj.
    rewrite q_row_length. rewrite Forall_forall in Htbl. apply Htbl.
    apply nth_In. lia.
Qed.

(** C1, as the code has it.  For a model built by the constructor from
    well-shaped parameters, with a head of at least one slot, and for the
    calls whose encoded state is a tensor of real numbers (a state with nan
    entries, as [posemb_sincos_1d] makes when it divides by
    [dim // 2 - 1 = 0], is left out):
    - every Q-value that [forward] returns lies in [[0, 1]];
    - in single-action mode [forward] returns a [batch x action_bins]
      tensor;
    - in multi-action mode without actions it returns a
      [batch x 1 x action_bins] tensor, the Q-values of the first slot;
    - in multi-action mode with a [batch x num_actions] tensor of actions
      whose bins index the tables, and a head built for [num_actions] slots,
      it returns a [batch x num_actions x action_bins] tensor.
    The batch is that of the encoded state. *)
Theorem forward_q_values {Video Texts : Type}
    (enc : Video -> option Texts -> option (list (list Z)) -> R -> result (list (list vec)))
    (n_actions bins nlt : nat) (duel : bool) (kw : option nat)
    (sp : SingleParams) (mp : MultiParams) (m : QRoboticTransformer Video Texts)
    (video : Video) (texts : option Texts) (cdp : R) :
  QRoboticTransformer_init enc n_actions bins nlt duel kw sp mp = Ok m ->
  QHeadSingleAction_wf (QHeadSingleAction_init nlt bins duel sp) ->
  MultiParams_wf kw bins duel mp ->
  (1 <= default kw 8)%nat ->
  (forall actions q x,
     QRoboticTransformer_forward m video texts actions cdp = Ok q ->
     In x (entries q) -> 0 <= x <= 1)
  /\ (forall st,
        is_single_action m = true ->
        enc video texts None cdp = Ok st ->
        (0 < nlt)%nat ->
        Forall (fun s => (length s mod nlt = 0)%nat) st ->
        exists q,
          QRoboticTransformer_forward m video texts None cdp = Ok q
          /\ has_shape q [length st; action_bins m])
  /\ (forall st,
        is_single_action m = false ->
        enc video texts None cdp = Ok st ->
        exists q,
          QRoboticTransformer_forward m video texts None cdp = Ok q
          /\ has_shape q [length st; 1%nat; action_bins m])
  /\ (forall st actions,
        is_single_action m = false ->
        enc video texts (Some actions) cdp = Ok st ->
        default kw 8%nat = num_actions m ->
        length actions = length st ->
        Forall (fun row => length row = num_actions m) actions ->
        Forall (Forall (fun a => (0 <= a < Z.of_nat (action_bins m))%Z)) actions ->
        exists q,
          QRoboticTransformer_forward m video texts (Some actions) cdp = Ok q
          /\ has_shape q [length st; num_actions m; action_bins m]).
Proof.
  intros Hinit Hsp Hmp Hkw.
  unfold QRoboticTransformer_init in Hinit.
  destruct (negb (1 <=? n_actions)%nat); [discriminate|].
  injection Hinit as <-.
  cbn [is_single_action num_actions action_bins].
  set (sh := QHeadSingleAction_init nlt bins duel sp) in *.
  set (mh := QHeadMultipleActions_init kw bins duel mp).
  assert (Hmwf : QHeadMultipleActions_wf mh) by exact (proj1 Hmp).
  split; [|split; [|split]].
  - intros actions q x Hfw Hx.
    unfold QRoboticTransformer_forward in Hfw.
    cbn [encode_state is_single_action q_head] in Hfw.
    destruct (enc video texts actions cdp) as [st|e]; [|discriminate].
    cbn [bind] in Hfw.
    assert (0 < x < 1); [|lra].
    destruct (n_actions =? 1)%nat.
    + destruct (exists_ actions); [discriminate|].
      cbn [QHead_call] in Hfw.
      destruct (QHeadSingleAction_forward sh st) as [q0|e] eqn:Hq; [|discriminate].
      cbn [bind] in Hfw. injection Hfw as <-.
      exact (QHeadSingleAction_forward_range sh st q0 x Hq Hx).
    + cbn [QHead_call default] in Hfw.
      destruct (QHeadMultipleActions_forward mh st actions) as [q0|e] eqn:Hq; [|discriminate].
      cbn [bind] in Hfw. injection Hfw as <-.
      exact (QHeadMultipleActions_forward_range mh st actions q0 x Hq Hx).
  - intros st Hsingle Henc Hn Hdiv.
    unfold QRoboticTransformer_forward.
    cbn [encode_state is_single_action q_head]. rewrite Henc, Hsingle.
    cbn [bind exists_ QHead_call].
    destruct (QHeadSingleAction_forward_shape sh st Hsp Hn Hdiv) as (q & Hq & Hlen & Hrows).
    exists (Q2 q). rewrite Hq. cbn [bind]. split; [reflexivity|].
    cbn [has_shape]. split; assumption.
  - intros st Hmulti Henc.
    unfold QRoboticTransformer_forward.
    cbn [encode_state is_single_action q_head]. rewrite Henc, Hmulti.
    cbn [bind QHead_call default].
    rewrite forward_no_actions_q by assumption. cbn [bind].
    eexists. split; [reflexivity|]. cbn [has_shape]. split.
    + unfold sos_token. now rewrite length_map, head_embed_length, length_map.
    + exact (q_rows_shape mh _ 1 Hmwf Hkw).
  - intros st actions Hmulti Henc Hsame Hb Hrect Hrange.
    unfold QRoboticTransformer_forward.
    cbn [encode_state is_single_action q_head]. rewrite Henc, Hmulti.
    cbn [bind QHead_call default].
    assert (HN : ma_num_actions mh = n_actions) by exact Hsame.
    rewrite forward_actions_q; try assumption; rewrite ?HN; try assumption; try lia.
    cbn [bind]. eexists. split; [reflexivity|]. cbn [has_shape]. split.
    + rewrite length_map, head_embed_length.
      rewrite zip_with_length, Hb. apply Nat.min_id.
    + rewrite <- HN. exact (q_rows_shape mh _ (ma_num_actions mh) Hmwf (le_n _)).
Qed.

(** ** Assertions and attribute errors *)

(** C6. A model constructed with [num_actions = 1] never returns Q-values
    from a [forward] call that passes an actions tensor.  [forward] encodes
    the state before it checks the actions: when [encode_state] returns,
    the call raises [AssertionError]; when [encode_state] raises, the call
    raises that exception instead. *)
Theorem forward_single_action_rejects_actions {Video Texts : Type}
    (enc : Video -> option Texts -> option (list (list Z)) -> R -> result (list (list vec)))
    (bins nlt : nat) (duel : bool) (kw : option nat)
    (sp : SingleParams) (mp : MultiParams) (m : QRoboticTransformer Video Texts)
    (video : Video) (texts : option Texts) (actions : list (list Z)) (cdp : R) :
  QRoboticTransformer_init enc 1 bins nlt duel kw sp mp = Ok m ->
  is_single_action m = true
  /\ (forall q, QRoboticTransformer_forward m video texts (Some actions) cdp <> Ok q)
  /\ (forall st,
        enc video texts (Some actions) cdp = Ok st ->
        QRoboticTransformer_forward m video texts (Some actions) cdp
        = Raise AssertionError)
  /\ (forall e,
        enc video texts (Some actions) cdp = Raise e ->
        QRoboticTransformer_forward m video texts (Some actions) cdp = Raise e).
Proof.
  intros Hinit. cbn in Hinit. injection Hinit as <-.
  unfold QRoboticTransformer_forward. cbn [encode_state is_single_action].
  split; [reflexivity|]. split; [|split].
  - intros q. destruct (enc video texts (Some actions) cdp); cbn; discriminate.
  - intros st Henc. rewrite Henc. reflexivity.
  - intros e Henc. rewrite Henc. reflexivity.
Qed.

Lemma QHeadMultipleActions_device_raises (h : QHeadMultipleActions) :
  mem_string "action_embeddings" Module_attrs = false ->
  QHeadMultipleActions_device h = Raise AttributeError.
Proof.
  intros Hm. unfold QHeadMultipleActions_device, getattr_plain, QHeadMultipleActions_dict.
  destruct (dueling h); cbn; rewrite Hm; reflexivity.
Qed.

Lemma QHeadMultipleActions_get_random_actions_raises (h : QHeadMultipleActions) b :
  mem_string "action_embeddings" Module_attrs = false ->
  QHeadMultipleActions_get_random_actions h b = Raise AttributeError.
Proof.
  intros Hm. unfold QHeadMultipleActions_get_random_actions, QHeadMultipleActions_getattr.
  cbn [String.eqb Ascii.eqb Bool.eqb].
  rewrite QHeadMultipleActions_device_raises by exact Hm.
  unfold getattr_plain, QHeadMultipleActions_dict. destruct (dueling h); reflexivity.
Qed.

Lemma QHeadSingleAction_device_raises (h : QHeadSingleAction) :
  mem_string "device" Module_attrs = false ->
  QHeadSingleAction_getattr h "device" = Raise AttributeError.
Proof.
  intros Hm. unfold QHeadSingleAction_getattr, getattr_plain. cbn. now rewrite Hm.
Qed.

Lemma QHeadSingleAction_get_random_actions_raises (h : QHeadSingleAction) b :
  mem_string "device" Module_attrs = false ->
  QHeadSingleAction_get_random_actions h b = Raise AttributeError.
Proof.
  intros Hm. unfold QHeadSingleAction_get_random_actions.
  rewrite QHeadSingleAction_device_raises by exact Hm. reflexivity.
Qed.

(** C9. [torch.nn.Module] provides neither [device] nor
    [action_embeddings]; hence for every batch size [get_random_actions]
    raises [AttributeError] on both heads, the [device] property of the
    multi-action head reading the missing attribute [action_embeddings] and
    the single-action head reading the missing attribute [device]; so do
    [QRoboticTransformer.get_random_actions] and [get_actions] whenever it
    takes the exploration branch. *)
Theorem get_random_actions_raises :
  mem_string "device" Module_attrs = false ->
  mem_string "action_embeddings" Module_attrs = false ->
  (forall h, QHeadMultipleActions_device h = Raise AttributeError)
  /\ (forall h b, QHeadMultipleActions_get_random_actions h b = Raise AttributeError)
  /\ (forall h, QHeadSingleAction_getattr h "device" = Raise AttributeError)
  /\ (forall h b, QHeadSingleAction_get_random_actions h b = Raise AttributeError)
  /\ (forall (Video Texts : Type) (m : QRoboticTransformer Video Texts) b,
        QRoboticTransformer_get_random_actions m b = Raise AttributeError)
  /\ (forall (Video Texts : Type) (video_batch : Video -> nat)
             (m : QRoboticTransformer Video Texts) u video texts actions cdp
             return_q_values prob,
        0 <= prob <= 1 -> u < prob ->
        get_actions video_batch m u video texts actions cdp return_q_values prob
        = Raise AttributeError).
Proof.
  intros Hdev Hemb.
  assert (Hhead : forall hd b, QHead_get_random_actions hd b = Raise AttributeError).
  { intros [sh|mh] b; cbn [QHead_get_random_actions].
    - now apply QHeadSingleAction_get_random_actions_raises.
    - now apply QHeadMultipleActions_get_random_actions_raises. }
  assert (Hm : forall (Video Texts : Type) (m : QRoboticTransformer Video Texts) b,
             QRoboticTransformer_get_random_actions m b = Raise AttributeError).
  { intros Video Texts m b. unfold QRoboticTransformer_get_random_actions. now rewrite Hhead. }
  repeat split.
  - intros h. now apply QHeadMultipleActions_device_raises.
  - intros h b. now apply QHeadMultipleActions_get_random_actions_raises.
  - intros h. now apply QHeadSingleAction_device_raises.
  - intros h b. now apply QHeadSingleAction_get_random_actions_raises.
  - exact Hm.
  - intros Video Texts video_batch m u video texts actions cdp rq prob [H0 H1] Hu.
    unfold get_actions.
    destruct (Rle_dec 0 prob); [|contradiction].
    destruct (Rle_dec prob 1); [|contradiction].
    destruct (Rlt_dec u prob); [|contradiction].
    apply Hm.
Qed.

(** ** [TokenLearner] *)

Lemma sequence_map_Forall {A B} (f : A -> result B) (P : B -> Prop) l :
  (forall x, In x l -> exists y, f x = Ok y /\ P y) ->
  exists ys, sequence (map f l) = Ok ys /\ length ys = length l /\ Forall P ys.
Proof.
  induction l as [|a t IH]; intros H.
  - exists []. repeat split; constructor.
  - destruct (H a (or_introl eq_refl)) as (y & Hy & HP).
    destruct IH as (ys & Hys & Hlen & HF); [intros x Hx; apply H; now right|].
    exists (y :: ys). cbn [map sequence]. rewrite Hy. cbn [bind]. rewrite Hys. cbn [bind].
    repeat split; [simpl; now rewrite Hlen | now constructor].
Qed.

Lemma repeat_channels_length g (x : image) :
  length (repeat_channels g x) = (g * length x)%nat.
Proof.
  unfold repeat_channels. induction g as [|g IH]; [reflexivity|].
  cbn [repeat concat]. rewrite length_app, IH. lia.
Qed.

Lemma Conv2d_forward_ok cv (x : image) :
  length x = cv_in_channels cv ->
  exists y, Conv2d_forward cv x = Ok y /\ length y = length (cv_weight cv).
Proof.
  intros Hc. unfold Conv2d_forward. rewrite Hc, Nat.eqb_refl. cbn [negb].
  eexists. split; [reflexivity|]. apply imap_length.
Qed.

Lemma TokenLearner_image_shape (dim ff_mult g : nat)
    (w1 : list vec) (b1 : vec) (w2 : list vec) (b2 : vec) (x : image) :
  (0 < g)%nat ->
  length w1 = (dim * ff_mult * g)%nat ->
  length w2 = g ->
  length x = dim ->
  exists t,
    TokenLearner_image (TokenLearner_init dim ff_mult g w1 b1 w2 b2) x = Ok t
    /\ length t = dim /\ Forall (fun row => length row = g) t.
Proof.
  intros Hg Hw1 Hw2 Hx. unfold TokenLearner_image, TokenLearner_init.
  cbn [tl_num_output_tokens tl_conv1 tl_conv2].
  set (xr := repeat_channels g x).
  assert (Hxr : length xr = (dim * g)%nat)
    by (unfold xr; rewrite repeat_channels_length, Hx; lia).
  destruct (Conv2d_forward_ok (mkConv2d (dim * g) (dim * ff_mult * g) g w1 b1) xr Hxr)
    as (a1 & Ha1 & Hl1).
  rewrite Ha1. cbn [bind].
  destruct (Conv2d_forward_ok (mkConv2d (dim * ff_mult * g) g g w2 b2)
              (map (map (map GELU)) a1)) as (attn & Hattn & Hl2).
  { rewrite length_map, Hl1. exact Hw1. }
  rewrite Hattn. cbn [bind].
  cbn [cv_weight] in Hl2. rewrite Hl2, Hw2, Hxr.
  rewrite Nat.Div0.mod_mul, Nat.div_mul by lia.
  rewrite !Nat.eqb_refl.
  replace (g =? 0)%nat with false by (symmetry; apply Nat.eqb_neq; lia).
  cbn [negb orb].
  eexists. split; [reflexivity|]. split.
  - now rewrite length_map, length_seq.
  - apply Forall_forall. intros row Hrow.
    apply in_map_iff in Hrow. destruct Hrow as (ci & <- & _).
    now rewrite length_map, length_seq.
Qed.

Lemma pack_one_ok (x : packed image) (dim h w : nat) :
  (0 < dim)%nat -> (0 < h)%nat -> (0 < w)%nat ->
  Forall (fun img => length img = dim /\ image_shape img h w) (items x) ->
  pack_one x = Ok (items x, lead x).
Proof.
  intros Hdim Hh Hw Hx. unfold pack_one.
  destruct (items x) as [|img rest]; [reflexivity|].
  inversion Hx as [|? ? [Hlen Hshape] _]; subst.
  unfold height, width.
  destruct img as [|ch chs]; [simpl in Hdim; lia|]. cbn [hd length].
  unfold image_shape in Hshape. inversion Hshape as [|? ? [Hch Hrows] _]; subst.
  destruct ch as [|row rows]; [simpl in Hh; lia|]. cbn [hd length].
  inversion Hrows as [|? ? Hrow _]; subst.
  destruct row; [simpl in Hw; lia|]. reflexivity.
Qed.

(** C7. For a [TokenLearner] built with positive [dim], [ff_mult] and
    [num_output_tokens], and a non-empty batch of feature maps of every
    positive height and width with [dim] channels, [forward] returns, for
    every frame of the packed leading axes, [dim] rows of exactly
    [num_output_tokens] tokens, and hands the leading axes back
    unchanged. *)
Theorem TokenLearner_forward_shape (dim ff_mult g h w : nat)
    (w1 : list vec) (b1 : vec) (w2 : list vec) (b2 : vec) (x : packed image) :
  (0 < g)%nat -> (0 < dim)%nat -> (0 < ff_mult)%nat -> (0 < h)%nat -> (0 < w)%nat ->
  length w1 = (dim * ff_mult * g)%nat ->
  length w2 = g ->
  items x <> [] ->
  Forall (fun img => length img = dim /\ image_shape img h w) (items x) ->
  exists out,
    TokenLearner_forward (TokenLearner_init dim ff_mult g w1 b1 w2 b2) x = Ok out
    /\ lead out = lead x
    /\ length (items out) = length (items x)
    /\ Forall (fun t => length t = dim /\ Forall (fun row => length row = g) t)
              (items out).
Proof.
  intros Hg Hdim _ Hh Hw Hw1 Hw2 _ Hx. unfold TokenLearner_forward.
  rewrite (pack_one_ok x dim h w) by assumption. cbn [bind]. unfold unpack_one.
  destruct (sequence_map_Forall
              (TokenLearner_image (TokenLearner_init dim ff_mult g w1 b1 w2 b2))
              (fun t => length t = dim /\ Forall (fun row => length row = g) t)
              (items x)) as (ys & Hys & Hlen & HF).
  { intros img Himg. rewrite Forall_forall in Hx.
    destruct (TokenLearner_image_shape dim ff_mult g w1 b1 w2 b2 img Hg Hw1 Hw2
                (proj1 (Hx img Himg))) as (t & Ht & Hshape).
    now exists t. }
  rewrite Hys. cbn [bind]. eexists. split; [reflexivity|].
  cbn [lead items]. repeat split; assumption.
Qed.

(* ================================================================= *)
(** * Part II, continued: further properties of the module *)
(* ================================================================= *)

(** ** The relative-position table as an index into the bias table *)

Lemma rel_pos_indices_bounds (w i j : nat) :
  (i < w * w)%nat -> (j < w * w)%nat ->
  (0 <= nth j (nth i (rel_pos_indices w) []) 0
   < (2 * Z.of_nat w - 1) * (2 * Z.of_nat w - 1))%Z.
Proof.
  intros Hi Hj. rewrite rel_pos_indices_nth by assumption.
  assert (Hw : (0 < w)%nat) by (destruct w; lia).
  pose proof (Nat.Div0.div_lt_upper_bound i w w ltac:(lia)) as Hiq.
  pose proof (Nat.Div0.div_lt_upper_bound j w w ltac:(lia)) as Hjq.
  pose proof (Nat.mod_upper_bound i w ltac:(lia)) as Hir.
  pose proof (Nat.mod_upper_bound j w ltac:(lia)) as Hjr.
  nia.
Qed.

(** X1. The table has [window_size^2] rows and columns, and every entry is
    a valid row of the [(2 * window_size - 1)^2]-row bias embedding: the
    lookup in [forward] never leaves the table. *)
Theorem rel_pos_indices_in_range (w i j : nat) :
  (i < w * w)%nat -> (j < w * w)%nat ->
  length (rel_pos_indices w) = (w * w)%nat
  /\ length (nth i (rel_pos_indices w) []) = (w * w)%nat
  /\ (0 <= nth j (nth i (rel_pos_indices w) []) 0
      < (2 * Z.of_nat w - 1) * (2 * Z.of_nat w - 1))%Z.
Proof.
  intros Hi Hj. split; [apply rel_pos_indices_length|].
  split; [now apply rel_pos_indices_row_length|]. now apply rel_pos_indices_bounds.
Qed.

Lemma rel_pos_indices_same_offset (w i j i' j' : nat) :
  (i < w * w)%nat -> (j < w * w)%nat -> (i' < w * w)%nat -> (j' < w * w)%nat ->
  nth j (nth i (rel_pos_indices w) []) 0%Z = nth j' (nth i' (rel_pos_indices w) []) 0%Z
  <-> (Z.of_nat (i / w) - Z.of_nat (j / w) = Z.of_nat (i' / w) - Z.of_nat (j' / w)
       /\ Z.of_nat (i mod w) - Z.of_nat (j mod w)
          = Z.of_nat (i' mod w) - Z.of_nat (j' mod w))%Z.
Proof.
  intros Hi Hj Hi' Hj'. rewrite !rel_pos_indices_nth by assumption.
  assert (Hw : (0 < w)%nat) by (destruct w; lia).
  pose proof (Nat.mod_upper_bound i w ltac:(lia)) as Hir.
  pose proof (Nat.mod_upper_bound j w ltac:(lia)) as Hjr.
  pose proof (Nat.mod_upper_bound i' w ltac:(lia)) as Hir'.
  pose proof (Nat.mod_upper_bound j' w ltac:(lia)) as Hjr'.
  split; [|intros [-> ->]; reflexivity].
  intros Heq.
  set (B := (2 * Z.of_nat w - 1)%Z) in *.
  set (a := (Z.of_nat (i / w) - Z.of_nat (j / w) + (Z.of_nat w - 1))%Z) in *.
  set (a' := (Z.of_nat (i' / w) - Z.of_nat (j' / w) + (Z.of_nat w - 1))%Z) in *.
  set (c := (Z.of_nat (i mod w) - Z.of_nat (j mod w) + (Z.of_nat w - 1))%Z) in *.
  set (c' := (Z.of_nat (i' mod w) - Z.of_nat (j' mod w) + (Z.of_nat w - 1))%Z) in *.
  assert (Hc : (0 <= c < B)%Z) by (unfold c, B; lia).
  assert (Hc' : (0 <= c' < B)%Z) by (unfold c', B; lia).
  assert (Ha : a = a').
  { destruct (Z.lt_trichotomy a a') as [Hlt|[Heq'|Hgt]]; [|exact Heq'|]; nia. }
  assert (Hcc : c = c') by (subst a'; lia).
  unfold a, a', c, c' in *. lia.
Qed.

(** X2. Two pairs of window positions share an entry of the table exactly
    when they have the same row offset and the same column offset: the bias
    depends on the relative position only, and distinct relative positions
    get distinct rows of the bias table. *)
Theorem rel_pos_indices_offset_iff (w i j i' j' : nat) :
  (i < w * w)%nat -> (j < w * w)%nat -> (i' < w * w)%nat -> (j' < w * w)%nat ->
  nth j (nth i (rel_pos_indices w) []) 0%Z = nth j' (nth i' (rel_pos_indices w) []) 0%Z
  <-> zip_with Z.sub (nth i (grid w) []) (nth j (grid w) [])
      = zip_with Z.sub (nth i' (grid w) []) (nth j' (grid w) []).
Proof.
  intros Hi Hj Hi' Hj'.
  rewrite rel_pos_indices_same_offset by assumption.
  rewrite !grid_nth by assumption. cbn [zip_with].
  split.
  - intros [H1 H2]. now rewrite H1, H2.
  - intros H. injection H as H1 H2. split; assumption.
Qed.

(** ** The windowed [Attention] *)

Lemma Attention_bias_length (a : Attention) num_mem :
  length (Attention_bias a num_mem) = (at_window_size a * at_window_size a)%nat.
Proof. unfold Attention_bias. now rewrite length_map, rel_pos_indices_length. Qed.

Lemma Attention_bias_row (a : Attention) num_mem i :
  (i < at_window_size a * at_window_size a)%nat ->
  nth i (Attention_bias a num_mem) []
  = repeat (repeat 0 (at_heads a)) num_mem
    ++ map (fun idx => nth (Z.to_nat idx) (at_rel_pos_bias a) [])
           (nth i (rel_pos_indices (at_window_size a)) []).
Proof.
  intros Hi. unfold Attention_bias.
  now rewrite (nth_map_in _ _ i [] []) by (now rewrite rel_pos_indices_length).
Qed.

(** X3. The bias that [forward] adds to the similarities: it has one row
    per window position and [num_mem + window_size^2] columns; the columns
    of the memory tokens are zero for every head; the column of window
    position [j] holds the row of the bias table selected by
    [rel_pos_indices[i][j]], which lies inside a table of
    [(2 * window_size - 1)^2] rows; and two pairs of positions with the same
    offset get the same bias. *)
Theorem Attention_bias_entries (a : Attention) (num_mem i j i' j' : nat) :
  let w := at_window_size a in
  length (at_rel_pos_bias a) = Z.to_nat ((2 * Z.of_nat w - 1) * (2 * Z.of_nat w - 1)) ->
  (i < w * w)%nat -> (j < w * w)%nat -> (i' < w * w)%nat -> (j' < w * w)%nat ->
  length (Attention_bias a num_mem) = (w * w)%nat
  /\ length (nth i (Attention_bias a num_mem) []) = (num_mem + w * w)%nat
  /\ (forall m, (m < num_mem)%nat ->
        nth m (nth i (Attention_bias a num_mem) []) [] = repeat 0 (at_heads a))
  /\ nth (num_mem + j) (nth i (Attention_bias a num_mem) []) []
     = nth (Z.to_nat (nth j (nth i (rel_pos_indices w) []) 0%Z)) (at_rel_pos_bias a) []
  /\ (Z.to_nat (nth j (nth i (rel_pos_indices w) []) 0%Z) < length (at_rel_pos_bias a))%nat
  /\ (zip_with Z.sub (nth i (grid w) []) (nth j (grid w) [])
      = zip_with Z.sub (nth i' (grid w) []) (nth j' (grid w) []) ->
      nth (num_mem + j) (nth i (Attention_bias a num_mem) []) []
      = nth (num_mem + j') (nth i' (Attention_bias a num_mem) []) []).
Proof.
  cbv zeta. intros Htbl Hi Hj Hi' Hj'.
  assert (Hentry : forall p q, (p < at_window_size a * at_window_size a)%nat ->
            (q < at_window_size a * at_window_size a)%nat ->
            nth (num_mem + q) (nth p (Attention_bias a num_mem) []) []
            = nth (Z.to_nat (nth q (nth p (rel_pos_indices (at_window_size a)) []) 0%Z))
                  (at_rel_pos_bias a) []).
  { intros p q Hp Hq. rewrite Attention_bias_row by exact Hp.
    rewrite app_nth2 by (rewrite repeat_length; lia).
    rewrite repeat_length. replace (num_mem + q - num_mem)%nat with q by lia.
    now rewrite (nth_map_in _ _ q 0%Z []) by (now rewrite rel_pos_indices_row_length). }
  split; [apply Attention_bias_length|]. split; [|split; [|split; [|split]]].
  - rewrite Attention_bias_row by exact Hi.
    now rewrite length_app, repeat_length, length_map, rel_pos_indices_row_length.
  - intros m Hm. rewrite Attention_bias_row by exact Hi.
    rewrite app_nth1 by (now rewrite repeat_length). now apply nth_repeat_lt.
  - now apply Hentry.
  - rewrite Htbl. pose proof (rel_pos_indices_bounds _ i j Hi Hj). lia.
  - intros Hoff. rewrite !Hentry by assumption. do 2 f_equal.
    apply rel_pos_indices_same_offset; try assumption.
    rewrite !grid_nth in Hoff by assumption. cbn [zip_with] in Hoff.
    injection Hoff as H1 H2. split; assumption.
Qed.

Lemma sequence_map_raise {A B} (f : A -> result B) (e : exn) (l : list A) y :
  (forall x e', f x = Raise e' -> e' = e) ->
  In y l -> f y = Raise e ->
  sequence (map f l) = Raise e.
Proof.
  intros Honly Hin Hy. induction l as [|a t IH]; [contradiction|].
  cbn [map sequence]. destruct (f a) as [b|e'] eqn:Ha.
  - cbn [bind]. destruct Hin as [->|Hin]; [congruence|].
    now rewrite (IH Hin).
  - cbn [bind]. now rewrite (Honly a e' Ha).
Qed.

Lemma broadcast_size_same (a : nat) : broadcast_size a a = Some a.
Proof. unfold broadcast_size. now rewrite Nat.eqb_refl. Qed.

Lemma broadcast_size_one (a : nat) : broadcast_size a 1 = Some a.
Proof.
  unfold broadcast_size. destruct (Nat.eqb_spec a 1) as [->|_]; reflexivity.
Qed.

Lemma broadcast_index_lt (len i : nat) : (i < len)%nat -> broadcast_index len i = i.
Proof.
  intros Hi. unfold broadcast_index.
  destruct (Nat.eqb_spec len 1) as [->|_]; [lia | reflexivity].
Qed.

Lemma Attention_sizes_window (n num_mem : nat) :
  Attention_sizes n num_mem n = Some ((num_mem + n)%nat, (num_mem + n)%nat).
Proof.
  unfold Attention_sizes. now rewrite !broadcast_size_same, Nat.eqb_refl.
Qed.

Lemma Attention_sizes_one (n : nat) : Attention_sizes n 0 1 = Some (n, n).
Proof.
  unfold Attention_sizes. cbn [Nat.add].
  now rewrite broadcast_size_one, broadcast_size_same, Nat.eqb_refl.
Qed.

Lemma Attention_sizes_other (n num_mem w2 : nat) :
  n <> w2 -> w2 <> 1%nat -> Attention_sizes n num_mem w2 = None.
Proof.
  intros Hn Hw. unfold Attention_sizes, broadcast_size.
  destruct (Nat.eqb_spec n w2) as [|_]; [contradiction|].
  destruct (Nat.eqb_spec w2 1) as [|_]; [contradiction|].
  destruct (Nat.eqb_spec n 1) as [->|_]; [|reflexivity].
  destruct (num_mem + 1 =? num_mem + w2)%nat.
  - destruct (num_mem + 1 =? num_mem + 1)%nat;
      [|destruct (num_mem + 1 =? 1)%nat];
      destruct (w2 =? 1)%nat eqn:E; try reflexivity;
      apply Nat.eqb_eq in E; contradiction.
  - destruct (num_mem + 1 =? 1)%nat.
    + destruct (num_mem + w2 =? num_mem + 1)%nat;
        [|destruct (num_mem + w2 =? 1)%nat; [|destruct (num_mem + 1 =? 1)%nat]];
        destruct (w2 =? 1)%nat eqn:E; try reflexivity;
        apply Nat.eqb_eq in E; contradiction.
    + destruct (num_mem + w2 =? 1)%nat; [|reflexivity].
      destruct (num_mem + 1 =? num_mem + 1)%nat;
        [|destruct (num_mem + 1 =? 1)%nat];
        destruct (w2 =? 1)%nat eqn:E; try reflexivity;
        apply Nat.eqb_eq in E; contradiction.
Qed.

Lemma Attention_window_sizes_ok (a : Attention) (x : list vec) (nj nc : nat) :
  Attention_sizes (length x) (length (hd [] (fst (at_mem_kv a))))
    (at_window_size a * at_window_size a) = Some (nj, nc) ->
  exists out,
    Attention_window a x = Ok out
    /\ length out = length x
    /\ Forall (fun t => length t = length (weight (at_to_out a))) out.
Proof.
  intros Hs. unfold Attention_window.
  rewrite length_map, Attention_bias_length, Hs.
  eexists. split; [reflexivity|]. split.
  - now rewrite length_map, merge_heads_length.
  - apply Forall_forall. intros t Ht.
    apply in_map_iff in Ht. destruct Ht as (u & <- & _). apply Linear_forward_length.
Qed.

Lemma Attention_window_ok (a : Attention) (x : list vec) :
  length x = (at_window_size a * at_window_size a)%nat ->
  exists out,
    Attention_window a x = Ok out
    /\ length out = length x
    /\ Forall (fun t => length t = length (weight (at_to_out a))) out.
Proof.
  intros Hx. eapply Attention_window_sizes_ok.
  rewrite <- Hx. apply Attention_sizes_window.
Qed.

Lemma Attention_window_raises (a : Attention) (x : list vec) :
  at_window_size a <> 1%nat ->
  length x <> (at_window_size a * at_window_size a)%nat ->
  Attention_window a x = Raise RuntimeError.
Proof.
  intros Hw Hx. unfold Attention_window.
  rewrite length_map, Attention_bias_length.
  rewrite Attention_sizes_other; [reflexivity | exact Hx | nia].
Qed.

Lemma Attention_window_broadcast (a : Attention) (x : list vec) :
  at_window_size a = 1%nat ->
  length (hd [] (fst (at_mem_kv a))) = 0%nat ->
  exists out,
    Attention_window a x = Ok out
    /\ length out = length x
    /\ Forall (fun t => length t = length (weight (at_to_out a))) out.
Proof.
  intros Hw Hmem. eapply Attention_window_sizes_ok.
  rewrite Hw, Hmem. apply Attention_sizes_one.
Qed.

(** X4. On tokens of its dimension, the windowed attention works on
    windows of exactly [window_size^2] tokens: it then returns, for every
    window, as many tokens as it received, of the same dimension, and keeps
    the leading axes.  With a window size other than 1, a window of any
    other size makes the call raise [RuntimeError].  With window size 1 and
    no memory tokens the bias is broadcast, and windows of every size are
    accepted. *)
Theorem Attention_forward_windows (a : Attention) (d : nat) (x : packed (list vec)) :
  Attention_dims d a ->
  tokens_dim d (items x) ->
  let n := (at_window_size a * at_window_size a)%nat in
  let shaped (m : nat) (win : list vec) :=
    length win = m /\ Forall (fun t => length t = d) win in
  (items x <> [] ->
   Forall (fun win => length win = n) (items x) ->
   exists out,
     Attention_forward a x = Ok out
     /\ lead out = lead x
     /\ length (items out) = length (items x)
     /\ Forall (shaped n) (items out))
  /\ (at_window_size a <> 1%nat ->
      forall win, In win (items x) -> length win <> n ->
      Attention_forward a x = Raise RuntimeError)
  /\ (at_window_size a = 1%nat ->
      length (hd [] (fst (at_mem_kv a))) = 0%nat ->
      exists out,
        Attention_forward a x = Ok out
        /\ lead out = lead x
        /\ length (items out) = length (items x)
        /\ forall i, (i < length (items x))%nat ->
             shaped (length (nth i (items x) [])) (nth i (items out) [])).
Proof.
  intros Hdims _. cbv zeta.
  assert (Hd : length (weight (at_to_out a)) = d).
  { destruct Hdims as (_ & _ & _ & _ & _ & _ & _ & (Hout & _) & _). exact Hout. }
  split; [|split].
  - intros _ Hwin. unfold Attention_forward.
    destruct (sequence_map_Forall (Attention_window a)
                (fun win => length win = (at_window_size a * at_window_size a)%nat
                            /\ Forall (fun t => length t = d) win)
                (items x)) as (ys & Hys & Hlen & HF).
    { intros win Hin. rewrite Forall_forall in Hwin.
      destruct (Attention_window_ok a win (Hwin win Hin)) as (out & Hout & Hl & Ht).
      exists out. rewrite Hl, (Hwin win Hin), <- Hd. auto. }
    rewrite Hys. cbn [bind]. eexists. split; [reflexivity|].
    cbn [lead items]. auto.
  - intros Hw win Hin Hne. unfold Attention_forward.
    rewrite (sequence_map_raise _ RuntimeError (items x) win); try assumption.
    + reflexivity.
    + intros y e. unfold Attention_window.
      destruct (Attention_sizes _ _ _) as [[nj nc]|]; congruence.
    + now apply Attention_window_raises.
  - intros Hw Hmem. unfold Attention_forward.
    assert (Hall : forall l : list (list vec),
              exists ys, sequence (map (Attention_window a) l) = Ok ys
                /\ length ys = length l
                /\ forall i, (i < length l)%nat ->
                     length (nth i ys []) = length (nth i l [])
                     /\ Forall (fun t => length t = d) (nth i ys [])).
    { induction l as [|w0 t IH].
      - exists []. split; [reflexivity|]. split; [reflexivity|].
        intros i Hi. simpl in Hi. lia.
      - destruct IH as (ys & Hys & Hlen & Hrows).
        destruct (Attention_window_broadcast a w0 Hw Hmem) as (o & Ho & Hl & Ht).
        exists (o :: ys). cbn [map sequence]. rewrite Ho. cbn [bind].
        rewrite Hys. cbn [bind]. split; [reflexivity|].
        split; [cbn [length]; now rewrite Hlen|].
        intros [|i] Hi; cbn [nth].
        + rewrite <- Hd. split; assumption.
        + apply Hrows. cbn [length] in Hi. lia. }
    destruct (Hall (items x)) as (ys & Hys & Hlen & Hrows).
    rewrite Hys. cbn [bind]. eexists. split; [reflexivity|].
    cbn [lead items]. auto.
Qed.

(** ** The multi-action head built with the default keyword arguments *)

Lemma firstn_all_le {A} (l : list A) n : (length l <= n)%nat -> firstn n l = l.
Proof.
  revert n. induction l as [|a t IH]; intros [|n] H; simpl in *; try lia; auto.
  f_equal. apply IH. lia.
Qed.

Lemma forward_tokens_all_actions (h : QHeadMultipleActions) (st : list (list vec))
    (actions : list (list Z)) (n : nat) :
  QHeadMultipleActions_wf h ->
  (n < ma_num_actions h)%nat ->
  length actions = length st ->
  Forall (fun row => length row = n) actions ->
  actions_in_range h actions ->
  forward_tokens h st (Some actions)
  = Ok (zip_with (fun s row => teacher_tokens h s row n) st actions).
Proof.
  intros (Hlen & Htbl & _) Hn Hb Hrect Hrange.
  destruct actions as [|row0 rest].
  - destruct st; [reflexivity | discriminate].
  - assert (Hhd : length (hd [] (row0 :: rest)) = n) by (inversion Hrect; assumption).
    rewrite forward_tokens_actions; try assumption; rewrite ?Hhd; try lia; try assumption.
    f_equal. generalize (row0 :: rest). clear -Hn. intros rows. revert rows.
    induction st as [|s t IH]; intros [|r rs]; cbn [zip_with]; auto.
    f_equal; [|apply IH].
    apply firstn_all_le. rewrite teacher_tokens_length. lia.
Qed.

(** X5. With the default [q_head_attn_kwargs] the multi-action head is built
    for 8 slots whatever [num_actions] is.  For a model with
    [2 <= num_actions < 8] and a state of the head's dimension, [forward]
    with a [batch x num_actions] tensor of actions keeps the embedding of
    the last action among the tokens and returns [num_actions + 1] slots of
    Q-values. *)
Theorem forward_default_head_extra_slot {Video Texts : Type}
    (enc : Video -> option Texts -> option (list (list Z)) -> R -> result (list (list vec)))
    (n_actions bins nlt : nat) (duel : bool) (sp : SingleParams) (mp : MultiParams)
    (m : QRoboticTransformer Video Texts)
    (video : Video) (texts : option Texts) (cdp : R)
    (st : list (list vec)) (actions : list (list Z)) (d : nat) :
  QRoboticTransformer_init enc n_actions bins nlt duel None sp mp = Ok m ->
  MultiParams_wf None bins duel mp ->
  QHeadMultipleActions_dims d (QHeadMultipleActions_init None bins duel mp) ->
  (2 <= n_actions < 8)%nat ->
  enc video texts (Some actions) cdp = Ok st ->
  tokens_dim d st ->
  length actions = length st ->
  Forall (fun row => length row = n_actions) actions ->
  Forall (Forall (fun a => (0 <= a < Z.of_nat bins)%Z)) actions ->
  forward_tokens (QHeadMultipleActions_init None bins duel mp) st (Some actions)
  = Ok (zip_with (fun s row =>
                    teacher_tokens (QHeadMultipleActions_init None bins duel mp) s row
                                   n_actions) st actions)
  /\ exists q,
       QRoboticTransformer_forward m video texts (Some actions) cdp = Ok q
       /\ has_shape q [length st; S n_actions; bins].
Proof.
  intros Hinit Hmp _ Hn Henc _ Hb Hrect Hrange.
  unfold QRoboticTransformer_init in Hinit.
  destruct (negb (1 <=? n_actions)%nat); [discriminate|].
  injection Hinit as <-.
  set (mh := QHeadMultipleActions_init None bins duel mp).
  assert (Hmwf : QHeadMultipleActions_wf mh) by exact (proj1 Hmp).
  assert (Htok : forward_tokens mh st (Some actions)
                 = Ok (zip_with (fun s row => teacher_tokens mh s row n_actions) st actions)).
  { apply forward_tokens_all_actions; try assumption. cbn. lia. }
  split; [exact Htok|].
  unfold QRoboticTransformer_forward. cbn [encode_state is_single_action q_head].
  rewrite Henc. cbn [bind].
  replace (n_actions =? 1)%nat with false by (symmetry; apply Nat.eqb_neq; lia).
  cbn [QHead_call default]. fold mh.
  unfold QHeadMultipleActions_forward. rewrite Htok. cbn [bind].
  rewrite (head_q_values mh _ (S n_actions)).
  - cbn [bind]. eexists. split; [reflexivity|]. cbn [has_shape]. split.
    + rewrite length_map, head_embed_length, zip_with_length, Hb. apply Nat.min_id.
    + apply (q_rows_shape mh _ (S n_actions) Hmwf). cbn. lia.
  - exact Hmwf.
  - apply zip_with_Forall. intros s row. apply teacher_tokens_length.
  - cbn. lia.
Qed.

(** X6. With the default [q_head_attn_kwargs] and [num_actions > 8], the
    bin tables have only 8 slots: [forward] with a non-empty
    [batch x num_actions] tensor of actions raises [RuntimeError] when it
    gathers the embeddings. *)
Theorem forward_default_head_too_many_actions {Video Texts : Type}
    (enc : Video -> option Texts -> option (list (list Z)) -> R -> result (list (list vec)))
    (n_actions bins nlt : nat) (duel : bool) (sp : SingleParams) (mp : MultiParams)
    (m : QRoboticTransformer Video Texts)
    (video : Video) (texts : option Texts) (cdp : R)
    (st : list (list vec)) (actions : list (list Z)) :
  QRoboticTransformer_init enc n_actions bins nlt duel None sp mp = Ok m ->
  MultiParams_wf None bins duel mp ->
  (8 < n_actions)%nat ->
  enc video texts (Some actions) cdp = Ok st ->
  actions <> [] ->
  Forall (fun row => length row = n_actions) actions ->
  QRoboticTransformer_forward m video texts (Some actions) cdp = Raise RuntimeError.
Proof.
  intros Hinit ((Hlen & _) & _) Hn Henc Hne Hrect.
  unfold QRoboticTransformer_init in Hinit.
  destruct (negb (1 <=? n_actions)%nat); [discriminate|].
  injection Hinit as <-.
  unfold QRoboticTransformer_forward. cbn [encode_state is_single_action q_head].
  rewrite Henc. cbn [bind].
  replace (n_actions =? 1)%nat with false by (symmetry; apply Nat.eqb_neq; lia).
  cbn [QHead_call default].
  unfold QHeadMultipleActions_forward, forward_tokens.
  destruct actions as [|row0 rest]; [congruence|].
  assert (Hrow : length row0 = n_actions) by (inversion Hrect; assumption).
  cbn [hd map sequence]. unfold gather_bins at 1.
  rewrite length_firstn, Hrow.
  cbn [QHeadMultipleActions_init action_bin_embeddings default] in *.
  rewrite Hlen.
  replace (n_actions <=? Nat.min n_actions 8)%nat with false
    by (symmetry; apply Nat.leb_gt; lia).
  reflexivity.
Qed.

(** ** [get_q_values] and the greedy choice *)

(** X7. On a non-empty batch of embeddings of the head's dimension,
    [get_q_values] scores as many slots as the embedding has: up to the
    number of slots of the tables it returns one row of Q-values per slot,
    each over the bins of that slot's table; an embedding with more slots
    than the tables makes the contraction fail, unless one of the two
    counts is 1, which [einsum] would broadcast. *)
Theorem get_q_values_slots (h : QHeadMultipleActions) (d : nat)
    (embed : list (list vec)) :
  QHeadMultipleActions_dims d h ->
  embed <> [] ->
  tokens_dim d embed ->
  Forall (fun s => length s = length (hd [] embed)) embed ->
  (dueling h = true -> length (to_values h) = length (action_bin_embeddings h)) ->
  ((length (hd [] embed) <= length (action_bin_embeddings h))%nat ->
   exists q,
     get_q_values h embed = Ok q
     /\ length q = length embed
     /\ Forall (fun s =>
          length s = length (hd [] embed)
          /\ forall i, (i < length (hd [] embed))%nat ->
               length (nth i s []) = length (nth i (action_bin_embeddings h) [])) q)
  /\ ((length (action_bin_embeddings h) < length (hd [] embed))%nat ->
      length (action_bin_embeddings h) <> 1%nat ->
      length (hd [] embed) <> 1%nat ->
      get_q_values h embed = Raise RuntimeError).
Proof.
  intros _ _ _ Hrect Hval. split.
  - intros Hn. rewrite get_q_values_rows; try assumption.
    + eexists. split; [reflexivity|]. split; [now rewrite length_map|].
      apply Forall_forall. intros s Hs.
      apply in_map_iff in Hs. destruct Hs as (e & <- & _). split.
      * now rewrite length_map, length_seq.
      * intros i Hi. rewrite (nth_map_seq _ _ i []) by exact Hi. apply q_row_length.
    + intros Hd. rewrite (Hval Hd). exact Hn.
  - intros Hn _ _. unfold get_q_values.
    rewrite length_firstn.
    replace (Nat.min (length (hd [] embed)) (length (action_bin_embeddings h))
             =? length (hd [] embed))%nat with false
      by (symmetry; apply Nat.eqb_neq; lia).
    reflexivity.
Qed.

Lemma sigmoid_increasing a b : a < b -> sigmoid a < sigmoid b.
Proof.
  intros Hab. unfold sigmoid, Rdiv. rewrite !Rmult_1_l.
  pose proof (exp_pos (- a)). pose proof (exp_pos (- b)).
  apply Rinv_lt_contravar.
  - apply Rmult_lt_0_compat; lra.
  - apply Rplus_lt_compat_l. apply exp_increasing. lra.
Qed.

Lemma argmax_from_map (f : R -> R) (l : list R) best bestv i :
  (forall a b, a < b -> f a < f b) ->
  argmax_from best (f bestv) i (map f l) = argmax_from best bestv i l.
Proof.
  intros Hf. revert best bestv i.
  induction l as [|x t IH]; intros best bestv i; [reflexivity|].
  cbn [map argmax_from].
  destruct (Rlt_dec bestv x) as [Hlt|Hge], (Rlt_dec (f bestv) (f x)) as [Hlt'|Hge'].
  - apply IH.
  - exfalso. apply Hge'. now apply Hf.
  - exfalso. destruct (Rle_lt_or_eq_dec x bestv ltac:(lra)) as [Hx|Hx].
    + apply Hf in Hx. lra.
    + subst. lra.
  - apply IH.
Qed.

(** A strictly increasing map does not move the first maximum. *)
Lemma argmax_map (f : R -> R) (l : list R) :
  (forall a b, a < b -> f a < f b) -> argmax (map f l) = argmax l.
Proof.
  intros Hf. destruct l as [|x t]; [reflexivity|].
  cbn [map argmax]. now apply argmax_from_map.
Qed.

(** The greedy choice and the Q-values of a slot. *)
Lemma greedy_bin_maximises_q_aux (h : QHeadMultipleActions) (i : nat) (e : vec) :
  argmax (q_row h i e)
  = argmax (map (fun ea => dot e ea) (nth i (action_bin_embeddings h) []))
  /\ forall a, (a < length (nth i (action_bin_embeddings h) []))%nat ->
       nth a (q_row h i e) 0
       <= nth (argmax (map (fun ea => dot e ea) (nth i (action_bin_embeddings h) [])))
              (q_row h i e) 0.
Proof.
  assert (Harg : argmax (q_row h i e)
                 = argmax (map (fun ea => dot e ea) (nth i (action_bin_embeddings h) []))).
  { unfold q_row, dueling_q. destruct (dueling h).
    - apply (argmax_map (fun a => sigmoid (_ + (a - _)))).
      intros a b Hab. apply sigmoid_increasing. lra.
    - apply argmax_map. exact sigmoid_increasing. }
  split; [exact Harg|].
  intros a Ha. rewrite <- Harg.
  apply argmax_spec.
  - intros Hnil. apply (f_equal (@length R)) in Hnil.
    rewrite q_row_length in Hnil. simpl in Hnil. lia.
  - now rewrite q_row_length.
Qed.

(** X8. Greedy decoding takes the argmax of the raw scores of a slot,
    the products of its embedding with the rows of the slot's table; this
    is the first bin at which the Q-values that [get_q_values] returns for
    the same embeddings are maximal, with or without the dueling
    combination. *)
Theorem greedy_bin_maximises_q (h : QHeadMultipleActions) (d : nat)
    (embed : list (list vec)) (b i : nat) :
  QHeadMultipleActions_dims d h ->
  tokens_dim d embed ->
  Forall (fun s => length s = length (hd [] embed)) embed ->
  (length (hd [] embed) <= length (action_bin_embeddings h))%nat ->
  (dueling h = true -> length (to_values h) = length (action_bin_embeddings h)) ->
  (b < length embed)%nat ->
  (i < length (hd [] embed))%nat ->
  exists q,
    get_q_values h embed = Ok q
    /\ let scores :=
         nth b (einsum_bd_ad (map (fun s => nth i s []) embed)
                             (nth i (action_bin_embeddings h) [])) [] in
       argmax (nth i (nth b q []) []) = argmax scores
       /\ forall a, (a < length (nth i (action_bin_embeddings h) []))%nat ->
            nth a (nth i (nth b q []) []) 0
            <= nth (argmax scores) (nth i (nth b q []) []) 0.
Proof.
  intros _ _ Hrect Hn Hval Hb Hi.
  rewrite get_q_values_rows; try assumption.
  2:{ intros Hd. rewrite (Hval Hd). exact Hn. }
  eexists. split; [reflexivity|]. cbv zeta.
  rewrite (nth_map_in _ embed b [] []) by exact Hb.
  rewrite (nth_map_seq _ _ i []) by exact Hi.
  unfold einsum_bd_ad.
  rewrite (nth_map_in _ _ b [] []) by (now rewrite length_map).
  rewrite (nth_map_in _ embed b [] []) by exact Hb.
  apply greedy_bin_maximises_q_aux.
Qed.


(** ** The single-action head *)


(** ** [get_actions] *)


(** ** The heads pool the encoded tokens *)

Lemma rsum_Permutation l l' : Permutation l l' -> rsum l = rsum l'.
Proof.
  unfold rsum. induction 1; simpl; try lra.
Qed.

Lemma mean_Permutation l l' : Permutation l l' -> mean l = mean l'.
Proof.
  intros H. unfold mean.
  now rewrite (rsum_Permutation _ _ H), (Permutation_length H).
Qed.

Lemma reduce_mean_tokens_Permutation (s s' : list vec) d :
  Permutation s s' ->
  Forall (fun tok => length tok = d) s ->
  reduce_mean_tokens s = reduce_mean_tokens s'.
Proof.
  intros Hp Hrect. unfold reduce_mean_tokens.
  assert (Hrect' : Forall (fun tok => length tok = d) s')
    by (eapply Permutation_Forall; eassumption).
  assert (Hd : length (hd [] s) = length (hd [] s')).
  { destruct s as [|a t].
    - apply Permutation_nil in Hp. now subst.
    - destruct s' as [|a' t']; [apply Permutation_sym, Permutation_nil in Hp; discriminate|].
      inversion Hrect; inversion Hrect'; subst. cbn [hd]. congruence. }
  rewrite Hd. apply map_ext. intros c.
  apply mean_Permutation. now apply Permutation_map.
Qed.

(** X12. Both heads read the encoded state through the mean of its tokens
    only: permuting the tokens of the batch elements changes neither the
    Q-values of [forward] nor the actions of [get_optimal_actions]. *)
Theorem heads_ignore_token_order (sh : QHeadSingleAction) (mh : QHeadMultipleActions)
    (st st' : list (list vec)) (d : nat) :
  Forall2 (@Permutation (list R)) st st' ->
  Forall (Forall (fun tok => length tok = d)) st ->
  QHeadSingleAction_forward sh st = QHeadSingleAction_forward sh st'
  /\ (forall flag, QHeadSingleAction_get_optimal_actions sh st flag
                   = QHeadSingleAction_get_optimal_actions sh st' flag)
  /\ (forall actions, QHeadMultipleActions_forward mh st actions
                      = QHeadMultipleActions_forward mh st' actions)
  /\ (forall flag, QHeadMultipleActions_get_optimal_actions mh st flag
                   = QHeadMultipleActions_get_optimal_actions mh st' flag).
Proof.
  intros Hperm Hrect.
  assert (Hmean : map reduce_mean_tokens st = map reduce_mean_tokens st').
  { induction Hperm as [|s s' t t' Hp _ IH]; [reflexivity|].
    inversion Hrect; subst. cbn [map]. f_equal; [|now apply IH].
    now apply (reduce_mean_tokens_Permutation s s' d). }
  assert (Hsos : sos_token st = sos_token st').
  { unfold sos_token. rewrite <- !(map_map reduce_mean_tokens (fun x => [x])).
    now rewrite Hmean. }
  assert (Hred : forall n, Reduce_tokens n st = Reduce_tokens n st').
  { intros n. unfold Reduce_tokens. rewrite Hmean.
    assert (Hall : forallb (fun s : list vec =>
                              (0 <? n)%nat && (length s mod n =? 0)%nat) st
                   = forallb (fun s : list vec =>
                                (0 <? n)%nat && (length s mod n =? 0)%nat) st').
    { clear -Hperm. induction Hperm as [|s s' t t' Hp _ IH]; [reflexivity|].
      cbn [forallb]. now rewrite IH, (Permutation_length Hp). }
    now rewrite Hall. }
  assert (Hsingle : QHeadSingleAction_forward sh st = QHeadSingleAction_forward sh st')
    by (unfold QHeadSingleAction_forward; now rewrite Hred).
  split; [exact Hsingle|]. split; [|split].
  - intros flag. unfold QHeadSingleAction_get_optimal_actions. now rewrite Hsingle.
  - intros actions. unfold QHeadMultipleActions_forward, forward_tokens.
    now rewrite Hsos.
  - intros flag. unfold QHeadMultipleActions_get_optimal_actions, decode_loop.
    now rewrite Hsos.
Qed.

(** ** [posemb_sincos_1d] *)

Lemma map_const_repeat {A B} (f : A -> B) (c : B) (l : list A) :
  (forall x, f x = c) -> map f l = repeat c (length l).
Proof.
  intros H. induction l as [|a t IH]; [reflexivity|].
  cbn [map length repeat]. now rewrite H, IH.
Qed.

Lemma posemb_row (seq_len dim : nat) (temperature : R) (p : nat) :
  (p < seq_len)%nat ->
  nth p (posemb_sincos_1d seq_len dim temperature) []
  = map (fun i => sin (INR p * (1 / Rpower temperature (INR i / (INR (dim / 2) - 1)))))
        (seq 0 (dim / 2))
    ++ map (fun i => cos (INR p * (1 / Rpower temperature (INR i / (INR (dim / 2) - 1)))))
           (seq 0 (dim / 2)).
Proof.
  intros Hp. unfold posemb_sincos_1d.
  rewrite (nth_map_in _ _ p 0 []) by (now rewrite length_map, length_seq).
  rewrite (nth_map_seq INR seq_len p 0) by exact Hp.
  now rewrite !map_map.
Qed.

(** X13. The sinusoidal embedding has one row per position and
    [2 * (dim // 2)] columns, so one column less than [dim] when [dim] is
    odd.  For a positive temperature and [dim // 2 <> 1] (where the source
    divides by [dim // 2 - 1 = 0]): every entry lies in [[-1, 1]]; column
    [k] of the sine half and column [k] of the cosine half are the sine and
    cosine of one angle; position 0 is embedded as zeros followed by ones;
    and the first frequency is 1, so column 0 is [sin p]. *)
Theorem posemb_sincos_1d_rows (seq_len dim : nat) (temperature : R) (p : nat) :
  (p < seq_len)%nat ->
  let emb := posemb_sincos_1d seq_len dim temperature in
  let half := (dim / 2)%nat in
  length emb = seq_len
  /\ length (nth p emb []) = (2 * half)%nat
  /\ (Nat.even dim = true -> length (nth p emb []) = dim)
  /\ (Nat.odd dim = true -> length (nth p emb []) = (dim - 1)%nat)
  /\ (0 < temperature -> half <> 1%nat ->
      (forall x, In x (nth p emb []) -> -1 <= x <= 1)
      /\ (forall k, (k < half)%nat ->
            nth k (nth p emb []) 0 * nth k (nth p emb []) 0
            + nth (half + k) (nth p emb []) 0 * nth (half + k) (nth p emb []) 0 = 1)
      /\ nth 0 emb [] = repeat 0 half ++ repeat 1 half
      /\ ((0 < half)%nat ->
            nth 0 (nth p emb []) 0 = sin (INR p)
            /\ nth half (nth p emb []) 0 = cos (INR p))).
Proof.
  intros Hp. cbv zeta.
  assert (Hsin : forall k, (k < dim / 2)%nat ->
            nth k (nth p (posemb_sincos_1d seq_len dim temperature) []) 0
            = sin (INR p * (1 / Rpower temperature (INR k / (INR (dim / 2) - 1))))).
  { intros k Hk. rewrite posemb_row by exact Hp.
    rewrite app_nth1 by (now rewrite length_map, length_seq).
    now rewrite (nth_map_seq _ _ k 0) by exact Hk. }
  assert (Hcos : forall k, (k < dim / 2)%nat ->
            nth (dim / 2 + k) (nth p (posemb_sincos_1d seq_len dim temperature) []) 0
            = cos (INR p * (1 / Rpower temperature (INR k / (INR (dim / 2) - 1))))).
  { intros k Hk. rewrite posemb_row by exact Hp.
    rewrite app_nth2 by (rewrite length_map, length_seq; lia).
    rewrite length_map, length_seq.
    replace (dim / 2 + k - dim / 2)%nat with k by lia.
    now rewrite (nth_map_seq _ _ k 0) by exact Hk. }
  assert (Hrow : length (nth p (posemb_sincos_1d seq_len dim temperature) [])
                 = (2 * (dim / 2))%nat).
  { rewrite posemb_row by exact Hp.
    rewrite length_app, !length_map, length_seq. lia. }
  split; [|split; [|split; [|split]]].
  - unfold posemb_sincos_1d. now rewrite !length_map, length_seq.
  - exact Hrow.
  - intros He. rewrite Hrow. apply Nat.even_spec in He. destruct He as [m ->].
    rewrite (Nat.mul_comm 2 m), Nat.div_mul by lia. lia.
  - intros Ho. rewrite Hrow. apply Nat.odd_spec in Ho. destruct Ho as [m ->].
    replace ((2 * m + 1) / 2)%nat with m; [lia|].
    apply (Nat.div_unique (2 * m + 1) 2 m 1); lia.
  - intros _ _. split; [|split; [|split]].
  + intros x Hx. rewrite posemb_row in Hx by exact Hp.
    apply in_app_or in Hx. destruct Hx as [Hx|Hx];
      apply in_map_iff in Hx; destruct Hx as (i & <- & _).
    * apply SIN_bound.
    * apply COS_bound.
  + intros k Hk. rewrite Hsin, Hcos by exact Hk.
    pose proof (sin2_cos2 (INR p * (1 / Rpower temperature (INR k / (INR (dim / 2) - 1))))) as H.
    unfold Rsqr in H. exact H.
  + assert (Hpos : (0 < seq_len)%nat) by lia.
    unfold posemb_sincos_1d.
    rewrite (nth_map_in _ _ 0%nat 0 []) by (now rewrite length_map, length_seq).
    rewrite (nth_map_seq INR seq_len 0%nat 0) by exact Hpos.
    cbn [INR]. rewrite !map_map. f_equal.
    * rewrite (map_const_repeat _ 0) by (intros i; now rewrite Rmult_0_l, sin_0).
      now rewrite length_seq.
    * rewrite (map_const_repeat _ 1) by (intros i; now rewrite Rmult_0_l, cos_0).
      now rewrite length_seq.
  + intros Hhalf.
    assert (H0 : 1 / Rpower temperature (INR 0 / (INR (dim / 2) - 1)) = 1).
    { cbn [INR]. unfold Rdiv at 2. rewrite Rmult_0_l.
      unfold Rpower. rewrite Rmult_0_l, exp_0. lra. }
    split.
    * rewrite Hsin by lia. rewrite H0. f_equal. lra.
    * replace (dim / 2)%nat with (dim / 2 + 0)%nat at 1 by lia.
      rewrite Hcos by lia. rewrite H0. f_equal. lra.
Qed.

(** ** [ChanLayerNorm] *)

Lemma rsum_map_shift (k : R) (l : list R) :
  rsum (map (fun v => v + k) l) = rsum l + INR (length l) * k.
Proof.
  unfold rsum. induction l as [|a t IH]; [simpl; lra|].
  cbn [map fold_right]. rewrite IH.
  change (length (a :: t)) with (S (length t)). rewrite S_INR. lra.
Qed.

Lemma mean_shift (k : R) (l : list R) :
  l <> [] -> mean (map (fun v => v + k) l) = mean l + k.
Proof.
  intros Hne. unfold mean. rewrite rsum_map_shift, length_map.
  assert (HINR : INR (length l) <> 0).
  { apply not_0_INR. destruct l; [congruence | simpl; lia]. }
  field. exact HINR.
Qed.

Lemma variance_shift (k : R) (l : list R) :
  l <> [] -> variance (map (fun v => v + k) l) = variance l.
Proof.
  intros Hne. unfold variance. rewrite mean_shift by exact Hne.
  rewrite map_map. f_equal. apply map_ext. intros a. ring.
Qed.

Lemma imap_from_map {A B C} (f : nat -> B -> C) (g : A -> B) l s :
  imap_from s f (map g l) = imap_from s (fun i a => f i (g a)) l.
Proof.
  revert s. induction l as [|a t IH]; intros s; [reflexivity|].
  cbn [map imap_from]. now rewrite IH.
Qed.

Lemma imap_map {A B C} (f : nat -> B -> C) (g : A -> B) l :
  imap f (map g l) = imap (fun i a => f i (g a)) l.
Proof. apply imap_from_map. Qed.

Lemma imap_ext_nth {A B} (f f' : nat -> A -> B) l d :
  (forall i, (i < length l)%nat -> f i (nth i l d) = f' i (nth i l d)) ->
  imap f l = imap f' l.
Proof.
  intros H. rewrite (imap_map_seq f l d), (imap_map_seq f' l d).
  apply map_ext_in. intros i Hi. apply in_seq in Hi. apply H. lia.
Qed.

Lemma channel_vector_shift (x : list (list vec)) (h w y z : nat) (k : R) :
  image_shape x h w -> (y < h)%nat -> (z < w)%nat ->
  channel_vector (map (map (map (fun v => v + k))) x) y z
  = map (fun v => v + k) (channel_vector x y z).
Proof.
  intros Hshape Hy Hz. unfold channel_vector. rewrite !map_map.
  apply map_ext_in. intros ch Hch.
  unfold image_shape in Hshape. rewrite Forall_forall in Hshape.
  destruct (Hshape ch Hch) as [Hh Hrows].
  rewrite (nth_map_in _ ch y [] []) by lia.
  rewrite (nth_map_in _ _ z 0 0); [reflexivity|].
  rewrite Forall_forall in Hrows. rewrite (Hrows (nth y ch [])); [exact Hz|].
  apply nth_In. lia.
Qed.

Lemma ChanLayerNorm_channel_shift (n : ChanLayerNorm) (x : list (list vec))
    (h w : nat) (k : R) (ix ig ib : nat) :
  image_shape x h w ->
  ChanLayerNorm_channel n (map (map (map (fun v => v + k))) x) ix ig ib
  = ChanLayerNorm_channel n x ix ig ib.
Proof.
  intros Hshape. unfold ChanLayerNorm_channel.
  destruct (Nat.lt_ge_cases ix (length x)) as [Hc|Hc].
  2:{ rewrite (nth_overflow (map (map (map (fun v => v + k))) x) [])
        by (rewrite length_map; lia).
      now rewrite (nth_overflow x []) by lia. }
  rewrite (nth_map_in _ x ix [] []) by exact Hc.
  assert (Hch : In (nth ix x []) x) by (apply nth_In; exact Hc).
  pose proof Hshape as Hshape'. unfold image_shape in Hshape'.
  rewrite Forall_forall in Hshape'. destruct (Hshape' _ Hch) as [Hh Hrows].
  rewrite imap_map. apply (imap_ext_nth _ _ _ []). intros y Hy.
  rewrite imap_map. apply (imap_ext_nth _ _ _ 0). intros z Hz.
  assert (Hw : length (nth y (nth ix x []) []) = w).
  { rewrite Forall_forall in Hrows. apply Hrows. apply nth_In. exact Hy. }
  rewrite (channel_vector_shift x h w y z k Hshape) by lia.
  assert (Hne : channel_vector x y z <> []).
  { unfold channel_vector. destruct x; [simpl in Hc; lia | discriminate]. }
  rewrite mean_shift, variance_shift by exact Hne.
  f_equal. f_equal. f_equal. ring.
Qed.

(** X14. [ChanLayerNorm] removes the mean over the channels before it
    scales: over the reals, adding one constant to every entry of an image
    leaves the result unchanged, be it an output or the error of a channel
    count that does not broadcast with [gamma] and [beta]. *)
Theorem ChanLayerNorm_shift_invariant (n : ChanLayerNorm) (x : list (list vec))
    (h w : nat) (k : R) :
  image_shape x h w ->
  ChanLayerNorm_forward n (map (map (map (fun v => v + k))) x)
  = ChanLayerNorm_forward n x.
Proof.
  intros Hshape. unfold ChanLayerNorm_forward. rewrite length_map.
  destruct (broadcast_size (length x) (length (cln_gamma n))) as [c1|]; [|reflexivity].
  destruct (broadcast_size c1 (length (cln_beta n))) as [c2|]; [|reflexivity].
  f_equal. apply map_ext. intros o.
  apply (ChanLayerNorm_channel_shift n x h w k). exact Hshape.
Qed.

Lemma rsum_constant (v : R) (l : list R) :
  (forall a, In a l -> a = v) -> rsum l = INR (length l) * v.
Proof.
  intros H. unfold rsum. induction l as [|a t IH]; [simpl; lra|].
  cbn [fold_right]. rewrite IH by (intros b Hb; apply H; now right).
  rewrite (H a) by (now left).
  cbn [length]. rewrite S_INR. lra.
Qed.

(** X15. On an image with as many channels as [gamma] and [beta] have
    entries, a [ChanLayerNorm] with a positive [eps] returns an image with
    the same channels, and where all channels of a pixel hold the same
    value it returns the bias [beta] of each channel, whatever the value,
    [gamma] and the positive [eps] are. *)
Theorem ChanLayerNorm_constant_pixel (n : ChanLayerNorm) (x : list (list vec))
    (h w c y z : nat) (v : R) :
  0 < cln_eps n ->
  image_shape x h w ->
  length (cln_gamma n) = length x -> length (cln_beta n) = length x ->
  (c < length x)%nat -> (y < h)%nat -> (z < w)%nat ->
  (forall a, In a (channel_vector x y z) -> a = v) ->
  exists out,
    ChanLayerNorm_forward n x = Ok out
    /\ length out = length x
    /\ image_shape out h w
    /\ nth z (nth y (nth c out []) []) 0 = nth c (cln_beta n) 0.
Proof.
  intros _ Hshape Hg Hb Hc Hy Hz Hconst. unfold ChanLayerNorm_forward.
  rewrite Hg, broadcast_size_same, Hb, broadcast_size_same.
  eexists. split; [reflexivity|].
  pose proof Hshape as Hshape'.
  unfold image_shape in Hshape'. rewrite Forall_forall in Hshape'.
  split; [now rewrite length_map, length_seq|]. split.
  - unfold image_shape. apply Forall_forall. intros ch Hin.
    apply in_map_iff in Hin. destruct Hin as (o & <- & Ho). apply in_seq in Ho.
    cbv zeta. rewrite !(broadcast_index_lt (length x) o) by lia.
    assert (Hch : In (nth o x []) x) by (apply nth_In; lia).
    destruct (Hshape' _ Hch) as [Hh Hrows].
    unfold ChanLayerNorm_channel. split; [now rewrite imap_length|].
    apply Forall_forall. intros row Hrow.
    apply (In_nth _ _ []) in Hrow. destruct Hrow as (i & Hi & <-).
    rewrite imap_length in Hi.
    rewrite (imap_nth _ _ i [] []) by exact Hi. rewrite imap_length.
    rewrite Forall_forall in Hrows. apply Hrows. now apply nth_In.
  - rewrite (nth_map_seq _ _ c []) by exact Hc.
    cbv zeta. rewrite !(broadcast_index_lt (length x) c) by lia.
    assert (Hch : In (nth c x []) x) by (apply nth_In; exact Hc).
    destruct (Hshape' _ Hch) as [Hh Hrows].
    assert (Hw : length (nth y (nth c x []) []) = w).
    { rewrite Forall_forall in Hrows. apply Hrows. apply nth_In. lia. }
    unfold ChanLayerNorm_channel.
    rewrite (imap_nth _ _ y [] []) by lia.
    rewrite (imap_nth _ _ z 0 0) by lia.
    assert (Hv : nth z (nth y (nth c x []) []) 0 = v).
    { apply Hconst. unfold channel_vector.
      apply in_map_iff. exists (nth c x []). split; [reflexivity | exact Hch]. }
    assert (Hmean : mean (channel_vector x y z) = v).
    { unfold mean. rewrite (rsum_constant v) by exact Hconst.
      assert (HINR : INR (length (channel_vector x y z)) <> 0).
      { apply not_0_INR. unfold channel_vector. rewrite length_map. lia. }
      field. exact HINR. }
    rewrite Hv, Hmean. ring.
Qed.

(** ** [SqueezeExcitation] *)



(** ** The stages of [MaxViT] *)

Lemma stage_blocks_length din dout k : length (stage_blocks (din, dout, k)) = k.
Proof. cbn [stage_blocks]. now rewrite length_map, length_seq. Qed.

Lemma stage_blocks_S din dout k :
  stage_blocks (din, dout, S k)
  = mkBlock din dout true :: repeat (mkBlock dout dout false) k.
Proof.
  cbn [stage_blocks]. cbn [seq map Nat.eqb]. f_equal.
  rewrite <- seq_shift, map_map.
  rewrite (map_const_repeat _ (mkBlock dout dout false)) by reflexivity.
  now rewrite length_seq.
Qed.

Lemma channels_through_app c bs1 bs2 c1 :
  channels_through c bs1 = Ok c1 ->
  channels_through c (bs1 ++ bs2) = channels_through c1 bs2.
Proof.
  revert c. induction bs1 as [|b t IH]; intros c H.
  - cbn in H. injection H as ->. reflexivity.
  - cbn [app channels_through] in *.
    destruct (blk_dim_in b =? c)%nat; [now apply IH | discriminate].
Qed.

Lemma channels_through_repeat c k :
  channels_through c (repeat (mkBlock c c false) k) = Ok c.
Proof.
  induction k as [|k IH]; [reflexivity|].
  cbn [repeat channels_through blk_dim_in blk_dim_out]. now rewrite Nat.eqb_refl.
Qed.

Lemma channels_through_stage din dout k :
  (1 <= k)%nat -> channels_through din (stage_blocks (din, dout, k)) = Ok dout.
Proof.
  intros Hk. destruct k as [|k]; [lia|].
  rewrite stage_blocks_S. cbn [channels_through blk_dim_in blk_dim_out].
  rewrite Nat.eqb_refl. apply channels_through_repeat.
Qed.

Lemma dim_pairs_cons a b rest : dim_pairs (a :: b :: rest) = (a, b) :: dim_pairs (b :: rest).
Proof. reflexivity. Qed.

Lemma channels_through_stages (c : nat) (ds depth : list nat) :
  length depth = length ds ->
  Forall (fun k => (1 <= k)%nat) depth ->
  channels_through c (flat_map stage_blocks (combine (dim_pairs (c :: ds)) depth))
  = Ok (last (c :: ds) O).
Proof.
  revert c depth. induction ds as [|d ds IH]; intros c depth Hlen Hpos.
  - destruct depth; [reflexivity | discriminate].
  - destruct depth as [|k depth]; [discriminate|].
    rewrite dim_pairs_cons. cbn [combine flat_map].
    inversion Hpos as [|? ? Hk Hrest]; subst.
    rewrite (channels_through_app c _ _ d) by (now apply channels_through_stage).
    rewrite IH by (simpl in Hlen; try lia; assumption).
    reflexivity.
Qed.

Lemma flat_map_stage_blocks_length (stages : list (nat * nat * nat)) :
  length (flat_map stage_blocks stages) = list_sum (map snd stages).
Proof.
  induction stages as [|[[din dout] k] t IH]; [reflexivity|].
  cbn [flat_map map snd list_sum]. rewrite length_app, IH.
  now rewrite stage_blocks_length.
Qed.

Lemma dim_pairs_length (dims : list nat) : length (dim_pairs dims) = (length dims - 1)%nat.
Proof.
  unfold dim_pairs. rewrite length_combine.
  destruct dims as [|a t]; [reflexivity|].
  rewrite removelast_firstn_len, length_firstn. cbn [tl length]. lia.
Qed.

Lemma combine_snd {A B} (l1 : list A) (l2 : list B) :
  length l1 = length l2 -> map snd (combine l1 l2) = l2.
Proof.
  revert l2. induction l1 as [|a t IH]; intros [|b t2] H; simpl in *; try lia; auto.
  f_equal. apply IH. lia.
Qed.

(** X17. [MaxViT] builds one block per unit of [depth], and
    [cond_hidden_dims] has one entry per block.  When every stage has at
    least one block, the blocks fit together: fed with the
    [dim_conv_stem] channels of the stem, every block receives the number of
    channels its first convolution expects, and the last block delivers
    [embed_dim] channels, which is [2^(stages - 1) * dim]. *)
Theorem MaxViT_blocks_chain (dim : nat) (dim_conv_stem : option nat) (depth : list nat) :
  length (MaxViT_blocks dim dim_conv_stem depth) = list_sum depth
  /\ length (cond_hidden_dims dim dim_conv_stem depth) = list_sum depth
  /\ (Forall (fun k => (1 <= k)%nat) depth ->
      channels_through (default dim_conv_stem dim) (MaxViT_blocks dim dim_conv_stem depth)
      = Ok (embed_dim dim dim_conv_stem depth))
  /\ (depth <> [] ->
      embed_dim dim dim_conv_stem depth = (2 ^ (length depth - 1) * dim)%nat).
Proof.
  assert (Hcount : length (MaxViT_blocks dim dim_conv_stem depth) = list_sum depth).
  { unfold MaxViT_blocks. rewrite flat_map_stage_blocks_length, combine_snd; [reflexivity|].
    rewrite dim_pairs_length. unfold MaxViT_dims. cbn [length].
    rewrite length_map, length_seq. lia. }
  split; [exact Hcount|]. split; [|split].
  - unfold cond_hidden_dims. now rewrite length_map.
  - intros Hpos. unfold MaxViT_blocks, embed_dim, MaxViT_dims.
    apply channels_through_stages; [|exact Hpos].
    now rewrite length_map, length_seq.
  - intros Hne. unfold embed_dim, MaxViT_dims.
    destruct depth as [|k depth] using rev_ind; [congruence|].
    clear IHdepth. rewrite length_app. cbn [length].
    replace (length depth + 1)%nat with (S (length depth)) by lia.
    rewrite seq_S, map_app. cbn [map Nat.add].
    rewrite app_comm_cons, last_last. f_equal. f_equal. lia.
Qed.

(** X18. In [MaxViT] the first block of every stage downsamples (stride 2)
    and has no residual connection, even when its input and output widths
    agree; every other block keeps the resolution (stride 1) and is wrapped
    in [MBConvResidual]. *)
Theorem MaxViT_blocks_residual (dim : nat) (dim_conv_stem : option nat)
    (depth : list nat) (b : block_cfg) :
  In b (MaxViT_blocks dim dim_conv_stem depth) ->
  MBConv_is_residual b = negb (blk_downsample b)
  /\ (blk_downsample b = true -> MBConv_stride b = 2%nat /\ MBConv_is_residual b = false)
  /\ (blk_downsample b = false ->
      MBConv_stride b = 1%nat /\ blk_dim_in b = blk_dim_out b).
Proof.
  intros Hin. unfold MaxViT_blocks in Hin.
  apply in_flat_map in Hin. destruct Hin as ([[din dout] k] & _ & Hb).
  cbn [stage_blocks] in Hb. apply in_map_iff in Hb.
  destruct Hb as (ind & <- & _).
  unfold MBConv_is_residual, MBConv_stride. cbn [blk_dim_in blk_dim_out blk_downsample].
  destruct (ind =? 0)%nat.
  - rewrite andb_false_r. repeat split; try reflexivity; intros; discriminate.
  - rewrite Nat.eqb_refl. repeat split; try reflexivity; intros; discriminate.
Qed.

(** ** The conditioning functions *)

(** X19. [encode_state] gives the last [2 * depth] conditioning functions
    to the transformer and the ones before to the vision transformer.  For
    [depth = 0] the slices are [cond_fns[:0]] and [cond_fns[0:]]: the vision
    transformer gets no conditioning function at all and the transformer
    gets every one. *)
Theorem split_cond_fns_parts {A} (depth : nat) (cond_fns : list A) :
  ((1 <= depth)%nat ->
   fst (split_cond_fns depth cond_fns) ++ snd (split_cond_fns depth cond_fns) = cond_fns
   /\ length (snd (split_cond_fns depth cond_fns)) = Nat.min (2 * depth) (length cond_fns)
   /\ length (fst (split_cond_fns depth cond_fns)) = (length cond_fns - 2 * depth)%nat)
  /\ (depth = 0%nat ->
      split_cond_fns depth cond_fns = ([], cond_fns)).
Proof.
  split.
  - intros Hd. unfold split_cond_fns, slice_upto_neg, slice_from_neg. cbn [fst snd].
    replace (depth * 2 =? 0)%nat with false by (symmetry; apply Nat.eqb_neq; lia).
    split; [apply firstn_skipn|]. split.
    + rewrite length_skipn. lia.
    + rewrite length_firstn. lia.
  - intros ->. reflexivity.
Qed.

Lemma Transformer_layers_extra_cond_fns ls x (cs extra : list cond_fn) mask :
  (2 * length ls <= length cs)%nat ->
  Transformer_layers ls x (cs ++ extra) mask = Transformer_layers ls x cs mask.
Proof.
  revert x cs. induction ls as [|[attn ff] rest IH]; intros x cs Hlen; [reflexivity|].
  destruct cs as [|c1 [|c2 cs]]; cbn [length] in Hlen; try lia.
  cbn [Transformer_layers next app]. apply IH. lia.
Qed.

Lemma MaxViT_stages_extra_cond_fns {T} (layers : list (T -> T)) x (cs extra : list (T -> T)) :
  (length layers <= length cs)%nat ->
  MaxViT_stages layers x (cs ++ extra) = MaxViT_stages layers x cs.
Proof.
  revert x cs. induction layers as [|stage rest IH]; intros x cs Hlen; [reflexivity|].
  destruct cs as [|c cs]; cbn [length] in Hlen; try lia.
  cbn [MaxViT_stages next app]. apply IH. lia.
Qed.

Lemma next_skipn {A} (cs : list A) (n : nat) :
  next (skipn n cs) = (nth_error cs n, skipn (S n) cs).
Proof.
  revert n. induction cs as [|c cs IH]; intros [|n]; try reflexivity.
  cbn [skipn nth_error]. rewrite IH. reflexivity.
Qed.

Lemma Transformer_layers_positions ls (x : list (list vec)) (cs : list cond_fn) mask s :
  Transformer_layers ls x (skipn (2 * s) cs) mask
  = fold_left (fun acc kl => conditioned_layer cs mask (fst kl) (snd kl) acc)
              (combine (seq s (length ls)) ls) x.
Proof.
  revert x s. induction ls as [|[attn ff] rest IH]; intros x s; [reflexivity|].
  cbn [Transformer_layers length seq combine fold_left fst snd].
  rewrite next_skipn, next_skipn.
  replace (skipn (S (S (2 * s))) cs) with (skipn (2 * S s) cs) by (f_equal; lia).
  rewrite IH. f_equal.
  unfold conditioned_layer, TransformerAttention_forward, FeedForward_forward,
    apply_cond, cond_at.
  cbn [fst snd]. cbv zeta. replace (2 * s + 1)%nat with (S (2 * s)) by lia.
  unfold cond_fn in *.
  generalize (nth_error cs (2 * s)) (nth_error cs (S (2 * s))).
  intros [c1|] [c2|]; reflexivity.
Qed.

Lemma MaxViT_stages_positions {T} (layers : list (T -> T)) (x : T) (cs : list (T -> T)) s :
  MaxViT_stages layers x (skipn s cs)
  = fold_left (fun acc ks => conditioned_stage cs (fst ks) (snd ks) acc)
              (combine (seq s (length layers)) layers) x.
Proof.
  revert x s. induction layers as [|stage rest IH]; intros x s; [reflexivity|].
  cbn [MaxViT_stages length seq combine fold_left fst snd].
  rewrite next_skipn, IH. reflexivity.
Qed.

(** X20. Both [Transformer.forward] and [MaxViT.forward] draw their
    conditioning functions in order with [next(cond_fns, None)]: layer [k]
    of the transformer applies function [2 k] of the tuple to the
    normalised input of its attention and function [2 k + 1] to the
    normalised input of its feed-forward block; stage [k] of the vision
    transformer applies function [k] to its input.  Functions beyond those
    are ignored, and with no functions at all the vision transformer is the
    plain composition of its stem, stages and head. *)
Theorem cond_fns_consumption {T U} (t : Transformer) (x : list (list vec))
    (cs extra : list cond_fn) (mask : option (list (list bool)))
    (conv_stem : T -> T) (layers_v : list (T -> T)) (mlp_head : T -> U) (img : T)
    (vs vextra : list (T -> T)) (flag : bool) :
  Transformer_forward t x (Some cs) mask
  = fold_left (fun acc kl => conditioned_layer cs mask (fst kl) (snd kl) acc)
              (enumerate (layers t)) x
  /\ MaxViT_forward conv_stem layers_v mlp_head img (Some vs) true
     = inl (fold_left (fun acc ks => conditioned_stage vs (fst ks) (snd ks) acc)
                      (enumerate layers_v) (conv_stem img))
  /\ MaxViT_forward conv_stem layers_v mlp_head img (Some vs) false
     = inr (mlp_head
              (fold_left (fun acc ks => conditioned_stage vs (fst ks) (snd ks) acc)
                         (enumerate layers_v) (conv_stem img)))
  /\ ((2 * length (layers t) <= length cs)%nat ->
      Transformer_forward t x (Some (cs ++ extra)) mask
      = Transformer_forward t x (Some cs) mask)
  /\ ((length layers_v <= length vs)%nat ->
      MaxViT_forward conv_stem layers_v mlp_head img (Some (vs ++ vextra)) flag
      = MaxViT_forward conv_stem layers_v mlp_head img (Some vs) flag)
  /\ MaxViT_forward conv_stem layers_v mlp_head img None true
     = inl (fold_left (fun acc stage => stage acc) layers_v (conv_stem img))
  /\ MaxViT_forward conv_stem layers_v mlp_head img None false
     = inr (mlp_head (fold_left (fun acc stage => stage acc) layers_v (conv_stem img))).
Proof.
  assert (Hplain : forall y, MaxViT_stages layers_v y []
                             = fold_left (fun acc stage => stage acc) layers_v y).
  { induction layers_v as [|stage rest IH]; intros y; [reflexivity|].
    cbn [MaxViT_stages next fold_left]. apply IH. }
  assert (Hpos : forall y, MaxViT_stages layers_v y vs
            = fold_left (fun acc ks => conditioned_stage vs (fst ks) (snd ks) acc)
                        (enumerate layers_v) y).
  { intros y. exact (MaxViT_stages_positions layers_v y vs 0). }
  split; [|split; [|split; [|split; [|split; [|split]]]]].
  - unfold Transformer_forward. cbn [default].
    exact (Transformer_layers_positions (layers t) x cs mask 0).
  - unfold MaxViT_forward. cbn [default]. now rewrite Hpos.
  - unfold MaxViT_forward. cbn [default]. now rewrite Hpos.
  - intros Hlen. unfold Transformer_forward. cbn [default].
    now apply Transformer_layers_extra_cond_fns.
  - intros Hlen. unfold MaxViT_forward. cbn [default].
    now rewrite MaxViT_stages_extra_cond_fns.
  - unfold MaxViT_forward. cbn [default]. now rewrite Hplain.
  - unfold MaxViT_forward. cbn [default]. now rewrite Hplain.
Qed.

(** ** Errors of [TokenLearner], token counts of [Transformer] *)

Lemma Conv2d_forward_raise cv (x : list (list vec)) e :
  Conv2d_forward cv x = Raise e -> e = RuntimeError.
Proof.
  unfold Conv2d_forward. destruct (negb _); congruence.
Qed.

Lemma TokenLearner_image_raise tl (x : list (list vec)) e :
  TokenLearner_image tl x = Raise e -> e = RuntimeError.
Proof.
  unfold TokenLearner_image.
  destruct (Conv2d_forward (tl_conv1 tl) _) as [a1|e1] eqn:H1; cbn [bind].
  - destruct (Conv2d_forward (tl_conv2 tl) _) as [attn|e2] eqn:H2; cbn [bind].
    + destruct (_ || _)%bool; congruence.
    + intros H. injection H as <-. now apply Conv2d_forward_raise in H2.
  - intros H. injection H as <-. now apply Conv2d_forward_raise in H1.
Qed.

Lemma pack_one_cases (x : packed (list (list vec))) :
  pack_one x = Ok (items x, lead x) \/ pack_one x = Raise RuntimeError.
Proof.
  unfold pack_one. destruct (items x) as [|img rest]; [now left|].
  destruct (_ || _)%bool; [now right | now left].
Qed.

(** X21. [TokenLearner] accepts only feature maps with [dim] channels: a
    single frame with another number of channels makes the first grouped
    convolution, hence the whole call, raise [RuntimeError]. *)
Theorem TokenLearner_forward_wrong_channels (dim ff_mult g : nat)
    (w1 : list vec) (b1 : vec) (w2 : list vec) (b2 : vec)
    (x : packed (list (list vec))) (img : list (list vec)) :
  (0 < g)%nat ->
  In img (items x) ->
  length img <> dim ->
  TokenLearner_image (TokenLearner_init dim ff_mult g w1 b1 w2 b2) img = Raise RuntimeError
  /\ TokenLearner_forward (TokenLearner_init dim ff_mult g w1 b1 w2 b2) x
     = Raise RuntimeError.
Proof.
  intros Hg Hin Hch.
  assert (Himg : TokenLearner_image (TokenLearner_init dim ff_mult g w1 b1 w2 b2) img
                 = Raise RuntimeError).
  { unfold TokenLearner_image, TokenLearner_init, Conv2d_forward.
    cbn [tl_num_output_tokens tl_conv1 tl_conv2 cv_in_channels].
    rewrite repeat_channels_length.
    replace (g * length img =? dim * g)%nat with false; [reflexivity|].
    symmetry. apply Nat.eqb_neq. nia. }
  split; [exact Himg|].
  unfold TokenLearner_forward.
  destruct (pack_one_cases x) as [Hp|Hp]; rewrite Hp; [|reflexivity].
  cbn [bind].
  rewrite (sequence_map_raise _ RuntimeError (items x) img); try assumption.
  - reflexivity.
  - intros y e. apply TokenLearner_image_raise.
Qed.

Lemma zip_with_Forall2 {A B C} (f : A -> B -> C) (P : A -> Prop) (Q : B -> Prop)
    (S : C -> Prop) l1 l2 :
  Forall P l1 -> Forall Q l2 ->
  (forall a b, P a -> Q b -> S (f a b)) ->
  Forall S (zip_with f l1 l2).
Proof.
  intros H1. revert l2. induction H1 as [|a t Ha _ IH]; intros l2 H2 Hf.
  - destruct l2; constructor.
  - destruct H2 as [|b t2 Hb H2]; [constructor|].
    cbn [zip_with]. constructor; [now apply Hf | now apply IH].
Qed.

Lemma add3_tokens_dim (d : nat) (x y : list (list vec)) :
  tokens_dim d x -> tokens_dim d y -> tokens_dim d (add3 x y).
Proof.
  unfold tokens_dim, add3. intros Hx Hy.
  eapply zip_with_Forall2; [exact Hx | exact Hy |].
  intros s s' Hs Hs'. unfold add_tokens.
  eapply zip_with_Forall2; [exact Hs | exact Hs' |].
  intros u w Hu Hw. cbv beta in Hu, Hw. unfold vadd. rewrite zip_with_length. lia.
Qed.

Lemma TransformerAttention_forward_tokens_dim (d : nat) (a : TransformerAttention)
    (x : list (list vec)) mask c :
  length (weight (ta_to_out a)) = d ->
  tokens_dim d (TransformerAttention_forward a x mask c).
Proof.
  intros Hd. unfold tokens_dim, TransformerAttention_forward.
  apply zip_with_Forall. intros s kv. unfold TransformerAttention_sample.
  destruct (ta_mem_kv a) as [[mk mv]|]; apply Forall_forall; intros t Ht;
    apply in_map_iff in Ht; destruct Ht as (u & <- & _);
    now rewrite Linear_forward_length.
Qed.

Lemma FeedForward_forward_tokens_dim (d : nat) (ff : FeedForward)
    (x : list (list vec)) c :
  length (weight (ff_lin2 ff)) = d ->
  tokens_dim d (FeedForward_forward ff x c).
Proof.
  intros Hd. unfold tokens_dim, FeedForward_forward.
  apply Forall_forall. intros s Hs. apply in_map_iff in Hs.
  destruct Hs as (s0 & <- & _). apply Forall_forall. intros t Ht.
  apply in_map_iff in Ht. destruct Ht as (u & <- & _).
  unfold FeedForward_net. now rewrite Linear_forward_length.
Qed.

Lemma Transformer_layers_tokens_dim (d : nat) ls (x : list (list vec)) cs mask :
  Forall (fun l => TransformerAttention_dims d (fst l) /\ FeedForward_dims d (snd l)) ls ->
  tokens_dim d x ->
  tokens_dim d (Transformer_layers ls x cs mask).
Proof.
  intros Hls. revert x cs.
  induction Hls as [|[attn ff] rest [Ha Hf] _ IH]; intros x cs Hx; [exact Hx|].
  cbn [Transformer_layers]. destruct (next cs) as [c1 cs1].
  destruct (next cs1) as [c2 cs2]. apply IH.
  cbn [fst snd] in Ha, Hf.
  assert (Hout : length (weight (ta_to_out attn)) = d).
  { destruct Ha as (_ & _ & _ & _ & _ & (Hout & _) & _). exact Hout. }
  assert (Hlin : length (weight (ff_lin2 ff)) = d).
  { destruct Hf as (_ & _ & (Hlin & _)). exact Hlin. }
  apply add3_tokens_dim.
  - now apply FeedForward_forward_tokens_dim.
  - apply add3_tokens_dim; [|exact Hx].
    now apply TransformerAttention_forward_tokens_dim.
Qed.

(** X22. Without conditioning functions and without a mask, a
    [Transformer] built for the dimension of its input returns a tensor of
    the same shape: as many batch elements, for each as many tokens, and
    tokens of the same dimension. *)
Theorem Transformer_forward_shape (t : Transformer) (d : nat) (x : list (list vec)) :
  Transformer_dims d t ->
  tokens_dim d x ->
  length (Transformer_forward t x None None) = length x
  /\ (forall b, length (nth b (Transformer_forward t x None None) [])
                = length (nth b x []))
  /\ tokens_dim d (Transformer_forward t x None None).
Proof.
  intros Ht Hx.
  pose proof (Transformer_layers_lengths (layers t) x None) as H.
  unfold Transformer_forward. cbn [default].
  assert (Hlen : length (Transformer_layers (layers t) x [] None) = length x).
  { rewrite <- (length_map (@length (list R)) (Transformer_layers _ _ _ _)).
    now rewrite H, length_map. }
  split; [exact Hlen|]. split.
  - intros b. destruct (Nat.lt_ge_cases b (length x)) as [Hb|Hb].
    + rewrite <- (nth_map_in (@length (list R)) _ b [] O) by lia.
      rewrite H. now rewrite (nth_map_in (@length (list R)) x b [] O) by exact Hb.
    + now rewrite !nth_overflow by lia.
  - now apply Transformer_layers_tokens_dim.
Qed.

(** ** The window partitions *)

Lemma hd_map_seq {A} (f : nat -> A) (n : nat) (d : A) :
  (0 < n)%nat -> hd d (map f (seq 0 n)) = f 0%nat.
Proof. destruct n; [lia | reflexivity]. Qed.

Lemma image_of_pixels (img : list (list vec)) (h wd : nat) :
  image_shape img h wd ->
  img = map (fun c => map (fun r => map (fun col => nth col (nth r (nth c img []) []) 0)
                                        (seq 0 wd)) (seq 0 h))
            (seq 0 (length img)).
Proof.
  intros Hshape. unfold image_shape in Hshape. rewrite Forall_forall in Hshape.
  rewrite (map_nth_seq img []) at 1. apply map_ext_in. intros c Hc.
  apply in_seq in Hc.
  destruct (Hshape (nth c img [])) as [Hh Hrows]; [apply nth_In; lia|].
  rewrite (map_nth_seq (nth c img []) []) at 1. rewrite Hh.
  apply map_ext_in. intros r Hr. apply in_seq in Hr.
  rewrite Forall_forall in Hrows.
  rewrite (map_nth_seq (nth r (nth c img []) []) 0) at 1.
  rewrite (Hrows (nth r (nth c img []) [])) by (apply nth_In; lia).
  reflexivity.
Qed.

Lemma image_height_width (img : list (list vec)) (h wd : nat) :
  img <> [] -> image_shape img h wd -> (0 < h)%nat ->
  height img = h /\ width img = wd.
Proof.
  intros Hne Hshape Hh. unfold height, width.
  destruct img as [|ch rest]; [congruence|]. cbn [hd].
  unfold image_shape in Hshape. inversion Hshape as [|? ? [Hch Hrows] _]. subst.
  split; [reflexivity|].
  destruct ch as [|row rows]; [simpl in Hh; lia|]. cbn [hd].
  now inversion Hrows.
Qed.

Lemma channel_vector_nth (img : list (list vec)) (r col c : nat) :
  nth c (channel_vector img r col) 0 = nth col (nth r (nth c img []) []) 0.
Proof.
  unfold channel_vector.
  destruct (Nat.lt_ge_cases c (length img)) as [Hc|Hc].
  - now rewrite (nth_map_in _ img c [] 0) by exact Hc.
  - rewrite (nth_overflow (map _ img)) by (now rewrite length_map).
    rewrite (nth_overflow img) by exact Hc. now destruct r, col.
Qed.

Lemma div_mod_index (a b m : nat) : (b < m)%nat -> ((a * m + b) / m = a /\ (a * m + b) mod m = b)%nat.
Proof.
  intros Hb. split.
  - symmetry. apply (Nat.div_unique (a * m + b) m a b); lia.
  - symmetry. apply (Nat.mod_unique (a * m + b) m a b); lia.
Qed.

Lemma multiple_div (h w : nat) : (0 < w)%nat -> (h mod w = 0)%nat -> (h = h / w * w)%nat.
Proof.
  intros Hw Hm. pose proof (Nat.div_mod_eq h w) as H. lia.
Qed.

Lemma nth_windows {A} (f : nat -> nat -> nat -> nat -> A) (nx ny w : nat)
    (x y w1 w2 : nat) (d : A) :
  (x < nx)%nat -> (y < ny)%nat -> (w1 < w)%nat -> (w2 < w)%nat ->
  nth w2 (nth w1 (nth y (nth x
    (map (fun x => map (fun y => map (fun w1 => map (fun w2 => f x y w1 w2) (seq 0 w))
                                     (seq 0 w)) (seq 0 ny)) (seq 0 nx)) []) []) []) d
  = f x y w1 w2.
Proof.
  intros Hx Hy H1 H2.
  rewrite (nth_map_seq _ nx x []) by exact Hx.
  rewrite (nth_map_seq _ ny y []) by exact Hy.
  rewrite (nth_map_seq _ w w1 []) by exact H1.
  now rewrite (nth_map_seq _ w w2 d) by exact H2.
Qed.

Lemma windows_axes_map (f : nat -> nat -> nat -> nat -> vec) (nx ny w d : nat) :
  (0 < nx)%nat -> (0 < ny)%nat -> (0 < w)%nat ->
  (forall x y w1 w2, length (f x y w1 w2) = d) ->
  windows_axes
    (map (fun x => map (fun y => map (fun w1 => map (fun w2 => f x y w1 w2) (seq 0 w))
                                     (seq 0 w)) (seq 0 ny)) (seq 0 nx))
  = (nx, ny, w, w, d).
Proof.
  intros Hx Hy Hw Hd. unfold windows_axes.
  rewrite length_map, length_seq.
  rewrite (hd_map_seq _ nx []) by exact Hx. rewrite length_map, length_seq.
  rewrite (hd_map_seq _ ny []) by exact Hy. rewrite length_map, length_seq.
  rewrite (hd_map_seq _ w []) by exact Hw. rewrite length_map, length_seq.
  rewrite (hd_map_seq _ w []) by exact Hw. now rewrite Hd.
Qed.

Lemma channel_vector_length (img : list (list vec)) (r c : nat) :
  length (channel_vector img r c) = length img.
Proof. unfold channel_vector. apply length_map. Qed.

(** X23. On an image whose height and width are multiples of the window
    size, the block-like partition puts pixel [(r, c)] at position
    [(r mod w, c mod w)] of window [(r / w, c / w)], so a window is one
    contiguous [w] by [w] patch, and the inverse rearrangement gives the
    image back.  A height or width that is not a multiple of the window
    size raises [RuntimeError]. *)
Theorem block_windows_round_trip (w : nat) (img : list (list vec)) (h wd : nat) :
  (0 < w)%nat -> img <> [] -> image_shape img h wd -> (0 < h)%nat -> (0 < wd)%nat ->
  ((h mod w = 0)%nat -> (wd mod w = 0)%nat ->
   exists t,
     block_windows w img = Ok t
     /\ windows_axes t = ((h / w)%nat, (wd / w)%nat, w, w, length img)
     /\ (forall r c, (r < h)%nat -> (c < wd)%nat ->
           nth (c mod w) (nth (r mod w) (nth (c / w) (nth (r / w) t []) []) []) []
           = channel_vector img r c)
     /\ block_image t = img)
  /\ ((h mod w <> 0)%nat \/ (wd mod w <> 0)%nat ->
      block_windows w img = Raise RuntimeError).
Proof.
  intros Hw Hne Hshape Hh Hwd.
  destruct (image_height_width img h wd Hne Hshape Hh) as [Hheight Hwidth].
  split.
  - intros Hmh Hmw. unfold block_windows. rewrite Hheight, Hwidth, Hmh, Hmw.
    cbn [Nat.eqb andb negb].
    pose proof (multiple_div h w Hw Hmh) as Hhq.
    pose proof (multiple_div wd w Hw Hmw) as Hwq.
    assert (Hnx : (0 < h / w)%nat) by nia.
    assert (Hny : (0 < wd / w)%nat) by nia.
    eexists. split; [reflexivity|].
    assert (Haxes : windows_axes
              (map (fun x => map (fun y => map (fun w1 => map (fun w2 =>
                      channel_vector img (x * w + w1) (y * w + w2)) (seq 0 w))
                      (seq 0 w)) (seq 0 (wd / w))) (seq 0 (h / w)))
            = ((h / w)%nat, (wd / w)%nat, w, w, length img)).
    { apply (windows_axes_map (fun x y w1 w2 => channel_vector img (x * w + w1) (y * w + w2)));
        try assumption. intros. apply channel_vector_length. }
    assert (Hpix : forall r c, (r < h)%nat -> (c < wd)%nat ->
              nth (c mod w) (nth (r mod w) (nth (c / w) (nth (r / w)
                (map (fun x => map (fun y => map (fun w1 => map (fun w2 =>
                      channel_vector img (x * w + w1) (y * w + w2)) (seq 0 w))
                      (seq 0 w)) (seq 0 (wd / w))) (seq 0 (h / w))) []) []) []) []
              = channel_vector img r c).
    { intros r c Hr Hc.
      rewrite (nth_windows (fun x y w1 w2 => channel_vector img (x * w + w1) (y * w + w2))).
      - f_equal.
        + pose proof (Nat.div_mod_eq r w). lia.
        + pose proof (Nat.div_mod_eq c w). lia.
      - apply Nat.Div0.div_lt_upper_bound. lia.
      - apply Nat.Div0.div_lt_upper_bound. lia.
      - apply Nat.mod_upper_bound. lia.
      - apply Nat.mod_upper_bound. lia. }
    split; [exact Haxes|]. split; [exact Hpix|].
    unfold block_image. rewrite Haxes.
    rewrite (image_of_pixels img h wd Hshape) at 2.
    rewrite <- Hhq, <- Hwq.
    apply map_ext_in. intros ch Hch. apply map_ext_in. intros r Hr.
    apply map_ext_in. intros c Hc. apply in_seq in Hr, Hc.
    rewrite Hpix by lia. apply channel_vector_nth.
  - intros Hbad. unfold block_windows. rewrite Hheight, Hwidth.
    replace ((h mod w =? 0)%nat && (wd mod w =? 0)%nat) with false; [reflexivity|].
    symmetry. apply andb_false_iff.
    destruct Hbad as [Hb|Hb]; [left|right]; now apply Nat.eqb_neq.
Qed.

(** X24. On an image whose height and width are multiples of the window
    size, the grid-like partition makes [h / w] by [wd / w] windows and puts
    pixel [(r, c)] at position [(r / (h / w), c / (wd / w))] of window
    [(r mod (h / w), c mod (wd / w))]: a window takes every [(h / w)]-th row
    and every [(wd / w)]-th column, so it spans the whole image.  The
    inverse rearrangement gives the image back. *)
Theorem grid_windows_round_trip (w : nat) (img : list (list vec)) (h wd : nat) :
  (0 < w)%nat -> img <> [] -> image_shape img h wd -> (0 < h)%nat -> (0 < wd)%nat ->
  ((h mod w = 0)%nat -> (wd mod w = 0)%nat ->
   let nx := (h / w)%nat in
   let ny := (wd / w)%nat in
   exists t,
     grid_windows w img = Ok t
     /\ windows_axes t = (nx, ny, w, w, length img)
     /\ (forall r c, (r < h)%nat -> (c < wd)%nat ->
           nth (c / ny) (nth (r / nx) (nth (c mod ny) (nth (r mod nx) t []) []) []) []
           = channel_vector img r c)
     /\ grid_image t = img)
  /\ ((h mod w <> 0)%nat \/ (wd mod w <> 0)%nat ->
      grid_windows w img = Raise RuntimeError).
Proof.
  intros Hw Hne Hshape Hh Hwd.
  destruct (image_height_width img h wd Hne Hshape Hh) as [Hheight Hwidth].
  split.
  - intros Hmh Hmw. cbv zeta. unfold grid_windows. rewrite Hheight, Hwidth, Hmh, Hmw.
    cbn [Nat.eqb andb negb].
    pose proof (multiple_div h w Hw Hmh) as Hhq.
    pose proof (multiple_div wd w Hw Hmw) as Hwq.
    assert (Hnx : (0 < h / w)%nat) by nia.
    assert (Hny : (0 < wd / w)%nat) by nia.
    eexists. split; [reflexivity|].
    assert (Haxes : windows_axes
              (map (fun x => map (fun y => map (fun w1 => map (fun w2 =>
                      channel_vector img (w1 * (h / w) + x) (w2 * (wd / w) + y)) (seq 0 w))
                      (seq 0 w)) (seq 0 (wd / w))) (seq 0 (h / w)))
            = ((h / w)%nat, (wd / w)%nat, w, w, length img)).
    { apply (windows_axes_map
               (fun x y w1 w2 => channel_vector img (w1 * (h / w) + x) (w2 * (wd / w) + y)));
        try assumption. intros. apply channel_vector_length. }
    assert (Hpix : forall r c, (r < h)%nat -> (c < wd)%nat ->
              nth (c / (wd / w)) (nth (r / (h / w)) (nth (c mod (wd / w)) (nth (r mod (h / w))
                (map (fun x => map (fun y => map (fun w1 => map (fun w2 =>
                      channel_vector img (w1 * (h / w) + x) (w2 * (wd / w) + y)) (seq 0 w))
                      (seq 0 w)) (seq 0 (wd / w))) (seq 0 (h / w))) []) []) []) []
              = channel_vector img r c).
    { intros r c Hr Hc.
      rewrite (nth_windows
                 (fun x y w1 w2 => channel_vector img (w1 * (h / w) + x) (w2 * (wd / w) + y))).
      - f_equal.
        + pose proof (Nat.div_mod_eq r (h / w)). lia.
        + pose proof (Nat.div_mod_eq c (wd / w)). lia.
      - apply Nat.mod_upper_bound. lia.
      - apply Nat.mod_upper_bound. lia.
      - apply Nat.Div0.div_lt_upper_bound. lia.
      - apply Nat.Div0.div_lt_upper_bound. lia. }
    split; [exact Haxes|]. split; [exact Hpix|].
    unfold grid_image. rewrite Haxes.
    rewrite (image_of_pixels img h wd Hshape) at 2.
    replace (w * (h / w))%nat with h by lia.
    replace (w * (wd / w))%nat with wd by lia.
    apply map_ext_in. intros ch Hch. apply map_ext_in. intros r Hr.
    apply map_ext_in. intros c Hc. apply in_seq in Hr, Hc.
    rewrite Hpix by lia. apply channel_vector_nth.
  - intros Hbad. unfold grid_windows. rewrite Hheight, Hwidth.
    replace ((h mod w =? 0)%nat && (wd mod w =? 0)%nat) with false; [reflexivity|].
    symmetry. apply andb_false_iff.
    destruct Hbad as [Hb|Hb]; [left|right]; now apply Nat.eqb_neq.
Qed.

Lemma flatten_windows_items (f : nat -> nat -> nat -> nat -> vec) (nx ny w : nat)
    (win : list vec) :
  In win (items (flatten_windows
           (map (fun x => map (fun y => map (fun w1 => map (fun w2 => f x y w1 w2) (seq 0 w))
                                            (seq 0 w)) (seq 0 ny)) (seq 0 nx)))) ->
  length win = (w * w)%nat.
Proof.
  unfold flatten_windows. cbn [items]. intros Hin.
  apply in_concat in Hin. destruct Hin as (row & Hrow & Hin).
  apply in_map_iff in Hrow. destruct Hrow as (r0 & <- & Hr0).
  apply in_map_iff in Hr0. destruct Hr0 as (x & <- & _).
  apply in_map_iff in Hin. destruct Hin as (w0 & <- & Hw0).
  apply in_map_iff in Hw0. destruct Hw0 as (y & <- & _).
  rewrite <- flat_map_concat_map.
  rewrite (flat_map_length_const _ w) by (intros; now rewrite length_map, length_seq).
  now rewrite length_seq.
Qed.

Lemma flatten_windows_count (f : nat -> nat -> nat -> nat -> vec) (nx ny w : nat) :
  length (items (flatten_windows
           (map (fun x => map (fun y => map (fun w1 => map (fun w2 => f x y w1 w2) (seq 0 w))
                                            (seq 0 w)) (seq 0 ny)) (seq 0 nx))))
  = (nx * ny)%nat.
Proof.
  unfold flatten_windows. cbn [items]. rewrite map_map, <- flat_map_concat_map.
  rewrite (flat_map_length_const _ ny) by (intros; now rewrite !length_map, length_seq).
  now rewrite length_seq.
Qed.

Lemma Attention_forward_flat (a : Attention) (d : nat) (x : packed (list vec)) :
  length (weight (at_to_out a)) = d ->
  (forall win, In win (items x) ->
     length win = (at_window_size a * at_window_size a)%nat) ->
  exists out,
    Attention_forward a x = Ok out
    /\ lead out = lead x
    /\ length (items out) = length (items x)
    /\ Forall (fun win => length win = (at_window_size a * at_window_size a)%nat
                          /\ Forall (fun t => length t = d) win) (items out).
Proof.
  intros Hd Hwin. unfold Attention_forward.
  destruct (sequence_map_Forall (Attention_window a)
              (fun win => length win = (at_window_size a * at_window_size a)%nat
                          /\ Forall (fun t => length t = d) win)
              (items x)) as (ys & Hys & Hlen & HF).
  { intros win Hin.
    destruct (Attention_window_ok a win (Hwin win Hin)) as (out & Hout & Hl & Ht).
    exists out. rewrite Hl, (Hwin win Hin), <- Hd. auto. }
  rewrite Hys. cbn [bind]. eexists. split; [reflexivity|].
  cbn [lead items]. auto.
Qed.

(** X25. A stage of [MaxViT] gives its partitions and its attentions the
    same window size: on an image with the channels of the attention whose
    height and width are multiples of the window size, the attention
    accepts the windows of the block-like and of the grid-like partition
    and returns one [window_size^2] group of tokens per window, for
    [h / w] by [wd / w] windows. *)
Theorem stage_attention_accepts_windows (a : Attention) (img : list (list vec))
    (h wd : nat) :
  let w := at_window_size a in
  (0 < w)%nat ->
  Attention_dims (length img) a ->
  img <> [] -> image_shape img h wd -> (0 < h)%nat -> (0 < wd)%nat ->
  (h mod w = 0)%nat -> (wd mod w = 0)%nat ->
  forall partition, partition = block_windows \/ partition = grid_windows ->
  exists t out,
    partition w img = Ok t
    /\ Attention_forward a (flatten_windows t) = Ok out
    /\ lead out = [(h / w)%nat; (wd / w)%nat]
    /\ length (items out) = (h / w * (wd / w))%nat
    /\ Forall (fun win => length win = (w * w)%nat
                          /\ Forall (fun tok => length tok = length img) win)
              (items out).
Proof.
  cbv zeta. intros Hw Hdims Hne Hshape Hh Hwd Hmh Hmw partition Hpart.
  destruct (image_height_width img h wd Hne Hshape Hh) as [Hheight Hwidth].
  assert (Hd : length (weight (at_to_out a)) = length img).
  { destruct Hdims as (_ & _ & _ & _ & _ & _ & _ & (Hout & _) & _). exact Hout. }
  pose proof (multiple_div h _ Hw Hmh) as Hhq.
  pose proof (multiple_div wd _ Hw Hmw) as Hwq.
  assert (Hnx : (0 < h / at_window_size a)%nat) by nia.
  assert (Hny : (0 < wd / at_window_size a)%nat) by nia.
  assert (Hgen : forall f : nat -> nat -> nat -> nat -> vec,
            let t := map (fun x => map (fun y => map (fun w1 => map (fun w2 => f x y w1 w2)
                            (seq 0 (at_window_size a))) (seq 0 (at_window_size a)))
                            (seq 0 (wd / at_window_size a))) (seq 0 (h / at_window_size a)) in
            exists out,
              Attention_forward a (flatten_windows t) = Ok out
              /\ lead out = [(h / at_window_size a)%nat; (wd / at_window_size a)%nat]
              /\ length (items out) = (h / at_window_size a * (wd / at_window_size a))%nat
              /\ Forall (fun win => length win = (at_window_size a * at_window_size a)%nat
                                    /\ Forall (fun tok => length tok = length img) win)
                        (items out)).
  { intros f t.
    destruct (Attention_forward_flat a (length img) (flatten_windows t) Hd)
      as (out & Hout & Hlead & Hlen & HF).
    { intros win Hin. exact (flatten_windows_items f _ _ _ win Hin). }
    exists out. split; [exact Hout|]. split; [|split; [|exact HF]].
    - rewrite Hlead. unfold flatten_windows, t. cbn [lead].
      rewrite length_map, length_seq.
      rewrite (hd_map_seq _ (h / at_window_size a) []) by exact Hnx.
      now rewrite length_map, length_seq.
    - rewrite Hlen. apply flatten_windows_count. }
  destruct Hpart as [-> | ->].
  - unfold block_windows. rewrite Hheight, Hwidth, Hmh, Hmw. cbn [Nat.eqb andb negb].
    destruct (Hgen (fun x y w1 w2 =>
                      channel_vector img (x * at_window_size a + w1)
                                         (y * at_window_size a + w2)))
      as (out & Hout).
    eexists. exists out. split; [reflexivity | exact Hout].
  - unfold grid_windows. rewrite Hheight, Hwidth, Hmh, Hmw. cbn [Nat.eqb andb negb].
    destruct (Hgen (fun x y w1 w2 =>
                      channel_vector img (w1 * (h / at_window_size a) + x)
                                         (w2 * (wd / at_window_size a) + y)))
      as (out & Hout).
    eexists. exists out. split; [reflexivity | exact Hout].
Qed.

(** ** The positional embedding of the learned tokens *)

Lemma repeat_rows_nth (r : nat) (t : list vec) (p : nat) :
  (p < length t * r)%nat -> nth p (repeat_rows r t) [] = nth (p / r) t [].
Proof.
  intros Hp. unfold repeat_rows.
  rewrite (nth_flat_map_blocks _ r t p [] []) by (auto using repeat_length).
  apply nth_repeat_lt. apply Nat.mod_upper_bound. destruct r; lia.
Qed.

Lemma even_double_half (c : nat) : Nat.even c = true -> (2 * (c / 2))%nat = c.
Proof.
  intros He. apply Nat.even_spec in He. destruct He as [m ->].
  rewrite (Nat.mul_comm 2 m), Nat.div_mul by lia. lia.
Qed.

Lemma odd_double_half (c : nat) : Nat.odd c = true -> (2 * (c / 2))%nat = (c - 1)%nat.
Proof.
  intros Ho. apply Nat.odd_spec in Ho. destruct Ho as [m ->].
  replace ((2 * m + 1) / 2)%nat with m; [lia|].
  apply (Nat.div_unique (2 * m + 1) 2 m 1); lia.
Qed.

(** X26. [encode_state] adds to every learned token the sinusoidal
    embedding of its frame: on [frames * r] tokens of an even dimension
    (other than 2, where the embedding divides by zero) the sum keeps the
    shape, and token [p] gets the embedding of frame [p / r], which the [r]
    tokens of a frame share.  For an odd dimension other than 1 the
    embedding is one column short and the sum raises [RuntimeError]. *)
Theorem add_pos_emb_frames (frames r c : nat) (x : list (list vec)) :
  tokens_dim c x ->
  Forall (fun toks => length toks = (frames * r)%nat) x ->
  (Nat.even c = true -> c <> 2%nat ->
   exists out,
     add_pos_emb frames r c x = Ok out
     /\ length out = length x
     /\ Forall (fun toks => length toks = (frames * r)%nat) out
     /\ tokens_dim c out
     /\ forall b p k, (b < length x)%nat -> (p < frames * r)%nat -> (k < c)%nat ->
          nth k (nth p (nth b out []) []) 0
          = nth k (nth p (nth b x []) []) 0
            + nth k (nth (p / r) (posemb_sincos_1d frames c 10000) []) 0)
  /\ (Nat.odd c = true -> c <> 1%nat -> x <> [] ->
      add_pos_emb frames r c x = Raise RuntimeError).
Proof.
  intros _ Hlen. rewrite Forall_forall in Hlen. split.
  - intros He _. unfold add_pos_emb. rewrite (even_double_half c He).
    set (g := fun toks : list vec =>
                map (fun p => map (fun k =>
                       nth (broadcast_index c k)
                           (nth (broadcast_index (length toks) p) toks []) 0
                       + nth (broadcast_index c k)
                             (nth (broadcast_index (frames * r) p)
                                  (repeat_rows r (posemb_sincos_1d frames c 10000)) []) 0)
                     (seq 0 c)) (seq 0 (frames * r))).
    rewrite (sequence_map_ok _ g).
    2:{ intros toks Hin. rewrite (Hlen toks Hin), !broadcast_size_same.
        unfold g. now rewrite (Hlen toks Hin). }
    eexists. split; [reflexivity|]. split; [apply length_map|].
    split; [|split].
    + apply Forall_forall. intros o Ho. apply in_map_iff in Ho.
      destruct Ho as (toks & <- & _). unfold g. now rewrite length_map, length_seq.
    + apply Forall_forall. intros o Ho. apply in_map_iff in Ho.
      destruct Ho as (toks & <- & _). unfold g.
      apply Forall_forall. intros tok Htok. apply in_map_iff in Htok.
      destruct Htok as (p & <- & _). now rewrite length_map, length_seq.
    + intros b p k Hb Hp Hk.
      rewrite (nth_map_in g x b [] []) by exact Hb. unfold g.
      rewrite (nth_map_seq _ _ p []) by exact Hp.
      rewrite (nth_map_seq _ _ k 0) by exact Hk.
      assert (Hbl : length (nth b x []) = (frames * r)%nat)
        by (apply Hlen; now apply nth_In).
      rewrite (broadcast_index_lt c k) by exact Hk.
      rewrite (broadcast_index_lt (length (nth b x [])) p) by (rewrite Hbl; exact Hp).
      rewrite (broadcast_index_lt (frames * r) p) by exact Hp.
      rewrite repeat_rows_nth; [reflexivity|].
      unfold posemb_sincos_1d. now rewrite !length_map, length_seq.
  - intros Ho Hc1 Hne. unfold add_pos_emb. rewrite (odd_double_half c Ho).
    destruct x as [|toks rest]; [congruence|].
    cbn [map sequence]. rewrite (Hlen toks) by (now left).
    rewrite broadcast_size_same.
    assert (Hnone : broadcast_size c (c - 1) = None).
    { unfold broadcast_size.
      assert (Hpos : (1 <= c)%nat).
      { apply Nat.odd_spec in Ho. destruct Ho as [m ->]. lia. }
      destruct (Nat.eqb_spec c (c - 1)); [lia|].
      destruct (Nat.eqb_spec c 1); [contradiction|].
      destruct (Nat.eqb_spec (c - 1) 1) as [E|E]; [|reflexivity].
      apply Nat.odd_spec in Ho. destruct Ho as [m Hm]. lia. }
    rewrite Hnone. reflexivity.
Qed.

End Model.

(* ================================================================= *)
(** * Part III: examples *)
(* ================================================================= *)

Lemma ex_multi_params_wf : MultiParams_wf (Some 2%nat) 3 true ex_multi_params.
Proof.
  split.
  - split; [reflexivity|]. split; [repeat constructor | reflexivity].
  - constructor; [|constructor]. cbn. repeat split. intros [|[|hi]]; reflexivity.
Qed.

Lemma dueling_q_values_witness :
  length (DuelingHead_forward ex_dueling_head [[1; 2]]) = 1%nat
  /\ exists q, get_q_values ex_head [[[1; 0]; [0; 1]]] = Ok q.
Proof.
  destruct (dueling_q_values ex_dueling_head [[1; 2]] ex_head [[[1; 0]; [0; 1]]])
    as (_ & Hlen & Hq).
  - reflexivity.
  - reflexivity.
  - repeat constructor.
  - simpl. lia.
  - simpl. lia.
  - split; [exact Hlen|]. eexists. exact Hq.
Defined.

Lemma multi_action_head_causal_witness :
  (forall l, In l (layers (ma_transformer ex_head)) -> ta_causal (fst l) = true)
  /\ map (fun s => nth 0%nat s [])
         (head_embed (fun x => x) ex_head [[[1; 2]; [3; 4]]])
     = map (fun s => nth 0%nat s [])
           (head_embed (fun x => x) ex_head [[[1; 2]; [5; 6]; [7; 8]]]).
Proof.
  destruct (multi_action_head_causal (fun x => x) (Some 2%nat) 3 true ex_multi_params
              ex_multi_params_wf) as (Hc & _ & Hslot & _).
  split; [exact Hc|]. apply Hslot. reflexivity.
Defined.


Lemma forward_tokens_teacher_forcing_witness :
  forward_tokens ex_head ex_state (Some [[1; 2]]%Z)
  = Ok [[reduce_mean_tokens [[1; 2]; [3; 4]]; [0; 1]]].
Proof.
  destruct (forward_tokens_teacher_forcing ex_head ex_state [[1; 2]]%Z) as [H _].
  - exact (proj1 ex_multi_params_wf).
  - simpl. lia.
  - reflexivity.
  - repeat constructor.
  - repeat constructor; simpl; lia.
  - rewrite H. reflexivity.
Defined.

Lemma ex_model_init :
  QRoboticTransformer_init ex_enc 2 3 1 true (Some 2%nat)
    ex_single_params ex_multi_params
  = Ok ex_model.
Proof. reflexivity. Qed.

Lemma ex_single_model_init :
  QRoboticTransformer_init ex_enc 1 3 1 false (Some 2%nat)
    ex_single_params ex_multi_params
  = Ok ex_single_model.
Proof. reflexivity. Qed.

Lemma forward_q_values_witness :
  (exists q,
     QRoboticTransformer_forward (fun x => x) ex_model tt None None 0 = Ok q
     /\ has_shape q [1; 1; 3]%nat)
  /\ (exists q,
        QRoboticTransformer_forward (fun x => x) ex_model tt None
          (Some [[1; 2]]%Z) 0 = Ok q
        /\ has_shape q [1; 2; 3]%nat).
Proof.
  destruct (forward_q_values (fun x => x) ex_enc 2 3 1 true (Some 2%nat)
              ex_single_params ex_multi_params ex_model tt None 0)
    as (_ & _ & Hnone & Hsome).
  - reflexivity.
  - split; reflexivity.
  - exact ex_multi_params_wf.
  - simpl. lia.
  - split.
    + apply (Hnone ex_state); reflexivity.
    + apply (Hsome ex_state [[1; 2]]%Z); try reflexivity.
      * repeat constructor.
      * repeat constructor; simpl; lia.
Defined.

(** C1 as it is stated fails on the code: in single-action mode the
    returned tensor has two axes, [batch x action_bins], and in multi-action
    mode without actions it has a single slot, not [num_actions] slots. *)
Lemma forward_q_values_shape_counterexample :
  (exists q,
     QRoboticTransformer_forward (fun x => x) ex_single_model tt None None 0
     = Ok q
     /\ ~ has_shape q [1; num_actions ex_single_model;
                        action_bins ex_single_model]%nat)
  /\ (exists q,
        QRoboticTransformer_forward (fun x => x) ex_model tt None None 0
        = Ok q
        /\ ~ has_shape q [1; num_actions ex_model;
                           action_bins ex_model]%nat).
Proof.
  split.
  - destruct (QHeadSingleAction_forward_shape
                (QHeadSingleAction_init 1 3 false ex_single_params) ex_state)
      as (q & Hq & _).
    + reflexivity.
    + simpl. lia.
    + repeat constructor.
    + exists (Q2 q). split.
      * unfold QRoboticTransformer_forward, ex_single_model, ex_enc.
        cbn [encode_state is_single_action q_head bind exists_ QHead_call].
        rewrite Hq. reflexivity.
      * cbn [has_shape]. tauto.
  - eexists. split.
    + unfold QRoboticTransformer_forward, ex_model, ex_enc.
      cbn [encode_state is_single_action q_head bind QHead_call default].
      rewrite forward_no_actions_q;
        [reflexivity | exact (proj1 ex_multi_params_wf) | simpl; lia].
    + cbn [has_shape]. intros [_ Hrows].
      destruct (head_embed (fun x => x) ex_head (sos_token ex_state)) as [|e es] eqn:He.
      * apply (f_equal (@length _)) in He.
        rewrite head_embed_length in He. discriminate He.
      * cbn [map] in Hrows. inversion Hrows as [|? ? [Hlen _] _].
        discriminate Hlen.
Qed.

Lemma forward_single_action_rejects_actions_witness :
  QRoboticTransformer_forward (fun x => x) ex_single_model tt None
    (Some [[0]]%Z) 0
  = Raise AssertionError
  /\ QRoboticTransformer_forward (fun x => x) ex_failing_single_model tt None
       (Some [[0]]%Z) 0
     = Raise RuntimeError.
Proof.
  split.
  - destruct (forward_single_action_rejects_actions (fun x => x) ex_enc 3 1
                false (Some 2%nat) ex_single_params ex_multi_params ex_single_model
                tt None [[0]]%Z 0) as (_ & _ & H & _).
    + reflexivity.
    + apply (H ex_state). reflexivity.
  - destruct (forward_single_action_rejects_actions (fun x => x) ex_failing_enc 3 1
                false (Some 2%nat) ex_single_params ex_multi_params
                ex_failing_single_model tt None [[0]]%Z 0) as (_ & _ & _ & H).
    + reflexivity.
    + apply (H RuntimeError). reflexivity.
Defined.

(** C6 as it is stated fails on the code: [forward] encodes the state
    before it looks at the actions, so on a model built with
    [num_actions = 1] a call with an actions tensor whose encoding raises
    [RuntimeError] raises that exception, not an assertion error. *)
Lemma forward_single_action_rejects_actions_counterexample :
  QRoboticTransformer_init ex_failing_enc 1 3 1 false (Some 2%nat)
    ex_single_params ex_multi_params
  = Ok ex_failing_single_model
  /\ QRoboticTransformer_forward (fun x => x) ex_failing_single_model tt None
       (Some [[0]]%Z) 0
     = Raise RuntimeError
  /\ QRoboticTransformer_forward (fun x => x) ex_failing_single_model tt None
       (Some [[0]]%Z) 0
     <> Raise AssertionError.
Proof.
  split; [reflexivity|]. split; [reflexivity | discriminate].
Qed.

Lemma get_random_actions_raises_witness :
  QHeadMultipleActions_get_random_actions ex_module_attrs (fun _ _ _ _ => []) ex_head 4
  = Raise AttributeError
  /\ QHeadSingleAction_get_random_actions ex_module_attrs (fun _ _ _ _ => [])
       (QHeadSingleAction_init 1 3 false ex_single_params) 4
     = Raise AttributeError
  /\ get_actions (fun x => x) ex_module_attrs (fun _ _ _ _ => [])
       (fun _ => 4%nat) ex_model (1 / 4) tt None None 0 true (1 / 2)
     = Raise AttributeError.
Proof.
  destruct (get_random_actions_raises (fun x => x) ex_module_attrs (fun _ _ _ _ => []))
    as (_ & Hm & _ & Hs & _ & Hact).
  - reflexivity.
  - reflexivity.
  - split; [apply Hm|]. split; [apply Hs|]. apply Hact; lra.
Defined.

Lemma TokenLearner_forward_shape_witness :
  exists out,
    TokenLearner_forward (fun x => x) ex_token_learner ex_frames = Ok out
    /\ lead out = [1; 1]%nat
    /\ Forall (fun t => length t = 1%nat /\ Forall (fun row => length row = 2%nat) t)
              (items out).
Proof.
  destruct (TokenLearner_forward_shape (fun x => x) 1 1 2 2 3 [[1]; [2]] [0; 0] [[1]; [1]]
              [0; 0] ex_frames)
    as (out & Hout & Hlead & _ & Hshape).
  - lia.
  - lia.
  - lia.
  - lia.
  - lia.
  - reflexivity.
  - reflexivity.
  - discriminate.
  - repeat constructor.
  - exists out. repeat split; assumption.
Defined.

(** C7 as it is stated fails on the code: on a feature map of width zero
    [pack_one] raises [RuntimeError], so no tokens are returned. *)
Lemma TokenLearner_forward_shape_counterexample :
  Forall (fun img => length img = 1%nat /\ height img = 2%nat /\ width img = 0%nat)
         (items ex_empty_frames)
  /\ TokenLearner_forward (fun x => x) ex_token_learner ex_empty_frames
     = Raise RuntimeError
  /\ forall out,
       TokenLearner_forward (fun x => x) ex_token_learner ex_empty_frames <> Ok out.
Proof.
  split; [repeat constructor|].
  assert (H : TokenLearner_forward (fun x => x) ex_token_learner ex_empty_frames
              = Raise RuntimeError) by reflexivity.
  split; [exact H|]. intros out. rewrite H. discriminate.
Qed.

(* ================================================================= *)
(** * Part III, continued: examples for the rest of the module *)
(* ================================================================= *)

(** The shapes of concrete parameters are checked by computation. *)
Ltac shapes :=
  repeat (intros; constructor); try reflexivity; try discriminate; try lia.

Lemma rel_pos_indices_in_range_witness :
  (0 <= nth 2%nat (nth 1%nat (rel_pos_indices 2) []) 0 < 9)%Z.
Proof.
  destruct (rel_pos_indices_in_range 2 1 2) as (_ & _ & H).
  - simpl. lia.
  - simpl. lia.
  - exact H.
Defined.

Lemma rel_pos_indices_offset_iff_witness :
  nth 1%nat (nth 0%nat (rel_pos_indices 2) []) 0%Z
  = nth 3%nat (nth 2%nat (rel_pos_indices 2) []) 0%Z.
Proof.
  apply (rel_pos_indices_offset_iff 2 0 1 2 3).
  - simpl. lia.
  - simpl. lia.
  - simpl. lia.
  - simpl. lia.
  - reflexivity.
Defined.

Lemma Attention_bias_entries_witness :
  nth (1 + 1)%nat (nth 0%nat (Attention_bias ex_window_attention 1) []) []
  = nth (1 + 3)%nat (nth 2%nat (Attention_bias ex_window_attention 1) []) []
  /\ nth 0%nat (nth 0%nat (Attention_bias ex_window_attention 1) []) [] = [0].
Proof.
  destruct (Attention_bias_entries ex_window_attention 1 0 1 2 3)
    as (_ & _ & Hmem & _ & _ & Hsame).
  - reflexivity.
  - simpl. lia.
  - simpl. lia.
  - simpl. lia.
  - simpl. lia.
  - split.
    + apply Hsame. reflexivity.
    + apply (Hmem 0%nat). lia.
Defined.

Lemma ex_window_attention_dims : Attention_dims 2 ex_window_attention.
Proof. cbv [Attention_dims Linear_dims LayerNorm_dims tensor3_shape]. cbn. shapes. Qed.

Lemma ex_point_attention_dims : Attention_dims 2 ex_point_attention.
Proof. cbv [Attention_dims Linear_dims LayerNorm_dims tensor3_shape]. cbn. shapes. Qed.

Lemma Attention_forward_windows_witness :
  (exists out,
     Attention_forward ex_window_attention (mkPacked [1; 1; 2]%nat [ex_window; ex_window])
     = Ok out
     /\ lead out = [1; 1; 2]%nat
     /\ length (items out) = 2%nat)
  /\ Attention_forward ex_window_attention
       (mkPacked [1; 1; 2]%nat [ex_short_window; ex_short_window])
     = Raise RuntimeError
  /\ (exists out,
        Attention_forward ex_point_attention
          (mkPacked [1; 1; 2]%nat [ex_short_window; ex_short_window])
        = Ok out
        /\ length (items out) = 2%nat).
Proof.
  split; [|split].
  - destruct (Attention_forward_windows ex_window_attention 2
                (mkPacked [1; 1; 2]%nat [ex_window; ex_window])) as [Hok _].
    + exact ex_window_attention_dims.
    + repeat constructor.
    + destruct Hok as (out & Hout & Hlead & Hlen & _).
      * discriminate.
      * repeat constructor.
      * exists out. repeat split; assumption.
  - destruct (Attention_forward_windows ex_window_attention 2
                (mkPacked [1; 1; 2]%nat [ex_short_window; ex_short_window]))
      as (_ & Herr & _).
    + exact ex_window_attention_dims.
    + repeat constructor.
    + apply (Herr ltac:(discriminate) ex_short_window).
      * left. reflexivity.
      * simpl. lia.
  - destruct (Attention_forward_windows ex_point_attention 2
                (mkPacked [1; 1; 2]%nat [ex_short_window; ex_short_window]))
      as (_ & _ & Hany).
    + exact ex_point_attention_dims.
    + repeat constructor.
    + destruct Hany as (out & Hout & _ & Hlen & _).
      * reflexivity.
      * reflexivity.
      * exists out. split; assumption.
Defined.

Lemma ex_default_params_wf : MultiParams_wf None 3 true ex_default_params.
Proof.
  split.
  - split; [reflexivity|]. split; [repeat constructor | reflexivity].
  - constructor; [|constructor]. cbn. repeat split. intros [|[|hi]]; reflexivity.
Qed.

Lemma ex_state_dim : tokens_dim 2 ex_state.
Proof. repeat constructor. Qed.

Lemma ex_head_dims (num_actions : option nat) (p : MultiParams) :
  p = ex_multi_params \/ p = ex_default_params ->
  QHeadMultipleActions_dims 2 (QHeadMultipleActions_init num_actions 3 true p).
Proof.
  intros [-> | ->];
    cbv [QHeadMultipleActions_dims Transformer_dims TransformerAttention_dims
         FeedForward_dims Linear_dims LayerNorm_dims tensor3_shape]; cbn; shapes.
Qed.

Lemma forward_default_head_extra_slot_witness :
  exists q,
    QRoboticTransformer_forward (fun x => x) (ex_default_model 2) tt None
      (Some [[1; 2]]%Z) 0 = Ok q
    /\ has_shape q [1; 3; 3]%nat.
Proof.
  destruct (forward_default_head_extra_slot (fun x => x) ex_enc 2 3 1 true
              ex_single_params ex_default_params (ex_default_model 2) tt None 0
              ex_state [[1; 2]]%Z 2) as [_ H].
  - reflexivity.
  - exact ex_default_params_wf.
  - apply ex_head_dims. right. reflexivity.
  - lia.
  - reflexivity.
  - exact ex_state_dim.
  - reflexivity.
  - repeat constructor.
  - repeat constructor; simpl; lia.
  - exact H.
Defined.

Lemma forward_default_head_too_many_actions_witness :
  QRoboticTransformer_forward (fun x => x) (ex_default_model 9) tt None
    (Some [[0; 1; 2; 0; 1; 2; 0; 1; 2]]%Z) 0
  = Raise RuntimeError.
Proof.
  apply (forward_default_head_too_many_actions (fun x => x) ex_enc 9 3 1 true
           ex_single_params ex_default_params (ex_default_model 9) tt None 0
           ex_state [[0; 1; 2; 0; 1; 2; 0; 1; 2]]%Z).
  - reflexivity.
  - exact ex_default_params_wf.
  - lia.
  - reflexivity.
  - discriminate.
  - repeat constructor.
Defined.

Lemma get_q_values_slots_witness :
  (exists q, get_q_values ex_head [[[1; 0]; [0; 1]]] = Ok q /\ length q = 1%nat)
  /\ get_q_values ex_head [[[1; 0]; [0; 1]; [1; 1]]] = Raise RuntimeError.
Proof.
  split.
  - destruct (get_q_values_slots ex_head 2 [[[1; 0]; [0; 1]]]) as [Hok _].
    + apply ex_head_dims. left. reflexivity.
    + discriminate.
    + repeat constructor.
    + repeat constructor.
    + reflexivity.
    + destruct Hok as (q & Hq & Hlen & _).
      * simpl. lia.
      * exists q. split; assumption.
  - destruct (get_q_values_slots ex_head 2 [[[1; 0]; [0; 1]; [1; 1]]]) as [_ Herr].
    + apply ex_head_dims. left. reflexivity.
    + discriminate.
    + repeat constructor.
    + repeat constructor.
    + reflexivity.
    + apply Herr; simpl; lia.
Defined.

Lemma greedy_bin_maximises_q_witness :
  exists q,
    get_q_values ex_head [[[1; 0]; [0; 1]]] = Ok q
    /\ argmax (nth 1%nat (nth 0%nat q []) [])
       = argmax (nth 0%nat (einsum_bd_ad [[0; 1]] [[0; 1]; [1; 0]; [1; -1]]) []).
Proof.
  destruct (greedy_bin_maximises_q ex_head 2 [[[1; 0]; [0; 1]]] 0 1)
    as (q & Hq & Harg & _).
  - apply ex_head_dims. left. reflexivity.
  - repeat constructor.
  - repeat constructor.
  - simpl. lia.
  - reflexivity.
  - simpl. lia.
  - simpl. lia.
  - exists q. split; [exact Hq | exact Harg].
Defined.






Lemma heads_ignore_token_order_witness :
  QHeadSingleAction_forward ex_single_head [[[1; 2]; [3; 4]]]
  = QHeadSingleAction_forward ex_single_head [[[3; 4]; [1; 2]]]
  /\ QHeadMultipleActions_get_optimal_actions (fun x => x) ex_head [[[1; 2]; [3; 4]]] true
     = QHeadMultipleActions_get_optimal_actions (fun x => x) ex_head [[[3; 4]; [1; 2]]] true.
Proof.
  destruct (heads_ignore_token_order (fun x => x) ex_single_head ex_head
              [[[1; 2]; [3; 4]]] [[[3; 4]; [1; 2]]] 2) as (Hs & _ & _ & Hm).
  - constructor; [apply perm_swap | constructor].
  - repeat constructor.
  - split; [exact Hs | apply Hm].
Defined.

Lemma posemb_sincos_1d_rows_witness :
  length (posemb_sincos_1d 3 4 10000) = 3%nat
  /\ length (nth 1%nat (posemb_sincos_1d 3 4 10000) []) = 4%nat
  /\ nth 0%nat (nth 1%nat (posemb_sincos_1d 3 4 10000) []) 0 = sin (INR 1).
Proof.
  destruct (posemb_sincos_1d_rows 3 4 10000 1) as (Hlen & Hrow & _ & _ & Hval).
  - lia.
  - split; [exact Hlen|]. split; [exact Hrow|].
    destruct Hval as (_ & _ & _ & Hfirst).
    + lra.
    + discriminate.
    + apply Hfirst. simpl. lia.
Defined.

Lemma ex_image_shape : image_shape ex_image 1 2.
Proof. repeat constructor. Qed.

Lemma ChanLayerNorm_shift_invariant_witness :
  ChanLayerNorm_forward ex_chan_norm (map (map (map (fun v => v + 5))) ex_image)
  = ChanLayerNorm_forward ex_chan_norm ex_image.
Proof.
  apply (ChanLayerNorm_shift_invariant ex_chan_norm ex_image 1 2 5).
  exact ex_image_shape.
Defined.

Lemma ChanLayerNorm_constant_pixel_witness :
  exists out,
    ChanLayerNorm_forward ex_chan_norm ex_image = Ok out
    /\ nth 0%nat (nth 0%nat (nth 1%nat out []) []) 0 = 4.
Proof.
  destruct (ChanLayerNorm_constant_pixel ex_chan_norm ex_image 1 2 1 0 0 1)
    as (out & Hout & _ & _ & Hv).
  - simpl. lra.
  - exact ex_image_shape.
  - reflexivity.
  - reflexivity.
  - simpl. lia.
  - lia.
  - lia.
  - intros a [<-|[<-|[]]]; reflexivity.
  - exists out. split; [exact Hout | exact Hv].
Defined.



Lemma MaxViT_blocks_chain_witness :
  length (MaxViT_blocks 4 None [2; 1; 3]%nat) = 6%nat
  /\ channels_through 4 (MaxViT_blocks 4 None [2; 1; 3]%nat) = Ok 16%nat.
Proof.
  destruct (MaxViT_blocks_chain 4 None [2; 1; 3]%nat) as (Hlen & _ & Hchain & Hdim).
  split; [exact Hlen|].
  etransitivity; [exact (Hchain ltac:(repeat constructor; lia))|].
  rewrite Hdim by discriminate. reflexivity.
Defined.

Lemma MaxViT_blocks_residual_witness :
  MBConv_is_residual (mkBlock 4 8 true) = false
  /\ MBConv_is_residual (mkBlock 4 4 false) = true.
Proof.
  destruct (MaxViT_blocks_residual 4 None [2; 1]%nat (mkBlock 4 8 true)) as (H1 & _).
  - right. right. left. reflexivity.
  - destruct (MaxViT_blocks_residual 4 None [2; 1]%nat (mkBlock 4 4 false)) as (H2 & _).
    + right. left. reflexivity.
    + split; [exact H1 | exact H2].
Defined.

Lemma split_cond_fns_parts_witness :
  length (fst (split_cond_fns 1 [10; 11; 12; 13; 14]%nat)) = 3%nat
  /\ length (snd (split_cond_fns 1 [10; 11; 12; 13; 14]%nat)) = 2%nat
  /\ split_cond_fns 0 [10; 11; 12]%nat = ([], [10; 11; 12]%nat).
Proof.
  destruct (split_cond_fns_parts 1 [10; 11; 12; 13; 14]%nat) as [H _].
  destruct H as (_ & Hsnd & Hfst); [lia|].
  destruct (split_cond_fns_parts 0 [10; 11; 12]%nat) as [_ H0].
  split; [exact Hfst|]. split; [exact Hsnd|]. apply H0. reflexivity.
Defined.

Lemma cond_fns_consumption_witness :
  MaxViT_forward S [Nat.mul 2; Nat.add 10] Nat.even 0%nat
    (Some [Nat.mul 3; Nat.add 100]) true
  = inl 116%nat
  /\ Transformer_forward (fun x => x)
       (Transformer_init false [(ex_attention, ex_feed_forward)])
       ex_state (Some ([(fun x => x); (fun x => x)] ++ [fun _ => []])) None
     = Transformer_forward (fun x => x)
         (Transformer_init false [(ex_attention, ex_feed_forward)])
         ex_state (Some [(fun x => x); (fun x => x)]) None
  /\ Transformer_forward (fun x => x)
       (Transformer_init false [(ex_attention, ex_feed_forward)])
       ex_state (Some [fun _ => []]) None
     = [].
Proof.
  destruct (cond_fns_consumption (fun x => x)
              (Transformer_init false [(ex_attention, ex_feed_forward)]) ex_state
              [(fun x => x); (fun x => x)] [fun _ => []] None
              S [Nat.mul 2; Nat.add 10] Nat.even 0%nat
              [Nat.mul 3; Nat.add 100] [] true)
    as (_ & Hv & _ & Ht & _).
  destruct (cond_fns_consumption (fun x => x)
              (Transformer_init false [(ex_attention, ex_feed_forward)]) ex_state
              [fun _ => []] [] None
              S [Nat.mul 2; Nat.add 10] Nat.even 0%nat
              [Nat.mul 3; Nat.add 100] [] true)
    as (Hpos & _).
  split; [|split].
  - etransitivity; [exact Hv | reflexivity].
  - apply Ht. simpl. lia.
  - etransitivity; [exact Hpos | reflexivity].
Defined.

Lemma TokenLearner_forward_wrong_channels_witness :
  TokenLearner_forward (fun x => x)
    (TokenLearner_init 1 1 2 [[1]; [2]] [0; 0] [[1]; [1]] [0; 0])
    (mkPacked [1; 1]%nat [[[[1; 2; 3]]; [[4; 5; 6]]]])
  = Raise RuntimeError.
Proof.
  destruct (TokenLearner_forward_wrong_channels (fun x => x) 1 1 2 [[1]; [2]] [0; 0]
              [[1]; [1]] [0; 0] (mkPacked [1; 1]%nat [[[[1; 2; 3]]; [[4; 5; 6]]]])
              [[[1; 2; 3]]; [[4; 5; 6]]]) as [_ H].
  - lia.
  - left. reflexivity.
  - simpl. lia.
  - exact H.
Defined.

Lemma ex_transformer_dims :
  Transformer_dims 2 (Transformer_init false [(ex_attention, ex_feed_forward)]).
Proof.
  cbv [Transformer_dims TransformerAttention_dims FeedForward_dims Linear_dims
       tensor3_shape]. cbn. shapes.
Qed.

Lemma Transformer_forward_shape_witness :
  length (Transformer_forward (fun x => x)
            (Transformer_init false [(ex_attention, ex_feed_forward)])
            ex_state None None) = 1%nat
  /\ tokens_dim 2 (Transformer_forward (fun x => x)
                     (Transformer_init false [(ex_attention, ex_feed_forward)])
                     ex_state None None).
Proof.
  destruct (Transformer_forward_shape (fun x => x)
              (Transformer_init false [(ex_attention, ex_feed_forward)]) 2 ex_state)
    as (Hlen & _ & Hdim).
  - exact ex_transformer_dims.
  - exact ex_state_dim.
  - split; [exact Hlen | exact Hdim].
Defined.

Lemma ex_feature_map_shape : image_shape ex_feature_map 2 4.
Proof. repeat constructor. Qed.

Lemma block_windows_round_trip_witness :
  (exists t, block_windows 2 ex_feature_map = Ok t
             /\ nth 1%nat (nth 0%nat (nth 1%nat (nth 0%nat t []) []) []) []
                = channel_vector ex_feature_map 0 3
             /\ block_image t = ex_feature_map)
  /\ block_windows 3 ex_feature_map = Raise RuntimeError.
Proof.
  split.
  - destruct (block_windows_round_trip 2 ex_feature_map 2 4) as [Hok _].
    + lia.
    + discriminate.
    + exact ex_feature_map_shape.
    + lia.
    + lia.
    + destruct Hok as (t & Ht & _ & Hpix & Hback).
      * reflexivity.
      * reflexivity.
      * exists t. split; [exact Ht|]. split; [|exact Hback].
        apply (Hpix 0%nat 3%nat); lia.
  - destruct (block_windows_round_trip 3 ex_feature_map 2 4) as [_ Herr].
    + lia.
    + discriminate.
    + exact ex_feature_map_shape.
    + lia.
    + lia.
    + apply Herr. left. discriminate.
Defined.

Lemma grid_windows_round_trip_witness :
  exists t, grid_windows 2 ex_feature_map = Ok t
            /\ nth 1%nat (nth 0%nat (nth 1%nat (nth 0%nat t []) []) []) []
               = channel_vector ex_feature_map 0 3
            /\ grid_image t = ex_feature_map.
Proof.
  destruct (grid_windows_round_trip 2 ex_feature_map 2 4) as [Hok _].
  - lia.
  - discriminate.
  - exact ex_feature_map_shape.
  - lia.
  - lia.
  - destruct Hok as (t & Ht & _ & Hpix & Hback).
    + reflexivity.
    + reflexivity.
    + exists t. split; [exact Ht|]. split; [|exact Hback].
      apply (Hpix 0%nat 3%nat); lia.
Defined.

Lemma stage_attention_accepts_windows_witness :
  exists t out,
    grid_windows 2 ex_feature_map = Ok t
    /\ Attention_forward ex_window_attention (flatten_windows t) = Ok out
    /\ lead out = [1; 2]%nat.
Proof.
  destruct (stage_attention_accepts_windows ex_window_attention ex_feature_map 2 4)
    with (partition := grid_windows) as (t & out & Ht & Hout & Hlead & _).
  - simpl. lia.
  - exact ex_window_attention_dims.
  - discriminate.
  - exact ex_feature_map_shape.
  - lia.
  - lia.
  - reflexivity.
  - reflexivity.
  - right. reflexivity.
  - exists t, out. split; [exact Ht|]. split; [exact Hout | exact Hlead].
Defined.

Lemma add_pos_emb_frames_witness :
  (exists out,
     add_pos_emb 2 2 4 ex_learned_tokens = Ok out
     /\ nth 0%nat (nth 3%nat (nth 0%nat out []) []) 0
        = 13 + nth 0%nat (nth 1%nat (posemb_sincos_1d 2 4 10000) []) 0)
  /\ add_pos_emb 2 2 3 [[[1; 2; 3]; [4; 5; 6]; [7; 8; 9]; [10; 11; 12]]]
     = Raise RuntimeError.
Proof.
  split.
  - destruct (add_pos_emb_frames 2 2 4 ex_learned_tokens) as [Hok _].
    + repeat constructor.
    + repeat constructor.
    + destruct Hok as (out & Hout & _ & _ & _ & Hval).
      * reflexivity.
      * discriminate.
      * exists out. split; [exact Hout|].
        apply (Hval 0%nat 3%nat 0%nat); simpl; lia.
  - destruct (add_pos_emb_frames 2 2 3 [[[1; 2; 3]; [4; 5; 6]; [7; 8; 9]; [10; 11; 12]]])
      as [_ Herr].
    + repeat constructor.
    + repeat constructor.
    + apply Herr; [reflexivity | discriminate | discriminate].
Defined.
